(** * HPR knowledge base: search engine and circuit breaker

    A shallow embedding of the two algorithmic parts of the repository:

    - [CircuitBreaker] and the administrative reset endpoint of the HTTP
      server (the class [CircuitBreaker] and [app.post('/reset')]);
    - [levenshteinDistance] and the three searches of [HPRDataLoader]
      ([searchEpisodes], [searchHosts], [searchTranscripts]).

    JavaScript numbers are modelled by [Z] (integers only), strings by lists
    of code units below 256 ([list ascii]), arrays by lists, and the
    insertion-ordered [Set] and [Map] objects by duplicate-free lists and
    association lists. *)

From Stdlib Require Import ZArith Ascii String Bool Arith Lia List.
From Stdlib Require Import Sorted Permutation.
Import ListNotations.

Set Implicit Arguments.

(* ================================================================== *)
(** ** The circuit breaker *)
(* ================================================================== *)

Module Breaker.

Local Open Scope Z_scope.

Inductive State := CLOSED | OPEN | HALF_OPEN.

(** The fields assigned by the constructor of [CircuitBreaker]. *)
Record CircuitBreaker := mkBreaker {
  failures : Z;
  threshold : Z;
  timeout : Z;
  state : State;
  nextAttempt : Z
}.

Definition CIRCUIT_BREAKER_THRESHOLD : Z := 5.
Definition CIRCUIT_BREAKER_TIMEOUT_MS : Z := 60000.

(** [new CircuitBreaker(threshold, timeout)], built when [Date.now()] is
    [now]. *)
Definition newBreaker (threshold timeout now : Z) : CircuitBreaker :=
  mkBreaker 0 threshold timeout CLOSED now.

Definition set_state (s : State) (cb : CircuitBreaker) : CircuitBreaker :=
  mkBreaker (failures cb) (threshold cb) (timeout cb) s (nextAttempt cb).

Definition set_failures (n : Z) (cb : CircuitBreaker) : CircuitBreaker :=
  mkBreaker n (threshold cb) (timeout cb) (state cb) (nextAttempt cb).

Definition set_nextAttempt (t : Z) (cb : CircuitBreaker) : CircuitBreaker :=
  mkBreaker (failures cb) (threshold cb) (timeout cb) (state cb) t.

(** [reset()] *)
Definition reset (cb : CircuitBreaker) : CircuitBreaker :=
  set_state CLOSED (set_failures 0 cb).

Definition unavailable : string :=
  "Service temporarily unavailable. Please try again later.".

Section Execute.

(** Everything outside the breaker that the wrapped operation can read or
    change, with the clock read by [Date.now()]. *)
Variable World : Type.
Variable dateNow : World -> Z.
Variable Value : Type.

(** How an awaited promise settles. *)
Inductive Settled :=
| Fulfilled (v : Value)
| Rejected (message : string).

(** The wrapped operation [fn]: called in a world, it settles and leaves a
    world behind.  It is the only thing that [execute] runs between its two
    readings of the clock. *)
Definition Operation := World -> Settled * World.

(** The test made before [fn] is called: [None] is the thrown "temporarily
    unavailable" error, [Some cb'] the breaker with which the [try] block is
    entered. *)
Definition precheck (cb : CircuitBreaker) (w : World) : option CircuitBreaker :=
  match state cb with
  | OPEN =>
      if dateNow w <? nextAttempt cb then None
      else Some (set_state HALF_OPEN cb)
  | _ => Some cb
  end.

(** The two arms of the [try]/[catch] after [await fn()]; [w] is the world
    in which the promise has settled. *)
Definition settle (cb : CircuitBreaker) (r : Settled) (w : World)
  : CircuitBreaker :=
  match r with
  | Fulfilled _ =>
      match state cb with
      | HALF_OPEN => set_failures 0 (set_state CLOSED cb)
      | _ => cb
      end
  | Rejected _ =>
      let cb1 := set_failures (failures cb + 1) cb in
      if threshold cb1 <=? failures cb1
      then set_nextAttempt (dateNow w + timeout cb1) (set_state OPEN cb1)
      else cb1
  end.

(** [execute(fn)]: the breaker afterwards, what the caller observes, and the
    world afterwards. *)
Definition execute (cb : CircuitBreaker) (fn : Operation) (w : World)
  : CircuitBreaker * Settled * World :=
  match precheck cb w with
  | None => (cb, Rejected unavailable, w)
  | Some cb1 =>
      let (r, w1) := fn w in
      (settle cb1 r w1, r, w1)
  end.

(** A call of a sequence: [elapse] is what the rest of the program and the
    passing of time do to the world before the call is made.  The calls of a
    sequence are made one after the other, each when the previous one has
    settled. *)
Record Call := mkCall {
  elapse : World -> World;
  fn : Operation
}.

(** A sequence of calls: the breaker and the world afterwards, and what each
    caller observed. *)
Fixpoint run (cb : CircuitBreaker) (cs : list Call) (w : World)
  : CircuitBreaker * list Settled * World :=
  match cs with
  | [] => (cb, [], w)
  | c :: rest =>
      let '(cb1, r, w1) := execute cb (fn c) (elapse c w) in
      let '(cb2, rs, w2) := run cb1 rest w1 in
      (cb2, r :: rs, w2)
  end.

(** The world when all the calls of [cs] were turned away unserved. *)
Definition elapsed (cs : list Call) (w : World) : World :=
  fold_left (fun w c => elapse c w) cs w.

(** Every call of [cs] is made before the clock shows [t], when none of
    them is served. *)
Fixpoint allBefore (t : Z) (cs : list Call) (w : World) : Prop :=
  match cs with
  | [] => True
  | c :: rest => dateNow (elapse c w) < t /\ allBefore t rest (elapse c w)
  end.

(** Whether a call failed, as the [catch] arm sees it. *)
Definition isRejected (r : Settled) : bool :=
  match r with Rejected _ => true | Fulfilled _ => false end.

Definition countRejected (rs : list Settled) : Z :=
  Z.of_nat (length (filter isRejected rs)).

End Execute.

(** The handler of [POST /reset]: the breaker afterwards and the message of
    the JSON reply. *)
Definition postReset (cb : CircuitBreaker) : CircuitBreaker * string :=
  match state cb with
  | OPEN => (reset cb, "Circuit breaker reset to CLOSED."%string)
  | _ => (cb, "Circuit breaker already CLOSED."%string)
  end.

(** A concrete world for examples: the clock and the number of times a
    wrapped operation was called. *)
Record Probe := mkProbe { clock : Z; calls : nat }.

Definition succeeding (v : nat) : Operation Probe nat :=
  fun w => (Fulfilled v, mkProbe (clock w + 1) (S (calls w))).

Definition failing : Operation Probe nat :=
  fun w => (Rejected nat "boom", mkProbe (clock w + 1) (S (calls w))).

(** A call made [d] milliseconds after the previous one settled. *)
Definition after (d : Z) (op : Operation Probe nat) : Call Probe nat :=
  mkCall (fun w => mkProbe (clock w + d) (calls w)) op.

(** Calls with the given outcomes ([true]: the operation fails), one
    millisecond apart. *)
Definition replay (outcomes : list bool) : list (Call Probe nat) :=
  map (fun failed : bool => after 1 (if failed then failing else succeeding 0))
      outcomes.

(** The consecutive failures since the last success, for a history of
    outcomes with the last call first. *)
Fixpoint streak (history : list bool) : Z :=
  match history with
  | true :: h => 1 + streak h
  | _ => 0
  end.

End Breaker.

(* ================================================================== *)
(** ** JavaScript strings and arrays *)
(* ================================================================== *)

Module JS.

(** A string is its sequence of code units; the model covers code units
    below 256. *)
Definition str := list ascii.

Definition lit (s : string) : str := list_ascii_of_string s.

Definition code (c : ascii) : N := N_of_ascii c.

Fixpoint str_eqb (a b : str) : bool :=
  match a, b with
  | [], [] => true
  | c :: a', d :: b' => Ascii.eqb c d && str_eqb a' b'
  | _, _ => false
  end.

(** [!s] for a string [s]. *)
Definition isEmpty (s : str) : bool :=
  match s with [] => true | _ => false end.

(** [String.prototype.toLowerCase] on one code unit: A-Z and the capital
    letters of Latin-1 (all of 192..222 but the multiplication sign). *)
Definition toLowerChar (c : ascii) : ascii :=
  let n := code c in
  if (((65 <=? n) && (n <=? 90)) ||
      ((192 <=? n) && (n <=? 222) && negb (n =? 215)))%N
  then ascii_of_N (n + 32) else c.

Definition toLowerCase (s : str) : str := map toLowerChar s.

(** White space and line terminators ([\s], and what [trim] strips): tab,
    line feed, vertical tab, form feed, carriage return, space, NBSP. *)
Definition isSpace (c : ascii) : bool :=
  let n := code c in
  (((9 <=? n) && (n <=? 13)) || (n =? 32) || (n =? 160))%N.

Fixpoint trimStart (s : str) : str :=
  match s with
  | c :: s' => if isSpace c then trimStart s' else s
  | [] => []
  end.

Definition trimEnd (s : str) : str := rev (trimStart (rev s)).

Definition trim (s : str) : str := trimEnd (trimStart s).

Fixpoint startsWith (p s : str) : bool :=
  match p, s with
  | [], _ => true
  | c :: p', d :: s' => Ascii.eqb c d && startsWith p' s'
  | _ :: _, [] => false
  end.

(** [s.includes(sub)] *)
Fixpoint includes (s sub : str) : bool :=
  startsWith sub s ||
  match s with
  | [] => false
  | _ :: s' => includes s' sub
  end.

(** The relational operators on strings compare code units. *)
Fixpoint compareStr (a b : str) : comparison :=
  match a, b with
  | [], [] => Eq
  | [], _ :: _ => Lt
  | _ :: _, [] => Gt
  | c :: a', d :: b' =>
      match N.compare (code c) (code d) with
      | Eq => compareStr a' b'
      | r => r
      end
  end.

Definition str_le (a b : str) : bool :=
  match compareStr a b with Gt => false | _ => true end.

Definition str_ge (a b : str) : bool := str_le b a.

(** [s.split(/\s+/)]: the fields between maximal runs of white space; a run
    at either end leaves an empty field there.  [inRun] tells that the
    previous code unit was white space. *)
Fixpoint splitSpacesFrom (inRun : bool) (s : str) : list str :=
  match s with
  | [] => [[]]
  | c :: s' =>
      if isSpace c then
        if inRun then splitSpacesFrom true s'
        else [] :: splitSpacesFrom true s'
      else
        match splitSpacesFrom false s' with
        | w :: ws => (c :: w) :: ws
        | [] => [[c]]
        end
  end.

Definition splitSpaces (s : str) : list str := splitSpacesFrom false s.

(** [s.split(sep)] for a separator that is one code unit out of a class. *)
Fixpoint splitOn (isSep : ascii -> bool) (s : str) : list str :=
  match s with
  | [] => [[]]
  | c :: s' =>
      if isSep c then [] :: splitOn isSep s'
      else
        match splitOn isSep s' with
        | w :: ws => (c :: w) :: ws
        | [] => [[c]]
        end
  end.

Definition LF : ascii := ascii_of_N 10.
Definition CR : ascii := ascii_of_N 13.

(** [s.split(/\r?\n/)]: a carriage return is dropped only when a line feed
    follows it. *)
Fixpoint splitLines (s : str) : list str :=
  match s with
  | [] => [[]]
  | c :: s' =>
      if Ascii.eqb c LF then [] :: splitLines s'
      else if Ascii.eqb c CR && match s' with d :: _ => Ascii.eqb d LF | [] => false end
      then splitLines s'
      else
        match splitLines s' with
        | w :: ws => (c :: w) :: ws
        | [] => [[c]]
        end
  end.

(** [parts.join(sep)] *)
Fixpoint join (sep : str) (parts : list str) : str :=
  match parts with
  | [] => []
  | [p] => p
  | p :: rest => p ++ sep ++ join sep rest
  end.

Local Open Scope Z_scope.

(** The relative index of [Array.prototype.slice]. *)
Definition relIndex (len k : Z) : Z :=
  if k <? 0 then Z.max (len + k) 0 else Z.min k len.

(** [l.slice(start, end)] *)
Definition slice {A : Type} (l : list A) (start stop : Z) : list A :=
  let len := Z.of_nat (length l) in
  let k := relIndex len start in
  let final := relIndex len stop in
  firstn (Z.to_nat (final - k)) (skipn (Z.to_nat k) l).

(** [Array.prototype.sort(cmp)].  The language requires the sort to be
    stable; for a comparator that is a consistent ordering the result is the
    one of this insertion sort, which puts [x] behind the elements it is
    strictly greater than and in front of the first other one. *)
Fixpoint insertBy {A : Type} (cmp : A -> A -> Z) (x : A) (l : list A) : list A :=
  match l with
  | [] => [x]
  | y :: l' => if 0 <? cmp x y then y :: insertBy cmp x l' else x :: l
  end.

Definition sortBy {A : Type} (cmp : A -> A -> Z) (l : list A) : list A :=
  fold_right (insertBy cmp) [] l.

End JS.

(* ================================================================== *)
(** ** Levenshtein distance *)
(* ================================================================== *)

Module Lev.

Import JS.

(** [matrix]: an array of rows. *)
Definition Matrix := list (list nat).

(** [matrix[i][j]], read. *)
Definition mget (m : Matrix) (i j : nat) : nat := nth j (nth i m []) 0.

(** [row[j] = v] for [j] up to the length of the row: an element is replaced,
    or appended when [j] is the length. *)
Definition rowSet (row : list nat) (j v : nat) : list nat :=
  firstn j row ++ v :: skipn (S j) row.

(** [matrix[i][j] = v] *)
Definition mset (m : Matrix) (i j v : nat) : Matrix :=
  firstn i m ++ rowSet (nth i m []) j v :: skipn (S i) m.

(** [s.charAt(k)]: [None] stands for the empty string. *)
Definition charAt (s : str) (k : nat) : option ascii := nth_error s k.

Definition sameChar (x y : option ascii) : bool :=
  match x, y with
  | Some c, Some d => Ascii.eqb c d
  | None, None => true
  | _, _ => false
  end.

(** First loop: [matrix[i] = [i]] for [i] from 0 to [b.length]. *)
Definition initColumn (nb : nat) : Matrix :=
  map (fun i => [i]) (seq 0 (S nb)).

(** Second loop: [matrix[0][j] = j] for [j] from 0 to [a.length]. *)
Definition initRow (na : nat) (m : Matrix) : Matrix :=
  fold_left (fun m j => mset m 0 j j) (seq 0 (S na)) m.

(** The value stored by the body of the inner loop. *)
Definition cell (a b : str) (m : Matrix) (i j : nat) : nat :=
  if sameChar (charAt b (i - 1)) (charAt a (j - 1))
  then mget m (i - 1) (j - 1)
  else Nat.min (Nat.min (mget m (i - 1) (j - 1) + 1) (mget m i (j - 1) + 1))
               (mget m (i - 1) j + 1).

(** Inner loop, [j] from 1 to [a.length]. *)
Definition fillRow (a b : str) (m : Matrix) (i : nat) : Matrix :=
  fold_left (fun m j => mset m i j (cell a b m i j)) (seq 1 (length a)) m.

(** Outer loop, [i] from 1 to [b.length]. *)
Definition fill (a b : str) (m : Matrix) : Matrix :=
  fold_left (fillRow a b) (seq 1 (length b)) m.

Definition levenshteinDistance (a b : str) : nat :=
  if length a =? 0 then length b
  else if length b =? 0 then length a
  else mget (fill a b (initRow (length a) (initColumn (length b))))
            (length b) (length a).

(** *** What the distance is measured against *)

(** One single-character edit: an insertion, a deletion or a substitution,
    anywhere in the string. *)
Inductive edit1 : str -> str -> Prop :=
| edit_insert : forall (c : ascii) (l r : str), edit1 (l ++ r) (l ++ c :: r)
| edit_delete : forall (c : ascii) (l r : str), edit1 (l ++ c :: r) (l ++ r)
| edit_subst : forall (c d : ascii) (l r : str), edit1 (l ++ c :: r) (l ++ d :: r).

(** [edits n x y]: [n] edits, one after the other, turn [x] into [y]. *)
Inductive edits : nat -> str -> str -> Prop :=
| edits_done : forall x, edits 0 x x
| edits_step : forall n x y z, edit1 x y -> edits n y z -> edits (S n) x z.

(** The recurrence that the matrix tabulates, on whole strings. *)
Fixpoint lev (x : str) : str -> nat :=
  fix levx (y : str) : nat :=
    match x, y with
    | [], _ => length y
    | _ :: _, [] => length x
    | c :: x', d :: y' =>
        if Ascii.eqb c d then lev x' y'
        else S (Nat.min (Nat.min (lev x' y') (lev x' y)) (levx y'))
    end.

(** *** What the matrix holds while the loops run *)

(** What [matrix[i][j]] is to hold: the recurrence on the first [j] code
    units of [a] and the first [i] of [b], read from their ends. *)
Definition entry (a b : str) (i j : nat) : nat :=
  lev (rev (firstn j a)) (rev (firstn i b)).

(** The number of entries of row [i'] when the loops stand at row [i] with
    column [j] written last. *)
Definition width (a : str) (i j i' : nat) : nat :=
  if i' <? i then S (length a) else if i' =? i then S j else 1.

Definition tabulated (a b : str) (i j : nat) (m : Matrix) : Prop :=
  length m = S (length b) /\
  forall i', i' <= length b ->
    length (nth i' m []) = width a i j i' /\
    forall j', j' < width a i j i' -> mget m i' j' = entry a b i' j'.

End Lev.

(* ================================================================== *)
(** ** The in-memory corpus and its searches *)
(* ================================================================== *)

Module Search.

Import JS Lev.
Local Open Scope Z_scope.

(** The fields of the loaded JSON records that the searches read. *)
Record Episode := mkEpisode {
  id : Z;
  date : str;
  title : str;
  summary : str;
  notes : str;
  tags : str;
  hostid : Z;
  series : Z
}.

Record Host := mkHost {
  host_hostid : Z;
  host : str;
  email : str
}.

(** The state of an [HPRDataLoader] that the searches read; [transcripts] is
    a [Map] from episode id to text, in insertion order. *)
Record HPRDataLoader := mkLoader {
  episodes : list Episode;
  hosts : list Host;
  transcripts : list (Z * str)
}.

Inductive MatchType := exact | fuzzy.

(** The numbers a distance variable can hold. *)
Inductive Num := Fin (n : nat) | Infinity.

(** [x < m] and [m <= k] for a finite [x] and an integer [k]. *)
Definition ltNum (x : nat) (m : Num) : bool :=
  match m with
  | Fin k => (x <? k)%nat
  | Infinity => true
  end.

Definition leNum (m : Num) (k : Z) : bool :=
  match m with
  | Fin x => Z.of_nat x <=? k
  | Infinity => false
  end.

(** [a - b]; an infinite difference is represented by a number of its sign,
    and [None] is NaN. *)
Definition subNum (a b : Num) : option Z :=
  match a, b with
  | Fin x, Fin y => Some (Z.of_nat x - Z.of_nat y)
  | Infinity, Fin _ => Some 1
  | Fin _, Infinity => Some (-1)
  | Infinity, Infinity => None
  end.

(** What [sort] makes of the value returned by a comparator: NaN counts
    as 0. *)
Definition sortValue (v : option Z) : Z :=
  match v with Some z => z | None => 0 end.

(** [{...ep, matchType, matchDistance}]; [matchDistance] is absent from an
    exact match. *)
Record EpisodeMatch := mkEpisodeMatch {
  episode : Episode;
  matchType : MatchType;
  matchDistance : option Num
}.

Record HostMatch := mkHostMatch {
  hm_host : Host;
  hm_matchType : MatchType;
  hm_matchDistance : option nat
}.

Definition getEpisode (db : HPRDataLoader) (episodeId : Z) : option Episode :=
  find (fun ep => id ep =? episodeId) (episodes db).

(** *** Truthiness of optional arguments *)

Definition truthyStr (x : option str) : bool :=
  match x with Some s => negb (isEmpty s) | None => false end.

(** *** searchHosts *)

Record HostCandidate := mkHostCandidate {
  hc_host : Host;
  hc_distance : nat
}.

Definition hostContains (queryLower : str) (h : Host) : bool :=
  includes (toLowerCase (host h)) queryLower ||
  includes (toLowerCase (email h)) queryLower.

Definition hostMinDistance (queryLower : str) (h : Host) : nat :=
  Nat.min (levenshteinDistance queryLower (toLowerCase (host h)))
          (levenshteinDistance queryLower (toLowerCase (email h))).

Definition byDistance (a b : HostCandidate) : Z :=
  Z.of_nat (hc_distance a) - Z.of_nat (hc_distance b).

Definition searchHosts (db : HPRDataLoader) (query : str) (maxDistance : Z)
  : list HostMatch :=
  let queryLower := toLowerCase query in
  let exactMatches :=
    map (fun h => mkHostMatch h exact None)
        (filter (hostContains queryLower) (hosts db)) in
  if (0 <? length exactMatches)%nat then exactMatches
  else
    map (fun r => mkHostMatch (hc_host r) fuzzy (Some (hc_distance r)))
      (sortBy byDistance
        (filter (fun r => Z.of_nat (hc_distance r) <=? maxDistance)
          (map (fun h => mkHostCandidate h (hostMinDistance queryLower h))
               (hosts db)))).

Definition defaultHostMaxDistance : Z := 2.

(** *** searchEpisodes *)

Record EpisodeOptions := mkEpisodeOptions {
  limit : Z;
  hostId : option Z;
  seriesId : option Z;
  tag : option str;
  fromDate : option str;
  toDate : option str;
  maxDistance : Z
}.

Definition defaultEpisodeOptions : EpisodeOptions :=
  mkEpisodeOptions 20 None None None None None 3.

Record EpisodeCandidate := mkEpisodeCandidate {
  ec_episode : Episode;
  ec_distance : Num
}.

Definition matchesFilters (o : EpisodeOptions) (ep : Episode) : bool :=
  let matchesHost :=
    match hostId o with
    | Some h => (h =? 0) || (hostid ep =? h)
    | None => true
    end in
  let matchesSeries :=
    match seriesId o with
    | Some s => series ep =? s
    | None => true
    end in
  let matchesTag :=
    match tag o with
    | Some t => isEmpty t || includes (toLowerCase (tags ep)) (toLowerCase t)
    | None => true
    end in
  let matchesDateRange :=
    match fromDate o with
    | Some d => isEmpty d || str_ge (date ep) d
    | None => true
    end &&
    match toDate o with
    | Some d => isEmpty d || str_le (date ep) d
    | None => true
    end in
  matchesHost && matchesSeries && matchesTag && matchesDateRange.

Definition matchesQuery (query queryLower : str) (ep : Episode) : bool :=
  isEmpty query ||
  includes (toLowerCase (title ep)) queryLower ||
  includes (toLowerCase (summary ep)) queryLower ||
  includes (toLowerCase (tags ep)) queryLower ||
  includes (toLowerCase (notes ep)) queryLower.

(** The loop over [titleWords], from [minDistance = Infinity]. *)
Definition minDistance (queryLower : str) (titleWords : list str) : Num :=
  fold_left
    (fun m word =>
       let distance := levenshteinDistance queryLower word in
       if ltNum distance m then Fin distance else m)
    titleWords Infinity.

Definition titleDistance (queryLower : str) (ep : Episode) : Num :=
  minDistance queryLower (splitSpaces (toLowerCase (title ep))).

Definition byCandidateDistance (a b : EpisodeCandidate) : Z :=
  sortValue (subNum (ec_distance a) (ec_distance b)).

(** [x || 0] for a possibly absent distance. *)
Definition orZero (x : option Num) : Num :=
  match x with Some n => n | None => Fin 0 end.

Definition isFuzzy (r : EpisodeMatch) : bool :=
  match matchType r with fuzzy => true | exact => false end.

(** The exact pass: the value of [results] before the fuzzy test. *)
Definition exactResults (db : HPRDataLoader) (query : str)
  (o : EpisodeOptions) : list EpisodeMatch :=
  let queryLower := toLowerCase query in
  map (fun ep => mkEpisodeMatch ep exact None)
      (filter (fun ep => matchesQuery query queryLower ep && matchesFilters o ep)
              (episodes db)).

(** The test that guards the fuzzy pass. *)
Definition fuzzyRuns (results : list EpisodeMatch) (query : str) : bool :=
  (length results =? 0)%nat && negb (isEmpty query) &&
  (0 <? length (trim query))%nat.

(** The accepted candidates of the fuzzy pass, before its sort. *)
Definition fuzzyCandidates (db : HPRDataLoader) (query : str)
  (o : EpisodeOptions) : list EpisodeCandidate :=
  let queryLower := toLowerCase query in
  filter (fun r => leNum (ec_distance r) (maxDistance o))
    (map (fun ep => mkEpisodeCandidate ep (titleDistance queryLower ep))
         (filter (matchesFilters o) (episodes db))).

Definition fuzzyResults (db : HPRDataLoader) (query : str)
  (o : EpisodeOptions) : list EpisodeMatch :=
  map (fun r => mkEpisodeMatch (ec_episode r) fuzzy (Some (ec_distance r)))
      (sortBy byCandidateDistance (fuzzyCandidates db query o)).

Section Collation.

(** [String.prototype.localeCompare]: the order is the host's collation. *)
Variable localeCompare : str -> str -> Z.

(** The comparator of the final sort. *)
Definition compareResults (a b : EpisodeMatch) : Z :=
  let byDate := localeCompare (date (episode b)) (date (episode a)) in
  if isFuzzy a && isFuzzy b then
    match subNum (orZero (matchDistance a)) (orZero (matchDistance b)) with
    | Some distDiff => if distDiff =? 0 then byDate else distDiff
    | None => 0
    end
  else byDate.

(** [results] when the final sort has run. *)
Definition sortedResults (db : HPRDataLoader) (query : str)
  (o : EpisodeOptions) : list EpisodeMatch :=
  let results := exactResults db query o in
  let results :=
    if fuzzyRuns results query then fuzzyResults db query o else results in
  sortBy compareResults results.

Definition searchEpisodes (db : HPRDataLoader) (query : str)
  (o : EpisodeOptions) : list EpisodeMatch :=
  slice (sortedResults db query o) 0 (limit o).

End Collation.

(** *** Vocabulary of the statements about the searches *)

(** [d] is the least distance from [q] to a word of [words]. *)
Definition leastDistance (q : str) (words : list str) (d : nat) : Prop :=
  (exists w, In w words /\ levenshteinDistance q w = d) /\
  (forall w, In w words -> d <= levenshteinDistance q w)%nat.

(** The words of a title: the fields between its runs of white space that
    are not empty. *)
Definition wordsOf (t : str) : list str :=
  filter (fun w => negb (isEmpty w)) (splitSpaces t).

(** The distance recorded with a fuzzy match. *)
Definition distanceOf (r : EpisodeMatch) : nat :=
  match matchDistance r with
  | Some (Fin d) => d
  | _ => 0%nat
  end.

(** [a] may stand before [b] in a list ordered by descending date: the date
    of [b] does not come after the date of [a] in the collation. *)
Definition dateDescending (localeCompare : str -> str -> Z)
  (a b : EpisodeMatch) : Prop :=
  localeCompare (date (episode b)) (date (episode a)) <= 0.

(** [a] may stand before [b] in a list ordered by ascending distance, then
    by descending date. *)
Definition distanceThenDate (localeCompare : str -> str -> Z)
  (a b : EpisodeMatch) : Prop :=
  (distanceOf a < distanceOf b)%nat \/
  (distanceOf a = distanceOf b /\ dateDescending localeCompare a b).

(** A fuzzy match that carries its distance. *)
Definition fuzzyWithDistance (r : EpisodeMatch) : Prop :=
  matchType r = fuzzy /\ matchDistance r = Some (Fin (distanceOf r)).

(** The distance recorded with a host found by the fuzzy pass. *)
Definition foundDistance (r : HostMatch) : nat :=
  match hm_matchDistance r with Some d => d | None => 0%nat end.

(** A collation that is the order of the code units, as it is for ISO
    dates. *)
Definition codeUnitCompare (a b : str) : Z :=
  match compareStr a b with Lt => -1 | Eq => 0 | Gt => 1 end.

End Search.

(* ================================================================== *)
(** ** Transcript search *)
(* ================================================================== *)

Module Transcripts.

Import JS Lev Search.
Local Open Scope Z_scope.

Record Options := mkOptions {
  limit : Z;
  contextLines : Z;
  terms : list str;
  matchMode : str;
  hostId : option Z;
  hostName : option str;
  caseSensitive : bool;
  wholeWord : bool;
  maxMatchesPerEpisode : Z
}.

Definition defaultOptions : Options :=
  mkOptions 20 3 [] (lit "auto") None None false false 5.

(** *** The patterns *)

(** [{term, regex}]: the regular expression is the term taken literally
    ([escapeRegExp] protects every metacharacter), between [\b] assertions
    when [wholeWord] is set, with flags [g] or [gi]. *)
Record Matcher := mkMatcher {
  term : str;
  ignoreCase : bool;
  bounded : bool
}.

(** Two code units match under the [i] flag when their canonical forms agree,
    which within Latin-1 is agreement of the lower-case forms. *)
Definition sameUnit (ic : bool) (c d : ascii) : bool :=
  if ic then Ascii.eqb (toLowerChar c) (toLowerChar d) else Ascii.eqb c d.

(** [\w] *)
Definition isWordChar (c : ascii) : bool :=
  let n := code c in
  (((48 <=? n) && (n <=? 57)) || ((65 <=? n) && (n <=? 90)) ||
   (n =? 95) || ((97 <=? n) && (n <=? 122)))%N.

Definition isWord (c : option ascii) : bool :=
  match c with Some x => isWordChar x | None => false end.

(** [\b] between two neighbouring positions. *)
Definition boundary (before after : option ascii) : bool :=
  xorb (isWord before) (isWord after).

(** The literal read at the head of [line]: the last code unit consumed
    ([prev] when none was) and what is left of the line. *)
Fixpoint literalAt (ic : bool) (t : str) (prev : option ascii) (line : str)
  : option (option ascii * str) :=
  match t, line with
  | [], _ => Some (prev, line)
  | c :: t', d :: line' =>
      if sameUnit ic c d then literalAt ic t' (Some d) line' else None
  | _ :: _, [] => None
  end.

Definition matchHere (m : Matcher) (prev : option ascii) (line : str) : bool :=
  match literalAt (ignoreCase m) (term m) prev line with
  | Some (last, rest) =>
      if bounded m
      then boundary prev (hd_error line) && boundary last (hd_error rest)
      else true
  | None => false
  end.

Fixpoint testFrom (m : Matcher) (prev : option ascii) (line : str) : bool :=
  matchHere m prev line ||
  match line with
  | [] => false
  | c :: line' => testFrom m (Some c) line'
  end.

(** [matcher.regex.test(line)] with [lastIndex] reset to 0. *)
Definition test (m : Matcher) (line : str) : bool := testFrom m None line.

(** *** Sets and maps in insertion order *)

Definition setHas (x : str) (s : list str) : bool := existsb (str_eqb x) s.

Definition setAdd (s : list str) (x : str) : list str :=
  if setHas x s then s else s ++ [x].

Fixpoint mapGet (k : str) (m : list (str * Z)) : option Z :=
  match m with
  | [] => None
  | (k', v) :: m' => if str_eqb k k' then Some v else mapGet k m'
  end.

Fixpoint mapSet (k : str) (v : Z) (m : list (str * Z)) : list (str * Z) :=
  match m with
  | [] => [(k, v)]
  | (k', v') :: m' =>
      if str_eqb k k' then (k', v) :: m' else (k', v') :: mapSet k v m'
  end.

(** [counts.set(t, (counts.get(t) || 0) + 1)] *)
Definition countHit (counts : list (str * Z)) (t : str) : list (str * Z) :=
  mapSet t (match mapGet t counts with Some n => n | None => 0 end + 1) counts.

Definition idSetAdd (s : list Z) (x : Z) : list Z :=
  if existsb (Z.eqb x) s then s else s ++ [x].

(** *** The scan of one transcript *)

Record TranscriptMatch := mkMatch {
  lineNumber : Z;
  match_terms : list str;
  context : str
}.

(** The variables of the loop over the lines. *)
Record Scan := mkScan {
  matches : list TranscriptMatch;
  matchedTerms : list str;
  termHitCounts : list (str * Z);
  truncated : bool
}.

Definition emptyScan : Scan := mkScan [] [] [] false.

(** The loop over the matchers for one line: [matchedOnLine] and the scan
    with its set and its counters updated. *)
Definition testLine (matchers : list Matcher) (line : str) (s : Scan)
  : list str * Scan :=
  fold_left
    (fun (acc : list str * Scan) matcher =>
       let (matchedOnLine, s) := acc in
       if test matcher line then
         (matchedOnLine ++ [term matcher],
          mkScan (matches s)
                 (setAdd (matchedTerms s) (term matcher))
                 (countHit (termHitCounts s) (term matcher))
                 (truncated s))
       else acc)
    matchers ([], s).

(** The body of the loop for the line at [index], up to the test of the
    cap. *)
Definition scanLine (o : Options) (matchers : list Matcher)
  (lines : list str) (index : nat) (line : str) (s : Scan) : Scan :=
  let (matchedOnLine, s1) := testLine matchers line s in
  if (0 <? length matchedOnLine)%nat then
    let start := Z.max 0 (Z.of_nat index - contextLines o) in
    let stop := Z.min (Z.of_nat (length lines))
                      (Z.of_nat index + contextLines o + 1) in
    let context := join [LF] (slice lines start stop) in
    mkScan (matches s1 ++
              [mkMatch (Z.of_nat index + 1)
                       (fold_left setAdd matchedOnLine []) context])
           (matchedTerms s1) (termHitCounts s1) (truncated s1)
  else s1.

Definition capReached (o : Options) (s : Scan) : bool :=
  maxMatchesPerEpisode o <=? Z.of_nat (length (matches s)).

(** The loop over the lines still to read, [rest], the first of which has
    number [index] in [lines]. *)
Fixpoint scanFrom (o : Options) (matchers : list Matcher) (lines : list str)
  (index : nat) (rest : list str) (s : Scan) : Scan :=
  match rest with
  | [] => s
  | line :: rest' =>
      let s1 := scanLine o matchers lines index line s in
      if capReached o s1
      then mkScan (matches s1) (matchedTerms s1) (termHitCounts s1) true
      else scanFrom o matchers lines (S index) rest' s1
  end.

Definition scanTranscript (o : Options) (matchers : list Matcher)
  (lines : list str) : Scan :=
  scanFrom o matchers lines 0 lines emptyScan.

(** *** Terms, mode and patterns *)

Definition nonEmpty (l : list str) : list str :=
  filter (fun s => negb (isEmpty s)) l.

Definition isTermSeparator (c : ascii) : bool :=
  let n := code c in
  ((n =? 124) || (n =? 44) || (n =? 59) || (n =? 10))%N.

Definition isAnyOrAll (mode : str) : bool :=
  str_eqb mode (lit "any") || str_eqb mode (lit "all").

Definition explicitTerms (o : Options) : list str :=
  nonEmpty (map trim (terms o)).

Definition splitQueryTerms (query : str) (o : Options) : list str :=
  if isAnyOrAll (matchMode o)
  then nonEmpty (map trim (splitOn isTermSeparator query))
  else [].

Definition hasQuery (query : str) : bool := (0 <? length (trim query))%nat.

Definition searchTerms (query : str) (o : Options) : list str :=
  let ts :=
    if (0 <? length (explicitTerms o))%nat then explicitTerms o
    else splitQueryTerms query o in
  if (length ts =? 0)%nat && hasQuery query then [trim query] else ts.

Definition resolvedMatchMode (query : str) (o : Options) : str :=
  let mode := matchMode o in
  if isAnyOrAll mode || str_eqb mode (lit "phrase") then mode
  else if (1 <? length (searchTerms query o))%nat then lit "any"
  else lit "phrase".

Definition effectiveTerms (query : str) (o : Options) : list str :=
  if str_eqb (resolvedMatchMode query o) (lit "phrase")
  then nonEmpty [if hasQuery query then trim query
                 else hd [] (searchTerms query o)]
  else searchTerms query o.

Definition makeMatchers (query : str) (o : Options) : list Matcher :=
  map (fun t => mkMatcher t (negb (caseSensitive o)) (wholeWord o))
      (nonEmpty (effectiveTerms query o)).

(** *** The search *)

Record MatchSummary := mkSummary {
  ms_matchMode : str;
  ms_matchedTerms : list str;
  totalMatches : Z;
  ms_termHitCounts : list (str * Z);
  ms_truncated : bool
}.

Record TranscriptResult := mkResult {
  r_episode : Episode;
  r_matches : list TranscriptMatch;
  matchSummary : MatchSummary
}.

Definition resolvedHostIds (db : HPRDataLoader) (o : Options) : list Z :=
  let ids :=
    match hostId o with
    | Some h => if h =? 0 then [] else [h]
    | None => []
    end in
  if truthyStr (hostName o) then
    fold_left idSetAdd
      (map (fun m => host_hostid (hm_host m))
           (searchHosts db (match hostName o with Some n => n | None => [] end)
                        defaultHostMaxDistance))
      ids
  else ids.

(** What the body of the loop over the transcripts does with one entry once
    the record of its episode is at hand: [None] is a [continue], [Some r]
    the result pushed. *)
Definition episodeResult (o : Options) (mode : str) (matchers : list Matcher)
  (hostIds : list Z) (ep : Episode) (transcript : str)
  : option TranscriptResult :=
  if (0 <? length hostIds)%nat && negb (existsb (Z.eqb (hostid ep)) hostIds)
  then None
  else
    let s := scanTranscript o matchers (splitLines transcript) in
    if (length (matches s) =? 0)%nat then None
    else if str_eqb mode (lit "all") &&
            (length (matchedTerms s) <? length matchers)%nat
    then None
    else Some (mkResult ep (matches s)
                 (mkSummary mode (matchedTerms s)
                            (Z.of_nat (length (matches s)))
                            (termHitCounts s) (truncated s))).

(** The loop over the entries of [this.transcripts]. *)
Fixpoint scanAll (db : HPRDataLoader) (o : Options) (mode : str)
  (matchers : list Matcher) (hostIds : list Z)
  (entries : list (Z * str)) (results : list TranscriptResult)
  : list TranscriptResult :=
  match entries with
  | [] => results
  | (episodeId, transcript) :: entries' =>
      if limit o <=? Z.of_nat (length results) then results
      else
        match getEpisode db episodeId with
        | None => scanAll db o mode matchers hostIds entries' results
        | Some ep =>
            match episodeResult o mode matchers hostIds ep transcript with
            | None => scanAll db o mode matchers hostIds entries' results
            | Some r =>
                scanAll db o mode matchers hostIds entries' (results ++ [r])
            end
        end
  end.

Definition searchTranscripts (db : HPRDataLoader) (query : str)
  (o : Options) : list TranscriptResult :=
  if (length (effectiveTerms query o) =? 0)%nat then []
  else
    let matchers := makeMatchers query o in
    if (length matchers =? 0)%nat then []
    else
      scanAll db o (resolvedMatchMode query o) matchers
              (resolvedHostIds db o) (transcripts db) [].

(** *** Vocabulary of the statements about the transcript search *)

(** Some pattern matches the line. *)
Definition lineMatches (matchers : list Matcher) (line : str) : bool :=
  existsb (fun m => test m line) matchers.

(** The terms of the patterns that match the line, in the order of the
    patterns. *)
Definition termsOn (matchers : list Matcher) (line : str) : list str :=
  map term (filter (fun m => test m line) matchers).

Definition matchingLines (matchers : list Matcher) (lines : list str)
  : list str :=
  filter (lineMatches matchers) lines.

(** What a scan recorded, the context windows left out: the line number and
    the terms of every match, the set of matched terms, the counters and the
    flag. *)
Definition outline (s : Scan)
  : list (Z * list str) * list str * list (str * Z) * bool :=
  (map (fun m => (lineNumber m, match_terms m)) (matches s),
   matchedTerms s, termHitCounts s, truncated s).

(** The set of matched terms of a scan is a set, of terms searched for, and
    its members are the terms recorded with the matches. *)
Definition coherent (ms : list Matcher) (s : Scan) : Prop :=
  NoDup (matchedTerms s) /\
  incl (matchedTerms s) (map term ms) /\
  forall t, In t (matchedTerms s) <->
            exists m, In m (matches s) /\ In t (match_terms m).

(** The episode passes the host filter of the search. *)
Definition hostAllowed (hostIds : list Z) (ep : Episode) : bool :=
  negb ((0 <? length hostIds)%nat && negb (existsb (Z.eqb (hostid ep)) hostIds)).

End Transcripts.

(* ================================================================== *)
(** ** Direct lookups and statistics *)
(* ================================================================== *)

Module Lookups.

Import JS Lev Search.
Local Open Scope Z_scope.

(** [getHost(id)] *)
Definition getHost (db : HPRDataLoader) (hostId : Z) : option Host :=
  find (fun h => host_hostid h =? hostId) (hosts db).

(** [getTranscript(episodeId)]: [Map.prototype.get]. *)
Fixpoint mapLookup (entries : list (Z * str)) (key : Z) : option str :=
  match entries with
  | [] => None
  | (k, v) :: rest => if k =? key then Some v else mapLookup rest key
  end.

Definition getTranscript (db : HPRDataLoader) (episodeId : Z) : option str :=
  mapLookup (transcripts db) episodeId.

(** [getEpisodesByHost(hostId)] and [getEpisodesInSeries(seriesId)] *)
Definition getEpisodesByHost (db : HPRDataLoader) (hostId : Z) : list Episode :=
  filter (fun ep => hostid ep =? hostId) (episodes db).

Definition getEpisodesInSeries (db : HPRDataLoader) (seriesId : Z)
  : list Episode :=
  filter (fun ep => series ep =? seriesId) (episodes db).

(** [a < b] and [a > b] on strings. *)
Definition str_lt (a b : str) : bool :=
  match compareStr a b with Lt => true | _ => false end.

Definition str_gt (a b : str) : bool := str_lt b a.

(** [this.episodes[0]?.date || ''] *)
Definition firstDate (db : HPRDataLoader) : str :=
  match episodes db with
  | ep :: _ => date ep
  | [] => []
  end.

(** The two [reduce] calls of [getStats]. *)
Definition earliest (db : HPRDataLoader) : str :=
  fold_left (fun min ep => if str_lt (date ep) min then date ep else min)
            (episodes db) (firstDate db).

Definition latest (db : HPRDataLoader) : str :=
  fold_left (fun max ep => if str_gt (date ep) max then date ep else max)
            (episodes db) (firstDate db).

(** The part of the result of [getStats] that is computed from the corpus
    modelled here. *)
Record Stats := mkStats {
  totalEpisodes : Z;
  totalHosts : Z;
  totalTranscripts : Z;
  dateRange : str * str
}.

Definition getStats (db : HPRDataLoader) : Stats :=
  mkStats (Z.of_nat (length (episodes db)))
          (Z.of_nat (length (hosts db)))
          (Z.of_nat (length (transcripts db)))
          (earliest db, latest db).

(** The host of the tool [get_host_info]: by [hostId] when it is given and
    not 0, else the first result of [searchHosts] for [hostName] when that is
    given and not empty. *)
Definition firstFound (db : HPRDataLoader) (hostName : option str)
  : option Host :=
  if truthyStr hostName then
    option_map hm_host
      (hd_error (searchHosts db (match hostName with Some n => n | None => [] end)
                             defaultHostMaxDistance))
  else None.

Definition resolveHost (db : HPRDataLoader) (hostId : option Z)
  (hostName : option str) : option Host :=
  match hostId with
  | Some h => if negb (h =? 0) then getHost db h else firstFound db hostName
  | None => firstFound db hostName
  end.

End Lookups.

(* ================================================================== *)
(** ** The transcript scan, line by line *)
(* ================================================================== *)

Module Reading.

Import JS Lev Search Transcripts.
Local Open Scope Z_scope.

(** The lines of [rest] with their indices, the first of which is [from]. *)
Definition numbered (from : nat) (rest : list str) : list (nat * str) :=
  combine (seq from (length rest)) rest.

(** The entry pushed on [matches] for the line [snd p] found at index
    [fst p] of [lines]. *)
Definition matchAt (o : Options) (ms : list Matcher) (lines : list str)
  (p : nat * str) : TranscriptMatch :=
  mkMatch (Z.of_nat (fst p) + 1)
          (fold_left setAdd (termsOn ms (snd p)) [])
          (join [LF]
             (slice lines
                (Z.max 0 (Z.of_nat (fst p) - contextLines o))
                (Z.min (Z.of_nat (length lines))
                       (Z.of_nat (fst p) + contextLines o + 1)))).

(** The entries for all the lines of [rest] on which some pattern matches,
    were there no cap. *)
Definition allMatches (o : Options) (ms : list Matcher) (lines : list str)
  (from : nat) (rest : list str) : list TranscriptMatch :=
  map (matchAt o ms lines)
      (filter (fun p => lineMatches ms (snd p)) (numbered from rest)).

(** How many times a pattern with the term [t] matches a line of [lines]:
    a pattern counts once for a line, however often it occurs on it, and two
    patterns with the same term count separately. *)
Definition hits (ms : list Matcher) (t : str) (lines : list str) : nat :=
  length (filter (str_eqb t) (concat (map (termsOn ms) lines))).

(** The counter of a term after [n] more hits: [(get(t) || 0) + 1], [n]
    times. *)
Definition bumped (c : option Z) (n : nat) : option Z :=
  match n with
  | O => c
  | S _ => Some (match c with Some x => x | None => 0 end + Z.of_nat n)
  end.

(** The options with the host filter taken out. *)
Definition withoutHost (o : Options) : Options :=
  mkOptions (limit o) (contextLines o) (terms o) (matchMode o) None None
            (caseSensitive o) (wholeWord o) (maxMatchesPerEpisode o).

End Reading.

(* ================================================================== *)
(** ** The HTTP server: admission and sessions *)
(* ================================================================== *)

Module Server.

Import Breaker JS Search.
Local Open Scope Z_scope.

Definition MAX_CONCURRENT_REQUESTS : Z := 10.
Definition MEMORY_THRESHOLD_MB : Z := 450.

Definition atCapacity : string :=
  "Server at capacity. Please try again later.".

Definition highLoad : string :=
  "Server under high load. Please try again later.".

(** [checkConcurrency()]: the message of the error thrown, if one is. *)
Definition checkConcurrency (activeRequests : Z) : option string :=
  if MAX_CONCURRENT_REQUESTS <=? activeRequests then Some atCapacity else None.

(** The bytes of a megabyte.  [heapUsed] is a number of bytes, and dividing
    it by 1024 twice is exact in floating point, as is the product
    [MEMORY_THRESHOLD_MB * 0.8], which is 360: the two comparisons of
    [checkMemory] are comparisons of integers. *)
Definition MB : Z := 1024 * 1024.

(** [checkMemory()] when [process.memoryUsage().heapUsed] is [heapUsed]:
    the value of [memoryWarning] afterwards and the message of the error
    thrown, if one is. *)
Definition checkMemory (heapUsed : Z) (memoryWarning : bool)
  : bool * option string :=
  if MEMORY_THRESHOLD_MB * MB <? heapUsed then (true, Some highLoad)
  else if memoryWarning && (10 * heapUsed <? 8 * (MEMORY_THRESHOLD_MB * MB))
  then (false, None)
  else (memoryWarning, None).

Section Sessions.

(** The transports, of which only the identity matters here. *)
Variable Transport : Type.

(** [activeSseTransports]: a [Map] from session ids to transports. *)
Fixpoint registryGet (k : str) (m : list (str * Transport))
  : option Transport :=
  match m with
  | [] => None
  | (k', v) :: m' => if str_eqb k k' then Some v else registryGet k m'
  end.

Fixpoint registrySet (k : str) (v : Transport) (m : list (str * Transport))
  : list (str * Transport) :=
  match m with
  | [] => [(k, v)]
  | (k', v') :: m' =>
      if str_eqb k k' then (k', v) :: m' else (k', v') :: registrySet k v m'
  end.

Definition registryDelete (k : str) (m : list (str * Transport))
  : list (str * Transport) :=
  filter (fun e => negb (str_eqb k (fst e))) m.

(** The variables of the module that the handlers read and write. *)
Record Server := mkServer {
  activeRequests : Z;
  memoryWarning : bool;
  circuitBreaker : CircuitBreaker;
  activeSseTransports : list (str * Transport)
}.

(** What the client of [GET /sse] gets: the event stream, or an error with
    its message (as a 503 reply or as an [error] event, which is not told
    apart here). *)
Inductive Reply :=
| Streaming
| Refused (message : string).

(** The [catch] arm of the handler of [GET /sse]; [registered] is the session
    id of [transport] when that variable has been assigned. *)
Definition sseFailed (srv : Server) (registered : option str)
  (message : string) : Server * Reply :=
  (mkServer (activeRequests srv - 1) (memoryWarning srv) (circuitBreaker srv)
            (match registered with
             | Some sessionId =>
                 registryDelete sessionId (activeSseTransports srv)
             | None => activeSseTransports srv
             end),
   Refused message).

Variable World : Type.
Variable dateNow : World -> Z.
Variable Value : Type.

(** The handler of [GET /sse], from the request to the moment the awaited
    [circuitBreaker.execute] has settled, no other request being handled in
    between.  [heapUsed] is the reading of the heap, [sessionId] the id of
    the transport that [new SSEServerTransport] makes, [connect] the
    operation [() => mcpServer.connect(transport)]. *)
Definition sse (heapUsed : Z) (sessionId : str) (transport : Transport)
  (connect : Operation World Value) (srv : Server) (w : World)
  : Server * Reply * World :=
  let (warning, thrown) := checkMemory heapUsed (memoryWarning srv) in
  let srv0 := mkServer (activeRequests srv) warning (circuitBreaker srv)
                       (activeSseTransports srv) in
  match thrown with
  | Some e => (sseFailed srv0 None e, w)
  | None =>
      match checkConcurrency (activeRequests srv0) with
      | Some e => (sseFailed srv0 None e, w)
      | None =>
          let srv1 :=
            mkServer (activeRequests srv0 + 1) warning (circuitBreaker srv0)
                     (registrySet sessionId transport
                                  (activeSseTransports srv0)) in
          let '(cb, r, w1) := execute dateNow (circuitBreaker srv1) connect w in
          let srv2 := mkServer (activeRequests srv1) (memoryWarning srv1) cb
                               (activeSseTransports srv1) in
          match r with
          | Rejected _ e => (sseFailed srv2 (Some sessionId) e, w1)
          | Fulfilled _ => (srv2, Streaming, w1)
          end
      end
  end.

(** The listener of the [close] event of a connection that was opened. *)
Definition sseClose (sessionId : str) (srv : Server) : Server :=
  mkServer (activeRequests srv - 1) (memoryWarning srv) (circuitBreaker srv)
           (registryDelete sessionId (activeSseTransports srv)).

(** [headerConnectionId || queryConnectionId] *)
Definition connectionId (header query : option str) : option str :=
  if truthyStr header then header else query.

(** Where the handler of [POST /message] sends the message: to a transport,
    or nowhere, with a 404 reply. *)
Inductive Route :=
| ToTransport (t : Transport)
| NotFound.

Definition postMessage (header query : option str) (srv : Server) : Route :=
  match connectionId header query with
  | Some k =>
      match registryGet k (activeSseTransports srv) with
      | Some t => ToTransport t
      | None => NotFound
      end
  | None => NotFound
  end.

End Sessions.

(** The breaker is CLOSED below its threshold and OPEN at or above it. *)
Definition steady (cb : CircuitBreaker) : Prop :=
  0 < threshold cb /\ 0 <= failures cb /\
  ((state cb = CLOSED /\ failures cb < threshold cb) \/
   (state cb = OPEN /\ threshold cb <= failures cb)).

End Server.

(* ================================================================== *)
(** ** Plain text from HTML *)
(* ================================================================== *)

Module Html.

Import JS.

Definition isLt (c : ascii) : bool := Ascii.eqb c "<"%char.
Definition isGt (c : ascii) : bool := Ascii.eqb c ">"%char.

(** [s.replace(/<[^>]*>/g, '')]: a [<] begins a match when a [>] follows
    somewhere, and the match ends at the first one; [inTag] tells that the
    code unit read is inside a match. *)
Fixpoint stripTagsFrom (inTag : bool) (s : str) : str :=
  match s with
  | [] => []
  | c :: s' =>
      if inTag then
        if isGt c then stripTagsFrom false s' else stripTagsFrom true s'
      else if isLt c && existsb isGt s' then stripTagsFrom true s'
      else c :: stripTagsFrom false s'
  end.

Definition stripTags (s : str) : str := stripTagsFrom false s.

(** [s.replace(/pat/g, rep)] for a pattern that is a literal string and not
    empty; [skip] is what is left to pass over of the match being
    replaced. *)
Fixpoint replaceFrom (pat rep : str) (skip : nat) (s : str) : str :=
  match s with
  | [] => []
  | c :: s' =>
      match skip with
      | S k => replaceFrom pat rep k s'
      | O =>
          if startsWith pat s
          then rep ++ replaceFrom pat rep (length pat - 1) s'
          else c :: replaceFrom pat rep 0 s'
      end
  end.

Definition replaceAll (pat rep s : str) : str := replaceFrom pat rep 0 s.

Definition quote : ascii := ascii_of_N 34.

(** [stripHtml(html)] *)
Definition stripHtml (html : str) : str :=
  trim
    (replaceAll (lit "&quot;") [quote]
       (replaceAll (lit "&amp;") (lit "&")
          (replaceAll (lit "&gt;") (lit ">")
             (replaceAll (lit "&lt;") (lit "<")
                (replaceAll (lit "&nbsp;") (lit " ")
                   (stripTags html)))))).

End Html.

(* ================================================================== *)
(** ** The patterns of the transcript search as regular expressions *)
(* ================================================================== *)

Module Regex.

Import JS Transcripts.

Definition backslash : ascii := ascii_of_N 92.

(** The class of [escapeRegExp], [[.*+?^${}()|[\]\\]]. *)
Definition escapedClass : str := lit ".*+?^${}()|[]" ++ [backslash].

Definition inEscapedClass (c : ascii) : bool :=
  existsb (Ascii.eqb c) escapedClass.

(** [escapeRegExp(string)]: every code unit of the class is replaced by a
    backslash and itself. *)
Definition escapeRegExp (s : str) : str :=
  flat_map (fun c => if inEscapedClass c then [backslash; c] else [c]) s.

(** The source of the regular expression made for a term: [escaped], or
    [\b${escaped}\b] when [wholeWord] is set. *)
Definition patternOf (t : str) (wholeWord : bool) : str :=
  let escaped := escapeRegExp t in
  if wholeWord
  then [backslash; "b"%char] ++ escaped ++ [backslash; "b"%char]
  else escaped.

(** *** How a pattern is read *)

(** The syntax characters of the grammar of patterns: the code units that do
    not stand for themselves. *)
Definition syntaxCharacters : str :=
  lit "^$" ++ [backslash] ++ lit ".*+?()[]{}|".

Definition isSyntaxCharacter (c : ascii) : bool :=
  existsb (Ascii.eqb c) syntaxCharacters.

(** The two kinds of term that the patterns made here consist of: a code
    unit to be matched, and the assertion [\b]. *)
Inductive Atom :=
| Character (c : ascii)
| WordBoundary.

(** The reading of a pattern, for the part of the grammar that has no
    operators: a code unit that is not a syntax character stands for itself,
    a backslash before a syntax character makes that character stand for
    itself, and [\b] is the word boundary.  [None] is any other pattern. *)
Fixpoint readPattern (p : str) : option (list Atom) :=
  match p with
  | [] => Some []
  | c :: p' =>
      if Ascii.eqb c backslash then
        match p' with
        | d :: p'' =>
            if isSyntaxCharacter d
            then option_map (cons (Character d)) (readPattern p'')
            else if Ascii.eqb d "b"%char
            then option_map (cons WordBoundary) (readPattern p'')
            else None
        | [] => None
        end
      else if isSyntaxCharacter c then None
      else option_map (cons (Character c)) (readPattern p')
  end.

(** *** How a pattern is matched *)

(** The atoms matched one after the other from a position of the line;
    [prev] is the code unit before the position and [rest] what follows.
    [ic] is the flag [i]. *)
Fixpoint matchAtoms (ic : bool) (atoms : list Atom) (prev : option ascii)
  (rest : str) : bool :=
  match atoms with
  | [] => true
  | Character c :: atoms' =>
      match rest with
      | d :: rest' => sameUnit ic c d && matchAtoms ic atoms' (Some d) rest'
      | [] => false
      end
  | WordBoundary :: atoms' =>
      boundary prev (hd_error rest) && matchAtoms ic atoms' prev rest
  end.

(** The search for a match from the positions of the line in turn. *)
Fixpoint searchAtoms (ic : bool) (atoms : list Atom) (prev : option ascii)
  (line : str) : bool :=
  matchAtoms ic atoms prev line ||
  match line with
  | [] => false
  | c :: line' => searchAtoms ic atoms (Some c) line'
  end.

(** [new RegExp(pattern, flags).test(line)] with [lastIndex] at 0, for a
    pattern of the part of the grammar read above. *)
Definition regexTest (pattern : str) (ic : bool) (line : str) : option bool :=
  option_map (fun atoms => searchAtoms ic atoms None line)
             (readPattern pattern).

End Regex.

(* ================================================================== *)
(** ** The tools of the HTTP server *)
(* ================================================================== *)

Module Tools.

Import JS Lev Search Transcripts.
Local Open Scope Z_scope.

(** [x || d] for an optional whole number [x]. *)
Definition orDefault (x : option Z) (d : Z) : Z :=
  match x with
  | Some v => if v =? 0 then d else v
  | None => d
  end.

(** The arguments of the tool [search_transcripts], the numbers being whole
    numbers. *)
Record SearchTranscriptsArgs := mkSearchTranscriptsArgs {
  arg_query : str;
  arg_limit : option Z;
  arg_contextLines : option Z
}.

(** The options that the handler of [search_transcripts] passes: [limit] and
    [contextLines], all the others being left to their defaults. *)
Definition toolOptions (args : SearchTranscriptsArgs) : Options :=
  mkOptions (orDefault (arg_limit args) 20)
            (orDefault (arg_contextLines args) 3)
            (terms defaultOptions) (matchMode defaultOptions)
            (hostId defaultOptions) (hostName defaultOptions)
            (caseSensitive defaultOptions) (wholeWord defaultOptions)
            (maxMatchesPerEpisode defaultOptions).

(** The results that the handler of [search_transcripts] formats. *)
Definition searchTranscriptsTool (db : HPRDataLoader)
  (args : SearchTranscriptsArgs) : list TranscriptResult :=
  searchTranscripts db (arg_query args) (toolOptions args).

(** A string as a pattern with or without the flag [i] sees it. *)
Definition folded (ic : bool) (s : str) : str :=
  if ic then toLowerCase s else s.

End Tools.

(* ================================================================== *)
(** * Properties *)
(* ================================================================== *)

(** ** The circuit breaker *)

Module BreakerFacts.

Import Breaker.
Local Open Scope Z_scope.

Section Generic.

Variables World Value : Type.
Variable dateNow : World -> Z.


Lemma precheck_not_open (cb : CircuitBreaker) (w : World) :
  state cb <> OPEN -> precheck dateNow cb w = Some cb.
Proof. unfold precheck; destruct (state cb); congruence. Qed.

Lemma precheck_open_early (cb : CircuitBreaker) (w : World) :
  state cb = OPEN -> dateNow w < nextAttempt cb -> precheck dateNow cb w = None.
Proof.
  intros Hs Ht; unfold precheck; rewrite Hs.
  apply Z.ltb_lt in Ht; now rewrite Ht.
Qed.

Lemma precheck_open_due (cb : CircuitBreaker) (w : World) :
  state cb = OPEN -> nextAttempt cb <= dateNow w ->
  precheck dateNow cb w = Some (set_state HALF_OPEN cb).
Proof.
  intros Hs Ht; unfold precheck; rewrite Hs.
  apply Z.ltb_ge in Ht; now rewrite Ht.
Qed.

Lemma execute_let_through (cb cb1 : CircuitBreaker) (fn : Operation World Value) (w : World) :
  precheck dateNow cb w = Some cb1 ->
  execute dateNow cb fn w = (settle dateNow cb1 (fst (fn w)) (snd (fn w)),
                  fst (fn w), snd (fn w)).
Proof.
  intros Ha; unfold execute; rewrite Ha; now destruct (fn w).
Qed.

Lemma execute_turned_away (cb : CircuitBreaker) (fn : Operation World Value) (w : World) :
  precheck dateNow cb w = None ->
  execute dateNow cb fn w = (cb, Rejected Value unavailable, w).
Proof. intros Ha; unfold execute; now rewrite Ha. Qed.

(** What one settled call does to a breaker that let it through. *)
Lemma settle_fulfilled_closed (cb : CircuitBreaker) (v : Value) (w : World) :
  state cb = CLOSED -> settle dateNow cb (Fulfilled v) w = cb.
Proof. intros Hs; simpl; now rewrite Hs. Qed.

Lemma settle_rejected_state (cb : CircuitBreaker) (e : string) (w : World) :
  state (settle dateNow cb (Rejected Value e) w) =
  if threshold cb <=? failures cb + 1 then OPEN else state cb.
Proof. simpl; now destruct (threshold cb <=? failures cb + 1). Qed.

Lemma settle_rejected_failures (cb : CircuitBreaker) (e : string) (w : World) :
  failures (settle dateNow cb (Rejected Value e) w) = failures cb + 1.
Proof. simpl; now destruct (threshold cb <=? failures cb + 1). Qed.

Lemma settle_threshold (cb : CircuitBreaker) (r : Settled Value) (w : World) :
  threshold (settle dateNow cb r w) = threshold cb.
Proof.
  destruct r; simpl.
  - now destruct (state cb).
  - now destruct (threshold cb <=? failures cb + 1).
Qed.

(** Calls that all come before the resume time leave an open breaker and
    the world of the operations alone. *)
Lemma run_all_turned_away (cb : CircuitBreaker) (cs : list (Call World Value))
  (w : World) :
  state cb = OPEN -> allBefore dateNow (nextAttempt cb) cs w ->
  run dateNow cb cs w =
    (cb, map (fun _ => Rejected Value unavailable) cs, elapsed cs w).
Proof.
  intros Hs; revert w; induction cs as [|c rest IH]; intros w Hb; simpl.
  - reflexivity.
  - destruct Hb as [Hnow Hrest].
    rewrite execute_turned_away by now apply precheck_open_early.
    now rewrite IH.
Qed.

Lemma run_app (cb : CircuitBreaker) (cs ds : list (Call World Value)) (w : World) :
  run dateNow cb (cs ++ ds) w =
    let '(cb1, rs, w1) := run dateNow cb cs w in
    let '(cb2, ss, w2) := run dateNow cb1 ds w1 in
    (cb2, rs ++ ss, w2).
Proof.
  revert cb w; induction cs as [|c rest IH]; intros cb w; simpl.
  - now destruct (run dateNow cb ds w) as [[? ?] ?].
  - destruct (execute dateNow cb (fn c) (elapse c w)) as [[cb1 r] w1].
    rewrite IH.
    destruct (run dateNow cb1 rest w1) as [[cb2 rs] w2].
    now destruct (run dateNow cb2 ds w2) as [[? ?] ?].
Qed.

Lemma countRejected_cons (r : Settled Value) (rs : list (Settled Value)) :
  countRejected (r :: rs) =
  (if isRejected r then 1 else 0) + countRejected rs.
Proof.
  unfold countRejected; cbn [filter].
  destruct (isRejected r); cbn [length]; lia.
Qed.

Lemma countRejected_nonneg (rs : list (Settled Value)) : 0 <= countRejected rs.
Proof. unfold countRejected; lia. Qed.

(** While the breaker has not opened, its counter is the number of failed
    calls, whatever successes lie between them. *)
Lemma run_counts_failures (cs : list (Call World Value)) :
  forall (cb : CircuitBreaker) (w : World),
    state cb = CLOSED ->
    let '(cb', rs, _) := run dateNow cb cs w in
    failures cb + countRejected rs < threshold cb ->
    state cb' = CLOSED /\ failures cb' = failures cb + countRejected rs.
Proof.
  induction cs as [|c rest IH]; intros cb w Hs; cbn [run].
  - unfold countRejected; simpl; intros _; split; [assumption | lia].
  - rewrite (@execute_let_through cb cb) by (apply precheck_not_open; congruence).
    set (r := fst (fn c (elapse c w))).
    set (w1 := snd (fn c (elapse c w))).
    specialize (IH (settle dateNow cb r w1) w1).
    destruct (run dateNow (settle dateNow cb r w1) rest w1) as [[cb2 rs] w2].
    rewrite countRejected_cons.
    pose proof (countRejected_nonneg rs) as Hlen.
    destruct r as [v|e]; cbn [isRejected].
    + rewrite settle_fulfilled_closed in IH by assumption.
      intros Hlt; destruct (IH Hs) as [IH1 IH2]; [lia|].
      split; [assumption | lia].
    + rewrite settle_threshold, settle_rejected_failures,
        settle_rejected_state in IH.
      intros Hlt.
      destruct (threshold cb <=? failures cb + 1) eqn:Hth.
      * apply Z.leb_le in Hth; lia.
      * destruct (IH Hs) as [IH1 IH2]; [lia|].
        split; [assumption | lia].
Qed.

End Generic.

(** *** Opening *)

(** C1, as amended.  A breaker that is CLOSED opens at a call exactly when
    that call fails and brings the failure counter to the threshold; the
    counter grows by one at every failed call and is left as it is by a
    successful call made while CLOSED (only a successful HALF_OPEN probe and
    [reset] clear it).  So over any sequence of calls, while the number of
    failed calls stays below the threshold the breaker stays CLOSED and its
    counter is that number, successes in between notwithstanding. *)
Theorem opens_on_accumulated_failures :
  forall (World Value : Type) (dateNow : World -> Z) (cb : CircuitBreaker),
    state cb = CLOSED ->
    (forall (fn : Operation World Value) (w : World),
        let '(cb', r, w') := execute dateNow cb fn w in
        (state cb' = OPEN <->
           isRejected r = true /\ threshold cb <= failures cb + 1) /\
        (isRejected r = true ->
           failures cb' = failures cb + 1 /\
           (state cb' = OPEN -> nextAttempt cb' = dateNow w' + timeout cb)) /\
        (isRejected r = false -> cb' = cb)) /\
    (forall (cs : list (Call World Value)) (w : World),
        let '(cb', rs, _) := run dateNow cb cs w in
        failures cb + countRejected rs < threshold cb ->
        state cb' = CLOSED /\ failures cb' = failures cb + countRejected rs).
Proof.
  intros World Value dateNow cb Hs; split.
  - intros fn w.
    rewrite (@execute_let_through _ _ dateNow cb cb)
      by (apply precheck_not_open; congruence).
    destruct (fn w) as [[v|e] w1]; cbn [fst snd isRejected].
    + rewrite settle_fulfilled_closed by assumption.
      repeat split; try congruence.
      now intros [? _].
    + rewrite settle_rejected_state, settle_rejected_failures.
      destruct (threshold cb <=? failures cb + 1) eqn:Hth.
      * pose proof Hth as Hb; apply Z.leb_le in Hth.
        repeat split; try assumption; try discriminate.
        intros _; cbn. rewrite Hb. reflexivity.
      * apply Z.leb_gt in Hth.
        repeat split; try congruence; try lia; try discriminate.
  - intros cs w. now apply run_counts_failures.
Qed.

(** Four failures and then a success leave the breaker of the server CLOSED
    with four failures counted. *)
Lemma opens_on_accumulated_failures_witness :
  state (newBreaker 5 60000 0) = CLOSED /\
  let cb' := fst (fst (run clock (newBreaker 5 60000 0)
                         (replay [true; true; true; true; false])
                         (mkProbe 0 0))) in
  state cb' = CLOSED /\ failures cb' = 4.
Proof.
  split; [reflexivity|].
  pose proof (proj2 (@opens_on_accumulated_failures Probe nat clock
                       (newBreaker 5 60000 0) eq_refl)
                (replay [true; true; true; true; false]) (mkProbe 0 0)) as H.
  destruct (run clock (newBreaker 5 60000 0)
              (replay [true; true; true; true; false]) (mkProbe 0 0))
    as [[cb' rs] w'] eqn:E.
  vm_compute in E. injection E as <- <- <-.
  apply H. vm_compute. reflexivity.
Defined.

(** C1, as stated, fails: with the default threshold, four failures, a
    success and one more failure open the circuit, though only one failure
    has occurred since the last successful call. *)
Lemma success_does_not_reset_streak :
  let outcomes := [true; true; true; true; false; true] in
  let before := fst (fst (run clock (newBreaker CIRCUIT_BREAKER_THRESHOLD
                                       CIRCUIT_BREAKER_TIMEOUT_MS 0)
                            (replay (removelast outcomes)) (mkProbe 0 0))) in
  let afterwards := fst (fst (run clock (newBreaker CIRCUIT_BREAKER_THRESHOLD
                                           CIRCUIT_BREAKER_TIMEOUT_MS 0)
                                (replay outcomes) (mkProbe 0 0))) in
  streak (rev outcomes) = 1 /\
  state before = CLOSED /\
  state afterwards = OPEN /\
  failures afterwards = 5.
Proof. vm_compute. repeat split. Qed.

(** *** The open state *)

(** C2.  While the breaker is OPEN, a call made before [nextAttempt] is
    answered with the "temporarily unavailable" error, and neither the
    breaker nor the world has changed: the answer does not depend on the
    wrapped operation, which is not run.  A call made at or after
    [nextAttempt] finds the state moved to HALF_OPEN before the operation is
    run, and the operation is run; this is in particular so for the first
    such call after any number of calls turned away.  If the operation of
    the probing call succeeds the breaker is CLOSED with no failure
    counted. *)
Theorem open_breaker_gate :
  forall (World Value : Type) (dateNow : World -> Z) (cb : CircuitBreaker),
    state cb = OPEN ->
    (forall (fn : Operation World Value) (w : World),
        dateNow w < nextAttempt cb ->
        execute dateNow cb fn w = (cb, Rejected Value unavailable, w)) /\
    (forall (fn : Operation World Value) (w : World),
        nextAttempt cb <= dateNow w ->
        precheck dateNow cb w = Some (set_state HALF_OPEN cb) /\
        execute dateNow cb fn w =
          (settle dateNow (set_state HALF_OPEN cb) (fst (fn w)) (snd (fn w)),
           fst (fn w), snd (fn w))) /\
    (forall (early : list (Call World Value)) (c : Call World Value) (w : World),
        allBefore dateNow (nextAttempt cb) early w ->
        nextAttempt cb <= dateNow (elapse c (elapsed early w)) ->
        let w0 := elapse c (elapsed early w) in
        run dateNow cb (early ++ [c]) w =
          (settle dateNow (set_state HALF_OPEN cb)
                  (fst (fn c w0)) (snd (fn c w0)),
           map (fun _ => Rejected Value unavailable) early ++ [fst (fn c w0)],
           snd (fn c w0))) /\
    (forall (v : Value) (w : World),
        let cb' := settle dateNow (set_state HALF_OPEN cb) (Fulfilled v) w in
        state cb' = CLOSED /\ failures cb' = 0).
Proof.
  intros World Value dateNow cb Hs; repeat split.
  - intros fn w Ht.
    now rewrite execute_turned_away by now apply precheck_open_early.
  - now apply precheck_open_due.
  - now rewrite (@execute_let_through _ _ dateNow cb (set_state HALF_OPEN cb))
      by now apply precheck_open_due.
  - intros early c w Hb Ht w0.
    rewrite run_app, run_all_turned_away by assumption.
    cbn [run].
    now rewrite (@execute_let_through _ _ dateNow cb (set_state HALF_OPEN cb))
      by now apply precheck_open_due.
Qed.

(** A breaker opened at time 40 with the default cool-down: two calls within
    the minute are turned away with no operation run, the call after the
    minute runs its operation and closes the breaker. *)
Lemma open_breaker_gate_witness :
  let cb := mkBreaker 5 5 60000 OPEN 60040 in
  state cb = OPEN /\
  run clock cb [after 10 (succeeding 1%nat); after 10 (succeeding 2%nat);
                after 60000 (succeeding 3%nat)] (mkProbe 50 0) =
    (mkBreaker 0 5 60000 CLOSED 60040,
     [Rejected nat unavailable; Rejected nat unavailable; Fulfilled 3%nat],
     mkProbe 60071 1).
Proof.
  split; [reflexivity|].
  refine (eq_trans
    (proj1 (proj2 (proj2 (@open_breaker_gate Probe nat clock
                            (mkBreaker 5 5 60000 OPEN 60040) eq_refl)))
       [after 10 (succeeding 1%nat); after 10 (succeeding 2%nat)]
       (after 60000 (succeeding 3%nat)) (mkProbe 50 0) _ _) _).
  - cbn; lia.
  - cbn; lia.
  - reflexivity.
Defined.

(** *** Manual reset *)

(** C3, as amended.  [reset] leaves any breaker CLOSED with no failure
    counted.  The [/reset] endpoint calls it when the breaker is OPEN,
    whatever the failure count; when the breaker is CLOSED the endpoint
    changes nothing, so a failure count that is not zero is kept. *)
Theorem manual_reset :
  forall cb : CircuitBreaker,
    (state (reset cb) = CLOSED /\ failures (reset cb) = 0 /\
     threshold (reset cb) = threshold cb /\ timeout (reset cb) = timeout cb) /\
    (state cb = OPEN ->
       postReset cb = (reset cb, "Circuit breaker reset to CLOSED."%string)) /\
    (state cb = CLOSED ->
       postReset cb = (cb, "Circuit breaker already CLOSED."%string)).
Proof.
  intros cb; repeat split; unfold postReset; intros ->; reflexivity.
Qed.

Lemma manual_reset_witness :
  let cb := mkBreaker 7 5 60000 OPEN 60040 in
  state cb = OPEN /\
  postReset cb = (mkBreaker 0 5 60000 CLOSED 60040,
                  "Circuit breaker reset to CLOSED."%string).
Proof.
  split; [reflexivity|].
  exact (proj1 (proj2 (manual_reset (mkBreaker 7 5 60000 OPEN 60040))) eq_refl).
Defined.

(** C3, as stated, fails: after three failed calls the breaker is CLOSED with
    three failures counted, and the endpoint leaves the count at three. *)
Lemma reset_endpoint_keeps_count :
  let cb := fst (fst (run clock (newBreaker 5 60000 0)
                        (replay [true; true; true]) (mkProbe 0 0))) in
  state cb = CLOSED /\
  failures cb = 3 /\
  fst (postReset cb) = cb /\
  failures (fst (postReset cb)) <> 0.
Proof. vm_compute. repeat split. discriminate. Qed.

End BreakerFacts.

(** ** Levenshtein distance *)

Module LevFacts.

Import JS Lev.

(** *** The recurrence *)

Lemma lev_nil_l (y : str) : lev [] y = length y.
Proof. now destruct y. Qed.

Lemma lev_nil_r (x : str) : lev x [] = length x.
Proof. now destruct x. Qed.

Lemma lev_cons (c d : ascii) (x y : str) :
  lev (c :: x) (d :: y) =
  if Ascii.eqb c d then lev x y
  else S (Nat.min (Nat.min (lev x y) (lev x (d :: y))) (lev (c :: x) y)).
Proof. reflexivity. Qed.

(** *** Reading and writing the matrix *)

Lemma rowSet_length (row : list nat) (j v : nat) :
  j <= length row -> length (rowSet row j v) = Nat.max (length row) (S j).
Proof.
  intros Hj; unfold rowSet.
  rewrite length_app, firstn_length_le by assumption.
  cbn [length]; rewrite length_skipn; lia.
Qed.

Lemma nth_rowSet_same (row : list nat) (j v : nat) :
  j <= length row -> nth j (rowSet row j v) 0 = v.
Proof.
  intros Hj; unfold rowSet.
  rewrite app_nth2; rewrite firstn_length_le by assumption; [|lia].
  now rewrite Nat.sub_diag.
Qed.

Lemma nth_rowSet_other (row : list nat) (j j' v : nat) :
  j' <> j -> j <= length row -> nth j' (rowSet row j v) 0 = nth j' row 0.
Proof.
  intros Hne Hj; unfold rowSet.
  destruct (Nat.lt_ge_cases j' j) as [Hlt|Hge].
  - rewrite app_nth1 by (rewrite firstn_length_le; lia).
    now rewrite nth_firstn, (proj2 (Nat.ltb_lt _ _) Hlt).
  - rewrite app_nth2; rewrite firstn_length_le by assumption; [|lia].
    destruct (j' - j) as [|k] eqn:Hk; [lia|].
    cbn [nth]; rewrite nth_skipn; f_equal; lia.
Qed.

Lemma mset_length (m : Matrix) (i j v : nat) :
  i < length m -> length (mset m i j v) = length m.
Proof.
  intros Hi; unfold mset.
  rewrite length_app, firstn_length_le by lia.
  cbn [length]; rewrite length_skipn; lia.
Qed.

Lemma nth_mset_same (m : Matrix) (i j v : nat) :
  i < length m -> nth i (mset m i j v) [] = rowSet (nth i m []) j v.
Proof.
  intros Hi; unfold mset.
  rewrite app_nth2; rewrite firstn_length_le by lia; [|lia].
  now rewrite Nat.sub_diag.
Qed.

Lemma nth_mset_other (m : Matrix) (i i' j v : nat) :
  i' <> i -> i < length m -> nth i' (mset m i j v) [] = nth i' m [].
Proof.
  intros Hne Hi; unfold mset.
  destruct (Nat.lt_ge_cases i' i) as [Hlt|Hge].
  - rewrite app_nth1 by (rewrite firstn_length_le; lia).
    now rewrite nth_firstn, (proj2 (Nat.ltb_lt _ _) Hlt).
  - rewrite app_nth2; rewrite firstn_length_le by lia; [|lia].
    destruct (i' - i) as [|k] eqn:Hk; [lia|].
    cbn [nth]; rewrite nth_skipn; f_equal; lia.
Qed.

(** A loop over a range of indices keeps an invariant indexed by the next
    index to visit. *)
Lemma fold_seq_invariant (M : Type) (f : M -> nat -> M) (P : nat -> M -> Prop) :
  forall (len start : nat) (m : M),
    P start m ->
    (forall k m', start <= k < start + len -> P k m' -> P (S k) (f m' k)) ->
    P (start + len) (fold_left f (seq start len) m).
Proof.
  induction len as [|len IH]; intros start m H0 Hstep; cbn [seq fold_left].
  - now rewrite Nat.add_0_r.
  - rewrite <- Nat.add_succ_comm.
    apply IH.
    + apply Hstep; [lia | assumption].
    + intros k m' Hk; apply Hstep; lia.
Qed.

(** *** The matrix tabulates the recurrence on prefixes *)

Section Tabulation.

Variables a b : str.

Lemma rev_firstn_S (s : str) (k : nat) (c : ascii) :
nth_error s k = Some c -> rev (firstn (S k) s) = c :: rev (firstn k s).
Proof.
revert k; induction s as [|d s IH]; intros [|k] H; try discriminate.
- injection H as ->. reflexivity.
- cbn [nth_error] in H. rewrite firstn_cons, (firstn_cons k).
  cbn [rev]. rewrite (IH k H). reflexivity.
Qed.

Lemma entry_0_r (i : nat) : i <= length b -> entry a b i 0 = i.
Proof.
intros Hi; unfold entry; rewrite firstn_0; cbn [rev].
now rewrite lev_nil_l, length_rev, firstn_length_le.
Qed.

Lemma entry_0_l (j : nat) : j <= length a -> entry a b 0 j = j.
Proof.
intros Hj; unfold entry; rewrite firstn_0; cbn [rev].
now rewrite lev_nil_r, length_rev, firstn_length_le.
Qed.

Lemma entry_S (i j : nat) (c d : ascii) :
nth_error a j = Some c -> nth_error b i = Some d ->
entry a b (S i) (S j) =
if Ascii.eqb c d then entry a b i j
else S (Nat.min (Nat.min (entry a b i j) (entry a b (S i) j)) (entry a b i (S j))).
Proof.
intros Ha Hb; unfold entry.
now rewrite (rev_firstn_S a j Ha), (rev_firstn_S b i Hb), lev_cons.
Qed.

Lemma entry_full : entry a b (length b) (length a) = lev (rev a) (rev b).
Proof. unfold entry; now rewrite !firstn_all. Qed.

(** The first loop. *)
Lemma initColumn_tabulated : tabulated a b 0 0 (initColumn (length b)).
Proof.
unfold tabulated, initColumn; split.
- now rewrite length_map, length_seq.
- intros i' Hi'.
  assert (Hrow : nth i' (map (fun i => [i]) (seq 0 (S (length b)))) [] = [i']).
  { rewrite (nth_indep _ [] [0]) by (rewrite length_map, length_seq; lia).
    rewrite (map_nth (fun i => [i])), seq_nth by lia. reflexivity. }
  unfold mget; rewrite Hrow; split.
  + unfold width; destruct i'; reflexivity.
  + intros j' Hj'.
    assert (j' = 0) by (unfold width in Hj'; destruct i'; cbn in Hj'; lia).
    subst j'; cbn [nth]. now rewrite entry_0_r.
Qed.

(** Writing the next entry of the row the loops stand at. *)
Lemma tabulated_set (i j v : nat) (m : Matrix) :
tabulated a b i j m -> i <= length b -> v = entry a b i (S j) ->
tabulated a b i (S j) (mset m i (S j) v).
Proof.
intros [Hlen Hrows] Hi ->; split.
- rewrite mset_length; lia.
- intros i' Hi'.
  destruct (Hrows i' Hi') as [Hw Hv].
  destruct (Nat.eq_dec i' i) as [->|Hne].
  + unfold mget; rewrite nth_mset_same by lia.
    unfold width in *; rewrite Nat.ltb_irrefl, Nat.eqb_refl in *.
    split.
    * rewrite rowSet_length; lia.
    * intros j' Hj'.
      destruct (Nat.eq_dec j' (S j)) as [->|Hne'].
      -- rewrite nth_rowSet_same; [reflexivity | lia].
      -- rewrite nth_rowSet_other by lia. apply Hv; lia.
  + unfold mget; rewrite nth_mset_other by lia.
    assert (Hsame : width a i (S j) i' = width a i j i').
    { unfold width. destruct (i' <? i); [reflexivity|].
      now rewrite (proj2 (Nat.eqb_neq i' i) Hne). }
    rewrite Hsame; split; [assumption | exact Hv].
Qed.

(** Writing again an entry that is there. *)
Lemma tabulated_rewrite (i j v : nat) (m : Matrix) :
tabulated a b i j m -> i <= length b -> v = entry a b i j ->
tabulated a b i j (mset m i j v).
Proof.
intros [Hlen Hrows] Hi ->; split.
- rewrite mset_length; lia.
- intros i' Hi'.
  destruct (Hrows i' Hi') as [Hw Hv].
  destruct (Nat.eq_dec i' i) as [->|Hne].
  + unfold mget; rewrite nth_mset_same by lia.
    unfold width in *; rewrite Nat.ltb_irrefl, Nat.eqb_refl in *.
    split.
    * rewrite rowSet_length; lia.
    * intros j' Hj'.
      destruct (Nat.eq_dec j' j) as [->|Hne'].
      -- rewrite nth_rowSet_same; [reflexivity | lia].
      -- rewrite nth_rowSet_other by lia. apply Hv; lia.
  + unfold mget; rewrite nth_mset_other by lia.
    split; [assumption | exact Hv].
Qed.

(** A full row is the start of the next one. *)
Lemma tabulated_next_row (i : nat) (m : Matrix) :
tabulated a b i (length a) m -> tabulated a b (S i) 0 m.
Proof.
intros [Hlen Hrows]; split; [assumption|].
intros i' Hi'.
assert (Hsame : width a (S i) 0 i' = width a i (length a) i').
{ unfold width.
  destruct (Nat.lt_trichotomy i' i) as [H|[->|H]].
  - now rewrite (proj2 (Nat.ltb_lt _ _) H),
      (proj2 (Nat.ltb_lt i' (S i)) (Nat.lt_lt_succ_r _ _ H)).
  - rewrite Nat.ltb_irrefl, Nat.eqb_refl.
    now rewrite (proj2 (Nat.ltb_lt i (S i)) (Nat.lt_succ_diag_r i)).
  - rewrite (proj2 (Nat.ltb_ge i' i)) by lia.
    rewrite (proj2 (Nat.eqb_neq i' i)) by lia.
    destruct (Nat.eq_dec i' (S i)) as [->|Hne].
    + now rewrite Nat.ltb_irrefl, Nat.eqb_refl.
    + rewrite (proj2 (Nat.ltb_ge i' (S i))) by lia.
      now rewrite (proj2 (Nat.eqb_neq i' (S i))) by lia. }
rewrite Hsame; now apply Hrows.
Qed.

(** The second loop. *)
Lemma initRow_tabulated (m : Matrix) :
tabulated a b 0 0 m -> tabulated a b 0 (length a) (initRow (length a) m).
Proof.
intros H0; unfold initRow; cbn [seq fold_left].
assert (HH := @fold_seq_invariant Matrix (fun m j => mset m 0 j j)
                (fun k m => tabulated a b 0 (k - 1) m) (length a) 1
                (mset m 0 0 0)).
cbn beta in HH.
replace (1 + length a - 1) with (length a) in HH by lia.
apply HH; clear HH.
- change (1 - 1) with 0. apply tabulated_rewrite; [assumption | lia | now rewrite entry_0_l by lia].
- intros k m' Hk Hm'.
  destruct k as [|k]; [lia|].
  replace (S k - 1) with k in Hm' by lia.
  replace (S (S k) - 1) with (S k) by lia.
  apply tabulated_set; [assumption | lia | rewrite entry_0_l; lia].
Qed.

(** The body of the inner loop computes the entry it writes. *)
Lemma cell_entry (i j : nat) (m : Matrix) :
tabulated a b (S i) j m -> i < length b -> j < length a ->
cell a b m (S i) (S j) = entry a b (S i) (S j).
Proof.
intros [Hlen Hrows] Hi Hj.
destruct (nth_error a j) as [c|] eqn:Ha;
  [|apply nth_error_None in Ha; lia].
destruct (nth_error b i) as [d|] eqn:Hb;
  [|apply nth_error_None in Hb; lia].
rewrite (entry_S _ _ Ha Hb).
unfold cell, charAt.
replace (S i - 1) with i by lia; replace (S j - 1) with j by lia.
rewrite Ha, Hb; cbn [sameChar].
assert (Hij : mget m i j = entry a b i j).
{ apply Hrows; [lia|]. unfold width.
  rewrite (proj2 (Nat.ltb_lt i (S i))); lia. }
assert (HSij : mget m (S i) j = entry a b (S i) j).
{ apply Hrows; [lia|]. unfold width.
  rewrite Nat.ltb_irrefl, Nat.eqb_refl; lia. }
assert (HiSj : mget m i (S j) = entry a b i (S j)).
{ apply Hrows; [lia|]. unfold width.
  rewrite (proj2 (Nat.ltb_lt i (S i))); lia. }
rewrite Hij, HSij, HiSj, Ascii.eqb_sym.
destruct (Ascii.eqb c d); [reflexivity | lia].
Qed.

(** The inner loop. *)
Lemma fillRow_tabulated (i : nat) (m : Matrix) :
tabulated a b (S i) 0 m -> i < length b ->
tabulated a b (S i) (length a) (fillRow a b m (S i)).
Proof.
intros H0 Hi; unfold fillRow.
assert (HH := @fold_seq_invariant Matrix
                (fun m j => mset m (S i) j (cell a b m (S i) j))
                (fun k m => tabulated a b (S i) (k - 1) m) (length a) 1 m).
cbn beta in HH.
replace (1 + length a - 1) with (length a) in HH by lia.
apply HH; clear HH.
- exact H0.
- intros k m' Hk Hm'.
  destruct k as [|k]; [lia|].
  replace (S k - 1) with k in Hm' by lia.
  replace (S (S k) - 1) with (S k) by lia.
  apply tabulated_set; [assumption | lia |].
  apply cell_entry; [assumption | lia | lia].
Qed.

(** The outer loop. *)
Lemma fill_tabulated (m : Matrix) :
tabulated a b 0 (length a) m ->
tabulated a b (length b) (length a) (fill a b m).
Proof.
intros H0; unfold fill.
assert (HH := @fold_seq_invariant Matrix (fillRow a b)
                (fun k m => tabulated a b (k - 1) (length a) m) (length b) 1 m).
cbn beta in HH.
replace (1 + length b - 1) with (length b) in HH by lia.
apply HH; clear HH.
- exact H0.
- intros k m' Hk Hm'.
  destruct k as [|k]; [lia|].
  replace (S k - 1) with k in Hm' by lia.
  replace (S (S k) - 1) with (S k) by lia.
  apply fillRow_tabulated; [|lia].
  now apply tabulated_next_row.
Qed.

(** The function computes the recurrence on the two strings reversed. *)
Lemma levenshteinDistance_lev :
levenshteinDistance a b = lev (rev a) (rev b).
Proof.
unfold levenshteinDistance.
destruct (length a =? 0) eqn:Ha.
- apply Nat.eqb_eq, length_zero_iff_nil in Ha; subst a.
  cbn [rev]; now rewrite lev_nil_l, length_rev.
- destruct (length b =? 0) eqn:Hb.
  + apply Nat.eqb_eq, length_zero_iff_nil in Hb; subst b.
    cbn [rev]; now rewrite lev_nil_r, length_rev.
  + pose proof (fill_tabulated (initRow_tabulated initColumn_tabulated))
      as [_ Hrows].
    rewrite <- entry_full.
    apply Hrows; [lia|].
    unfold width; rewrite Nat.ltb_irrefl, Nat.eqb_refl; lia.
Qed.

End Tabulation.

(** *** The recurrence is a metric for single edits *)

Lemma lev_sym (x y : str) : lev x y = lev y x.
Proof.
  revert y; induction x as [|c x IHx]; intros y.
  - now rewrite lev_nil_l, lev_nil_r.
  - induction y as [|d y IHy].
    + reflexivity.
    + rewrite !lev_cons, (Ascii.eqb_sym d c), IHx, IHy, (IHx (d :: y)).
      destruct (Ascii.eqb c d); [reflexivity | lia].
Qed.

Lemma lev_refl (x : str) : lev x x = 0.
Proof.
  induction x as [|c x IH]; [reflexivity|].
  now rewrite lev_cons, Ascii.eqb_refl.
Qed.

(** A code unit more or less at the head of the first string moves the
    value by one at most. *)
Lemma lev_head_bounds (n : nat) :
  forall (x y : str), length x + length y <= n ->
    forall c : ascii,
      lev (c :: x) y <= S (lev x y) /\ lev x y <= S (lev (c :: x) y).
Proof.
  induction n as [|n IH]; intros x y Hn c.
  - destruct x, y; cbn in Hn; try lia. cbn; lia.
  - destruct y as [|d y].
    + rewrite !lev_nil_r; cbn [length]; lia.
    + cbn [length] in Hn.
      assert (Hxy : length x + length y <= n) by lia.
      assert (Hyx : length y + length x <= n) by lia.
      (* the same bounds for a code unit at the head of the second string *)
      assert (Hd1 : lev x (d :: y) <= S (lev x y)).
      { rewrite (lev_sym x (d :: y)), (lev_sym x y). now apply IH. }
      assert (Hd2 : lev x y <= S (lev x (d :: y))).
      { rewrite (lev_sym x (d :: y)), (lev_sym x y). now apply IH. }
      destruct (IH x y Hxy c) as [Hc1 Hc2].
      rewrite lev_cons.
      destruct (Ascii.eqb c d); lia.
Qed.

Lemma lev_insert_head (c : ascii) (x y : str) :
  lev (c :: x) y <= S (lev x y).
Proof. now apply (lev_head_bounds (n := length x + length y)). Qed.

Lemma lev_delete_head (c : ascii) (x y : str) :
  lev x y <= S (lev (c :: x) y).
Proof. now apply (lev_head_bounds (n := length x + length y)). Qed.

Lemma lev_cons_le (c d : ascii) (x y : str) :
  lev (c :: x) (d :: y) <= S (lev x y).
Proof. rewrite lev_cons; destruct (Ascii.eqb c d); lia. Qed.

Lemma lev_subst_head (c d : ascii) (x y : str) :
  lev (d :: x) y <= S (lev (c :: x) y).
Proof.
  induction y as [|e y IH].
  - rewrite !lev_nil_r; cbn [length]; lia.
  - pose proof (lev_cons_le d e x y) as H1.
    pose proof (lev_insert_head d x (e :: y)) as H2.
    assert (H3 : lev (d :: x) (e :: y) <= S (lev (d :: x) y)).
    { rewrite (lev_sym (d :: x) (e :: y)), (lev_sym (d :: x) y).
      apply lev_insert_head. }
    rewrite (lev_cons c e).
    destruct (Ascii.eqb c e); lia.
Qed.

(** Bounds of this kind pass under a common head. *)
Lemma lev_bound_cons (c : ascii) (u u' : str) :
  (forall y, lev u' y <= S (lev u y)) ->
  forall y, lev (c :: u') y <= S (lev (c :: u) y).
Proof.
  intros H y; induction y as [|e y IH].
  - specialize (H []); rewrite !lev_nil_r in *; cbn [length]; lia.
  - rewrite !lev_cons.
    pose proof (H y); pose proof (H (e :: y)).
    destruct (Ascii.eqb c e); lia.
Qed.

Lemma edit1_lev (x x' : str) :
  edit1 x x' -> forall y, lev x' y <= S (lev x y).
Proof.
  intros [c l r|c l r|c d l r]; induction l as [|e l IH]; cbn [app]; intros y.
  - apply lev_insert_head.
  - now apply lev_bound_cons.
  - apply lev_delete_head.
  - now apply lev_bound_cons.
  - apply lev_subst_head.
  - now apply lev_bound_cons.
Qed.

(** *** Edit sequences *)

Lemma edit1_sym (x y : str) : edit1 x y -> edit1 y x.
Proof. intros [c l r|c l r|c d l r]; constructor. Qed.

Lemma edit1_cons (c : ascii) (x y : str) : edit1 x y -> edit1 (c :: x) (c :: y).
Proof.
  intros [e l r|e l r|e d l r].
  - apply (edit_insert e (c :: l) r).
  - apply (edit_delete e (c :: l) r).
  - apply (edit_subst e d (c :: l) r).
Qed.

Lemma edit1_rev (x y : str) : edit1 x y -> edit1 (rev x) (rev y).
Proof.
  intros [c l r|c l r|c d l r]; rewrite !rev_app_distr; cbn [rev];
    rewrite <- ?app_assoc; cbn [app]; constructor.
Qed.

Lemma edits_cons (c : ascii) (n : nat) (x y : str) :
  edits n x y -> edits n (c :: x) (c :: y).
Proof.
  induction 1 as [x|n x y z Hxy _ IH]; [constructor|].
  apply edits_step with (c :: y); [now apply edit1_cons | assumption].
Qed.

Lemma edits_rev (n : nat) (x y : str) :
  edits n x y -> edits n (rev x) (rev y).
Proof.
  induction 1 as [x|n x y z Hxy _ IH]; [constructor|].
  apply edits_step with (rev y); [now apply edit1_rev | assumption].
Qed.

Lemma edits_insert_all (y : str) : edits (length y) [] y.
Proof.
  induction y as [|d y IH]; [constructor|].
  apply edits_step with [d].
  - apply (edit_insert d [] []).
  - now apply edits_cons.
Qed.

Lemma edits_delete_all (x : str) : edits (length x) x [].
Proof.
  induction x as [|c x IH]; [constructor|].
  apply edits_step with x; [apply (edit_delete c [] x) | assumption].
Qed.

(** The recurrence is reached by a sequence of edits... *)
Lemma lev_reached (x y : str) : edits (lev x y) x y.
Proof.
  revert y; induction x as [|c x IHx]; intros y.
  - rewrite lev_nil_l; apply edits_insert_all.
  - induction y as [|d y IHy].
    + rewrite lev_nil_r; apply edits_delete_all.
    + rewrite lev_cons; destruct (Ascii.eqb c d) eqn:Hcd.
      * apply Ascii.eqb_eq in Hcd; subst d. now apply edits_cons.
      * destruct (Nat.min_spec (Nat.min (lev x y) (lev x (d :: y)))
                               (lev (c :: x) y)) as [[_ ->]|[_ ->]].
        -- destruct (Nat.min_spec (lev x y) (lev x (d :: y)))
             as [[_ ->]|[_ ->]].
           ++ apply edits_step with (d :: x);
                [apply (edit_subst c d [] x) | now apply edits_cons].
           ++ apply edits_step with x;
                [apply (edit_delete c [] x) | apply IHx].
        -- apply edits_step with (d :: c :: x);
             [apply (edit_insert d [] (c :: x)) | now apply edits_cons].
Qed.

(** ... and no sequence of edits is shorter. *)
Lemma lev_least (n : nat) (x y : str) : edits n x y -> lev x y <= n.
Proof.
  induction 1 as [x|n x y z Hxy _ IH].
  - now rewrite lev_refl.
  - pose proof (edit1_lev (edit1_sym Hxy) z). lia.
Qed.

(** *** The distance *)

Lemma levenshteinDistance_reached (a b : str) :
  edits (levenshteinDistance a b) a b.
Proof.
  rewrite levenshteinDistance_lev.
  rewrite <- (rev_involutive a) at 2; rewrite <- (rev_involutive b) at 2.
  apply edits_rev, lev_reached.
Qed.

Lemma levenshteinDistance_least (n : nat) (a b : str) :
  edits n a b -> levenshteinDistance a b <= n.
Proof.
  intros H; rewrite levenshteinDistance_lev.
  now apply lev_least, edits_rev.
Qed.

Lemma levenshteinDistance_refl (x : str) : levenshteinDistance x x = 0.
Proof. now rewrite levenshteinDistance_lev, lev_refl. Qed.

Lemma levenshteinDistance_sym (x y : str) :
  levenshteinDistance x y = levenshteinDistance y x.
Proof. now rewrite !levenshteinDistance_lev, lev_sym. Qed.

Lemma levenshteinDistance_zero (x y : str) :
  levenshteinDistance x y = 0 -> x = y.
Proof.
  intros H; pose proof (levenshteinDistance_reached x y) as He.
  rewrite H in He; now inversion He.
Qed.

(** C9.  The value returned for [a] and [b] is the number of edits of some
    sequence of single-character insertions, deletions and substitutions
    that turns [a] into [b], and no such sequence has fewer edits.  The
    distance from a string to itself is 0, the distance does not depend on
    the order of the arguments, and "kitten" is at distance 3 from
    "sitting". *)
Theorem levenshteinDistance_minimal_edits :
  (forall a b : str,
      edits (levenshteinDistance a b) a b /\
      forall n, edits n a b -> levenshteinDistance a b <= n) /\
  (forall x : str, levenshteinDistance x x = 0) /\
  (forall x y : str, levenshteinDistance x y = levenshteinDistance y x) /\
  levenshteinDistance (lit "kitten") (lit "sitting") = 3.
Proof.
  repeat split.
  - apply levenshteinDistance_reached.
  - intros n; apply levenshteinDistance_least.
  - apply levenshteinDistance_refl.
  - apply levenshteinDistance_sym.
Qed.

(** One insertion turns "cat" into "cart", so their distance is at most 1. *)
Lemma levenshteinDistance_minimal_edits_witness :
  edits 1 (lit "cat") (lit "cart") /\
  levenshteinDistance (lit "cat") (lit "cart") <= 1.
Proof.
  assert (H : edits 1 (lit "cat") (lit "cart")).
  { apply edits_step with (lit "cart"); [|constructor].
    apply (edit_insert "r"%char (lit "ca") (lit "t")). }
  split; [exact H|].
  exact (proj2 (proj1 levenshteinDistance_minimal_edits (lit "cat") (lit "cart"))
               1 H).
Defined.

End LevFacts.

(** ** Strings, slices and sorting *)

Module ListFacts.

Import JS.
Local Open Scope Z_scope.

(** *** Strings *)

Lemma str_eqb_eq (a b : str) : str_eqb a b = true <-> a = b.
Proof.
  revert b; induction a as [|c a IH]; intros [|d b]; cbn; try easy.
  rewrite andb_true_iff, Ascii.eqb_eq, IH.
  split; [intros [-> ->]; reflexivity | intros [= -> ->]; now split].
Qed.

Lemma str_eqb_refl (a : str) : str_eqb a a = true.
Proof. now apply str_eqb_eq. Qed.

Lemma isEmpty_true (s : str) : isEmpty s = true <-> s = [].
Proof. destruct s; cbn; easy. Qed.

Lemma trimStart_nil (s : str) : trimStart s = [] <-> forallb isSpace s = true.
Proof.
  induction s as [|c s IH]; cbn; [easy|].
  destruct (isSpace c); cbn; [exact IH | easy].
Qed.

Lemma trimStart_forallb (s : str) :
  forallb isSpace (trimStart s) = forallb isSpace s.
Proof.
  induction s as [|c s IH]; cbn; [reflexivity|].
  destruct (isSpace c) eqn:Hc; cbn; [exact IH | now rewrite Hc].
Qed.

Lemma forallb_rev (A : Type) (f : A -> bool) (l : list A) :
  forallb f (rev l) = forallb f l.
Proof.
  induction l as [|x l IH]; cbn; [reflexivity|].
  rewrite forallb_app, IH; cbn. now rewrite andb_true_r, andb_comm.
Qed.

(** [trim] leaves nothing exactly of the strings made of white space. *)
Lemma trim_nil (s : str) : trim s = [] <-> forallb isSpace s = true.
Proof.
  unfold trim, trimEnd.
  rewrite <- (trimStart_forallb s), <- (forallb_rev isSpace (trimStart s)).
  rewrite <- trimStart_nil.
  split; intros H.
  - apply (f_equal (@rev ascii)) in H. now rewrite rev_involutive in H.
  - now rewrite H.
Qed.

Lemma trim_length_pos (s : str) :
  (0 <? length (trim s))%nat = true <-> forallb isSpace s = false.
Proof.
  rewrite Nat.ltb_lt, <- not_true_iff_false, <- trim_nil.
  destruct (trim s); cbn; split; intros H; try easy; try lia.
Qed.

Lemma splitSpacesFrom_not_nil (inRun : bool) (s : str) :
  splitSpacesFrom inRun s <> [].
Proof.
  revert inRun; induction s as [|c s IH]; intros inRun; cbn; [easy|].
  destruct (isSpace c).
  - destruct inRun; [apply IH | easy].
  - destruct (splitSpacesFrom false s); easy.
Qed.

(** *** What trim leaves *)

Lemma trimStart_split (s : str) :
  exists sp, s = sp ++ trimStart s /\ forallb isSpace sp = true.
Proof.
  induction s as [|c s [sp [E H]]]; cbn [trimStart].
  - now exists [].
  - destruct (isSpace c) eqn:Hc.
    + exists (c :: sp); cbn; rewrite Hc; split; [now f_equal | assumption].
    + now exists [].
Qed.

Lemma trimStart_head (s : str) (c : ascii) (t : str) :
  trimStart s = c :: t -> isSpace c = false.
Proof.
  induction s as [|d s IH]; cbn [trimStart]; [discriminate|].
  destruct (isSpace d) eqn:Hd; [exact IH|].
  now intros [= <- _].
Qed.

Lemma trimStart_fixed (s : str) :
  match s with c :: _ => isSpace c = false | [] => True end ->
  trimStart s = s.
Proof. destruct s as [|c s]; cbn; [easy|]. now intros ->. Qed.

Lemma trimEnd_split (s : str) :
  exists sp, s = trimEnd s ++ sp /\ forallb isSpace sp = true.
Proof.
  unfold trimEnd.
  destruct (trimStart_split (rev s)) as [sp [E H]].
  exists (rev sp); split; [|now rewrite forallb_rev].
  rewrite <- rev_app_distr, <- E. now rewrite rev_involutive.
Qed.

Lemma trimEnd_fixed (s : str) :
  match rev s with c :: _ => isSpace c = false | [] => True end ->
  trimEnd s = s.
Proof.
  intros H; unfold trimEnd. rewrite trimStart_fixed by assumption.
  apply rev_involutive.
Qed.

(** What [trim] leaves neither begins nor ends with white space. *)
Lemma trim_ends (s : str) :
  match trim s with c :: _ => isSpace c = false | [] => True end /\
  match rev (trim s) with c :: _ => isSpace c = false | [] => True end.
Proof.
  unfold trim; split.
  - destruct (trimStart s) as [|c t] eqn:E; [exact I|].
    pose proof (trimStart_head _ E) as Hc.
    destruct (trimEnd_split (c :: t)) as [sp [E' Hsp]].
    destruct (trimEnd (c :: t)) as [|d u]; [|].
    + cbn in E'; subst sp; cbn in Hsp. now rewrite Hc in Hsp.
    + cbn in E'; injection E' as <- _. exact Hc.
  - unfold trimEnd; rewrite rev_involutive.
    destruct (trimStart (rev (trimStart s))) as [|c t] eqn:E; [exact I|].
    exact (trimStart_head _ E).
Qed.

Lemma trim_idempotent (s : str) : trim (trim s) = trim s.
Proof.
  destruct (trim_ends s) as [H1 H2].
  unfold trim at 1. rewrite trimStart_fixed by exact H1.
  now apply trimEnd_fixed.
Qed.

Lemma trim_blank (s : str) : forallb isSpace s = true -> trim s = [].
Proof. apply trim_nil. Qed.

(** *** The fields of a title *)

Lemma isSpace_toLowerChar (c : ascii) : isSpace (toLowerChar c) = isSpace c.
Proof. destruct c as [[] [] [] [] [] [] [] []]; reflexivity. Qed.

(** In a string that ends with a code unit that is not white space, only the
    first field can be empty, and it is when the string begins with white
    space outside a run. *)
Lemma splitSpacesFrom_fields (u : str) (c : ascii) :
  isSpace c = false ->
  forall inRun : bool,
    let fs := splitSpacesFrom inRun (u ++ [c]) in
    (forall w, In w (tl fs) -> w <> []) /\
    (hd [] fs = [] ->
     inRun = false /\ exists d u', u = d :: u' /\ isSpace d = true).
Proof.
  intros Hc; induction u as [|d u IH]; intros inRun.
  - cbn; rewrite Hc; cbn; split; [easy | discriminate].
  - cbn [app splitSpacesFrom].
    destruct (isSpace d) eqn:Hd.
    + destruct inRun.
      * destruct (IH true) as [Htl Hhd]; split; [exact Htl|].
        intros H; now destruct (Hhd H).
      * destruct (IH true) as [Htl Hhd]; cbn [tl hd]; split.
        -- intros w Hw.
           destruct (splitSpacesFrom true (u ++ [c])) as [|f fs] eqn:E;
             [now apply splitSpacesFrom_not_nil in E|].
           destruct Hw as [<-|Hw]; [|now apply Htl].
           intros ->; now destruct (Hhd eq_refl).
        -- intros _; split; [reflexivity | now exists d, u].
    + destruct (IH false) as [Htl Hhd].
      destruct (splitSpacesFrom false (u ++ [c])) as [|f fs];
        cbn [tl hd] in *; split; easy.
Qed.

(** *** Slices *)

Lemma slice_from_0 (A : Type) (l : list A) (stop : Z) :
  slice l 0 stop = firstn (Z.to_nat (relIndex (Z.of_nat (length l)) stop)) l.
Proof.
  unfold slice.
  assert (H0 : relIndex (Z.of_nat (length l)) 0 = 0) by (unfold relIndex; cbn; lia).
  rewrite H0, Z.sub_0_r. reflexivity.
Qed.

Lemma slice_prefix (A : Type) (l : list A) (stop : Z) :
  exists rest, l = slice l 0 stop ++ rest.
Proof.
  rewrite slice_from_0.
  eexists; symmetry; apply firstn_skipn.
Qed.

Lemma slice_length (A : Type) (l : list A) (stop : Z) :
  0 <= stop ->
  length (slice l 0 stop) = Nat.min (Z.to_nat stop) (length l).
Proof.
  intros H; rewrite slice_from_0, length_firstn.
  unfold relIndex. rewrite (proj2 (Z.ltb_ge stop 0) H). lia.
Qed.

Lemma slice_incl (A : Type) (l : list A) (stop : Z) (x : A) :
  In x (slice l 0 stop) -> In x l.
Proof.
  destruct (slice_prefix l stop) as [rest E]; intros H.
  rewrite E; apply in_or_app; now left.
Qed.

(** *** Sorting *)

Section Sorting.

Variable A : Type.
Variable cmp : A -> A -> Z.

Lemma insertBy_perm (x : A) (l : list A) : Permutation (insertBy cmp x l) (x :: l).
Proof.
  induction l as [|y l IH]; cbn; [reflexivity|].
  destruct (0 <? cmp x y); [|reflexivity].
  rewrite IH; apply perm_swap.
Qed.

Lemma sortBy_perm (l : list A) : Permutation (sortBy cmp l) l.
Proof.
  induction l as [|x l IH]; cbn; [reflexivity|].
  fold (sortBy cmp l). rewrite insertBy_perm. now constructor.
Qed.

Lemma sortBy_In (l : list A) (x : A) : In x (sortBy cmp l) <-> In x l.
Proof.
  split; apply Permutation_in; [|symmetry]; apply sortBy_perm.
Qed.

Lemma sortBy_length (l : list A) : length (sortBy cmp l) = length l.
Proof. apply Permutation_length, sortBy_perm. Qed.

(** The comparator is a consistent ordering of the elements that satisfy
    [P]. *)
Variable P : A -> Prop.
Hypothesis cmp_opposite :
  forall x y, P x -> P y -> 0 < cmp x y -> cmp y x <= 0.
Hypothesis cmp_transitive :
  forall x y z, P x -> P y -> P z -> cmp x y <= 0 -> cmp y z <= 0 -> cmp x z <= 0.

Let before (x y : A) : Prop := cmp x y <= 0.

Lemma insertBy_sorted (x : A) (l : list A) :
  P x -> Forall P l ->
  StronglySorted before l -> StronglySorted before (insertBy cmp x l).
Proof.
  intros Px Pl Hs; induction Hs as [|y l Hs IH Hy]; cbn.
  - constructor; constructor.
  - inversion Pl as [|? ? Py Pl']; subst.
    destruct (0 <? cmp x y) eqn:Hc.
    + apply Z.ltb_lt in Hc.
      constructor; [now apply IH|].
      rewrite (insertBy_perm x l).
      constructor; [now apply cmp_opposite | assumption].
    + apply Z.ltb_ge in Hc.
      constructor; [now constructor|].
      constructor; [exact Hc|].
      rewrite Forall_forall in *.
      intros z Hz. apply cmp_transitive with y; auto.
      now apply Hy.
Qed.

Lemma sortBy_sorted (l : list A) :
  Forall P l -> StronglySorted before (sortBy cmp l).
Proof.
  induction 1 as [|x l Px Pl IH]; cbn; [constructor|].
  fold (sortBy cmp l).
  apply insertBy_sorted; [assumption | | assumption].
  now rewrite sortBy_perm.
Qed.

End Sorting.

Lemma StronglySorted_impl (A : Type) (R S : A -> A -> Prop) (l : list A) :
  (forall x y, In x l -> In y l -> R x y -> S x y) ->
  StronglySorted R l -> StronglySorted S l.
Proof.
  intros H Hs; induction Hs as [|x l Hs IH Hx]; constructor.
  - apply IH; intros; apply H; cbn; auto.
  - rewrite Forall_forall in *; intros y Hy.
    apply H; cbn; auto.
Qed.

Lemma StronglySorted_map (A B : Type) (f : A -> B) (R : B -> B -> Prop) (l : list A) :
  StronglySorted (fun x y => R (f x) (f y)) l -> StronglySorted R (map f l).
Proof.
  induction 1 as [|x l Hs IH Hx]; cbn; constructor; [assumption|].
  rewrite Forall_forall in *; intros y Hy.
  apply in_map_iff in Hy as [z [<- Hz]]. now apply Hx.
Qed.

(** *** The order of code units *)

Lemma compareStr_opp (a b : str) : compareStr b a = CompOpp (compareStr a b).
Proof.
  revert b; induction a as [|c a IH]; intros [|d b]; cbn; try reflexivity.
  rewrite (N.compare_antisym (code c) (code d)).
  destruct (code c ?= code d)%N; cbn; [apply IH | reflexivity | reflexivity].
Qed.

Lemma compareStr_le_trans (a b c : str) :
  compareStr a b <> Gt -> compareStr b c <> Gt -> compareStr a c <> Gt.
Proof.
  revert b c; induction a as [|x a IH]; intros [|y b] [|z c]; cbn; try easy.
  destruct (code x ?= code y)%N eqn:Hxy; try easy;
    destruct (code y ?= code z)%N eqn:Hyz; try easy.
  - apply N.compare_eq in Hxy, Hyz. rewrite Hxy, Hyz, N.compare_refl. apply IH.
  - apply N.compare_eq in Hxy. now rewrite Hxy, Hyz.
  - apply N.compare_eq in Hyz. now rewrite <- Hyz, Hxy.
  - rewrite N.compare_lt_iff in *.
    now rewrite (proj2 (N.compare_lt_iff _ _) (N.lt_trans _ _ _ Hxy Hyz)).
Qed.

End ListFacts.

(** ** Host and episode search *)

Module SearchFacts.

Import JS Lev Search ListFacts LevFacts.
Local Open Scope Z_scope.

(** *** Substrings *)

Lemma startsWith_spec (p s : str) :
  startsWith p s = true <-> exists rest, s = p ++ rest.
Proof.
  revert s; induction p as [|c p IH]; intros s; cbn.
  - split; [now exists s | easy].
  - destruct s as [|d s].
    + split; [easy | now intros [rest H]].
    + rewrite andb_true_iff, Ascii.eqb_eq, IH; split.
      * intros [-> [rest ->]]; now exists rest.
      * intros [rest [= -> ->]]; split; [reflexivity | now exists rest].
Qed.

(** [s.includes(sub)] holds exactly when [sub] occurs in [s]. *)
Lemma includes_spec (s sub : str) :
  includes s sub = true <-> exists before rest, s = before ++ sub ++ rest.
Proof.
  induction s as [|c s IH]; cbn.
  - rewrite orb_false_r, startsWith_spec; split.
    + intros [rest H]; now exists [], rest.
    + intros [[|? ?] [rest H]]; [now exists rest | easy].
  - rewrite orb_true_iff, startsWith_spec, IH; split.
    + intros [[rest H]|[before [rest ->]]].
      * now exists [], rest.
      * now exists (c :: before), rest.
    + intros [[|d before] [rest H]].
      * left; now exists rest.
      * right; injection H as -> ->; now exists before, rest.
Qed.

(** *** searchHosts *)

Lemma byDistance_sorted (l : list HostCandidate) :
  StronglySorted (fun a b => (hc_distance a <= hc_distance b)%nat)
                 (sortBy byDistance l).
Proof.
  apply StronglySorted_impl with (R := fun a b => byDistance a b <= 0).
  - unfold byDistance; intros; lia.
  - apply sortBy_sorted with (P := fun _ => True).
    + unfold byDistance; intros; lia.
    + unfold byDistance; intros; lia.
    + apply Forall_forall; easy.
Qed.

Lemma length_pos_not_nil (A : Type) (l : list A) :
  (0 <? length l)%nat = true <-> l <> [].
Proof. destruct l; cbn; split; easy. Qed.

(** C6.  [searchHosts] returns only exact matches or only fuzzy matches.
    If the lower-cased query occurs in the lower-cased name or e-mail address
    of some host, the hosts for which it does are returned, in their order,
    all tagged exact.  Otherwise the hosts returned are those for which the
    smaller of the distances from the lower-cased query to the lower-cased
    name and to the lower-cased address is at most [maxDistance] (2 by
    default), each once, tagged fuzzy with that distance, in ascending order
    of the distance. *)
Theorem searchHosts_exact_or_fuzzy :
  forall (db : HPRDataLoader) (query : str) (maxDistance : Z),
    let q := toLowerCase query in
    let contains (h : Host) :=
      includes (toLowerCase (host h)) q || includes (toLowerCase (email h)) q in
    let distance (h : Host) :=
      Nat.min (levenshteinDistance q (toLowerCase (host h)))
              (levenshteinDistance q (toLowerCase (email h))) in
    let result := searchHosts db query maxDistance in
    ((forall r, In r result -> hm_matchType r = exact) \/
     (forall r, In r result -> hm_matchType r = fuzzy)) /\
    ((exists h, In h (hosts db) /\ contains h = true) ->
       result = map (fun h => mkHostMatch h exact None)
                    (filter contains (hosts db))) /\
    ((forall h, In h (hosts db) -> contains h = false) ->
       Permutation result
         (map (fun h => mkHostMatch h fuzzy (Some (distance h)))
              (filter (fun h => Z.of_nat (distance h) <=? maxDistance)
                      (hosts db))) /\
       (forall h, In h (hosts db) ->
          (In (mkHostMatch h fuzzy (Some (distance h))) result <->
           Z.of_nat (distance h) <= maxDistance)) /\
       StronglySorted (fun r1 r2 => (foundDistance r1 <= foundDistance r2)%nat)
                      result).
Proof.
  intros db query maxDistance q contains distance result.
  assert (Hexact : filter contains (hosts db) <> [] ->
                   result = map (fun h => mkHostMatch h exact None)
                                (filter contains (hosts db))).
  { intros Hne. unfold result, searchHosts.
    fold q. change (hostContains q) with contains.
    rewrite length_map.
    now rewrite (proj2 (length_pos_not_nil _) Hne). }
  assert (Hfuzzy : filter contains (hosts db) = [] ->
                   result =
                   map (fun r => mkHostMatch (hc_host r) fuzzy (Some (hc_distance r)))
                     (sortBy byDistance
                        (filter (fun r => Z.of_nat (hc_distance r) <=? maxDistance)
                           (map (fun h => mkHostCandidate h (distance h))
                                (hosts db))))).
  { intros Hnil. unfold result, searchHosts.
    fold q. change (hostContains q) with contains.
    rewrite Hnil. reflexivity. }
  assert (Hperm : filter contains (hosts db) = [] ->
                  Permutation result
                    (map (fun h => mkHostMatch h fuzzy (Some (distance h)))
                       (filter (fun h => Z.of_nat (distance h) <=? maxDistance)
                               (hosts db)))).
  { intros Hnil. rewrite (Hfuzzy Hnil), sortBy_perm.
    clear. induction (hosts db) as [|h l IH]; cbn; [constructor|].
    destruct (Z.of_nat (distance h) <=? maxDistance); cbn;
      [constructor|]; exact IH. }
  split; [|split].
  - destruct (filter contains (hosts db)) as [|h0 l0] eqn:Hf.
    + right. intros r Hr.
      rewrite (Hfuzzy eq_refl) in Hr.
      apply in_map_iff in Hr as [c [<- _]]. reflexivity.
    + left. intros r Hr.
      rewrite Hexact in Hr by easy.
      apply in_map_iff in Hr as [c [<- _]]. reflexivity.
  - intros [h [Hin Hc]]. apply Hexact.
    intros Hnil.
    assert (Hh : In h (filter contains (hosts db))) by (apply filter_In; now split).
    now rewrite Hnil in Hh.
  - intros Hnone.
    assert (Hnil : filter contains (hosts db) = []).
    { destruct (filter contains (hosts db)) as [|h l] eqn:Hf; [reflexivity|].
      assert (Hh : In h (filter contains (hosts db))) by (rewrite Hf; now left).
      apply filter_In in Hh as [Hin Hc].
      now rewrite (Hnone h Hin) in Hc. }
    split; [now apply Hperm | split].
    + intros h Hin; split.
      * intros Hr.
        apply (Permutation_in _ (Hperm Hnil)) in Hr.
        apply in_map_iff in Hr as [h' [E Hh']].
        apply filter_In in Hh' as [_ Hle].
        injection E as -> E'. now apply Z.leb_le.
      * intros Hle.
        apply (Permutation_in _ (Permutation_sym (Hperm Hnil))).
        apply in_map_iff; exists h; split; [reflexivity|].
        apply filter_In; split; [assumption | now apply Z.leb_le].
    + rewrite (Hfuzzy Hnil).
      apply StronglySorted_map; cbn.
      apply byDistance_sorted.
Qed.

(** The host "klaatu" is found for the query "klattu" at distance 1. *)
Lemma searchHosts_exact_or_fuzzy_witness :
  let db := mkLoader [] [mkHost 7 (lit "klaatu") (lit "k@example.org");
                         mkHost 8 (lit "Ken") (lit "ken@example.org")] [] in
  (forall h, In h (hosts db) ->
     includes (toLowerCase (host h)) (toLowerCase (lit "klattu")) ||
     includes (toLowerCase (email h)) (toLowerCase (lit "klattu")) = false) /\
  Permutation (searchHosts db (lit "klattu") 2)
    [mkHostMatch (mkHost 7 (lit "klaatu") (lit "k@example.org")) fuzzy (Some 1%nat)].
Proof.
  intros db.
  assert (H : forall h, In h (hosts db) ->
     includes (toLowerCase (host h)) (toLowerCase (lit "klattu")) ||
     includes (toLowerCase (email h)) (toLowerCase (lit "klattu")) = false).
  { intros h [<-|[<-|[]]]; reflexivity. }
  split; [exact H|].
  exact (proj1 (proj2 (proj2 (searchHosts_exact_or_fuzzy db (lit "klattu") 2)) H)).
Defined.

(** *** The distance of a title *)

Lemma minDistance_from (q : str) (words : list str) (m : nat) :
  exists d,
    fold_left
      (fun acc word =>
         let distance := levenshteinDistance q word in
         if ltNum distance acc then Fin distance else acc)
      words (Fin m) = Fin d /\
    (d <= m)%nat /\
    (d = m \/ exists w, In w words /\ levenshteinDistance q w = d) /\
    (forall w, In w words -> d <= levenshteinDistance q w)%nat.
Proof.
  revert m; induction words as [|w words IH]; intros m; cbn [fold_left].
  - exists m; repeat split; [lia | now left | easy].
  - cbn [ltNum].
    destruct (levenshteinDistance q w <? m)%nat eqn:Hlt.
    + apply Nat.ltb_lt in Hlt.
      destruct (IH (levenshteinDistance q w)) as [d [E [Hle [Hex Hall]]]].
      exists d; repeat split; [exact E | lia | | ].
      * right. destruct Hex as [->|[w' [Hin Hw']]].
        -- exists w; split; [now left | reflexivity].
        -- exists w'; split; [now right | assumption].
      * intros w' [<-|Hin]; [lia | now apply Hall].
    + apply Nat.ltb_ge in Hlt.
      destruct (IH m) as [d [E [Hle [Hex Hall]]]].
      exists d; repeat split; [exact E | lia | | ].
      * destruct Hex as [->|[w' [Hin Hw']]]; [now left | right].
        exists w'; split; [now right | assumption].
      * intros w' [<-|Hin]; [lia | now apply Hall].
Qed.

Lemma minDistance_least (q : str) (words : list str) :
  words <> [] -> exists d, minDistance q words = Fin d /\ leastDistance q words d.
Proof.
  destruct words as [|w words]; [easy | intros _].
  unfold minDistance; cbn [fold_left ltNum].
  destruct (minDistance_from q words (levenshteinDistance q w))
    as [d [E [Hle [Hex Hall]]]].
  exists d; split; [exact E | split].
  - destruct Hex as [->|[w' [Hin Hw']]].
    + exists w; split; [now left | reflexivity].
    + exists w'; split; [now right | assumption].
  - intros w' [<-|Hin]; [lia | now apply Hall].
Qed.

Lemma leastDistance_unique (q : str) (words : list str) (d d' : nat) :
  leastDistance q words d -> leastDistance q words d' -> d = d'.
Proof.
  intros [[w [Hw E]] Hall] [[w' [Hw' E']] Hall'].
  specialize (Hall w' Hw'); specialize (Hall' w Hw); lia.
Qed.

(** The distance computed for an episode is the least distance from the
    query to a word of its lower-cased title. *)
Lemma titleDistance_least (q : str) (ep : Episode) (d : nat) :
  titleDistance q ep = Fin d <->
  leastDistance q (splitSpaces (toLowerCase (title ep))) d.
Proof.
  unfold titleDistance.
  destruct (minDistance_least q (splitSpacesFrom_not_nil false (toLowerCase (title ep))))
    as [d0 [E H0]].
  fold (splitSpaces (toLowerCase (title ep))) in E, H0.
  rewrite E; split.
  - now intros [= ->].
  - intros H; f_equal. eapply leastDistance_unique; eassumption.
Qed.

Lemma titleDistance_finite (q : str) (ep : Episode) :
  exists d, titleDistance q ep = Fin d.
Proof.
  destruct (minDistance_least q (splitSpacesFrom_not_nil false (toLowerCase (title ep))))
    as [d0 [E _]].
  now exists d0.
Qed.

(** *** The two passes of searchEpisodes *)

Lemma fuzzyRuns_spec (results : list EpisodeMatch) (query : str) :
  fuzzyRuns results query = true <->
  results = [] /\ exists c, In c query /\ isSpace c = false.
Proof.
  unfold fuzzyRuns.
  rewrite !andb_true_iff, Nat.eqb_eq, length_zero_iff_nil, trim_length_pos.
  rewrite negb_true_iff.
  assert (Hsp : forallb isSpace query = false <->
                exists c, In c query /\ isSpace c = false).
  { rewrite <- not_true_iff_false, forallb_forall; split.
    - intros H. induction query as [|c s IH]; [exfalso; apply H; easy|].
      destruct (isSpace c) eqn:Hc.
      + destruct IH as [c' [Hin Hc']].
        * intros Hall; apply H; intros x [<-|Hx]; auto.
        * exists c'; split; [now right | assumption].
      + exists c; split; [now left | assumption].
    - intros [c [Hin Hc]] Hall. rewrite (Hall c Hin) in Hc; discriminate. }
  rewrite Hsp; split.
  - intros [[Hr _] Hc]; now split.
  - intros [Hr Hc]; repeat split; try assumption.
    destruct Hc as [c [Hin _]]; now destruct query.
Qed.

Lemma fuzzyResults_In (db : HPRDataLoader) (query : str) (o : EpisodeOptions)
  (r : EpisodeMatch) :
  In r (fuzzyResults db query o) <->
  exists ep d,
    In ep (episodes db) /\ matchesFilters o ep = true /\
    leastDistance (toLowerCase query) (splitSpaces (toLowerCase (title ep))) d /\
    Z.of_nat d <= maxDistance o /\
    r = mkEpisodeMatch ep fuzzy (Some (Fin d)).
Proof.
  unfold fuzzyResults, fuzzyCandidates.
  rewrite in_map_iff; split.
  - intros [c [<- Hc]].
    apply sortBy_In, filter_In in Hc as [Hc Hle].
    apply in_map_iff in Hc as [ep [<- Hep]].
    apply filter_In in Hep as [Hin Hf].
    cbn [ec_distance ec_episode] in *.
    destruct (titleDistance_finite (toLowerCase query) ep) as [d E].
    rewrite E in *; cbn [leNum] in Hle.
    exists ep, d.
    split; [assumption|]. split; [assumption|].
    split; [now apply titleDistance_least|].
    split; [now apply Z.leb_le | reflexivity].
  - intros [ep [d [Hin [Hf [Hd [Hle ->]]]]]].
    apply titleDistance_least in Hd.
    exists (mkEpisodeCandidate ep (Fin d)); split; [reflexivity|].
    apply sortBy_In, filter_In; split.
    + apply in_map_iff; exists ep; split; [now rewrite Hd|].
      apply filter_In; now split.
    + cbn; now apply Z.leb_le.
Qed.

Lemma splitSpaces_words (t : str) :
  t <> [] -> trim t = t ->
  wordsOf (toLowerCase t) = splitSpaces (toLowerCase t).
Proof.
  intros Hne Ht.
  destruct (trim_ends t) as [H1 H2]; rewrite Ht in H1, H2.
  destruct (rev t) as [|c v] eqn:Er;
    [apply (f_equal (@rev ascii)) in Er; rewrite rev_involutive in Er;
     contradiction|].
  assert (Et : t = rev v ++ [c])
    by (rewrite <- (rev_involutive t), Er; reflexivity).
  unfold wordsOf; apply forallb_filter_id, forallb_forall; intros w Hw.
  assert (Hlow : toLowerCase t = toLowerCase (rev v) ++ [toLowerChar c])
    by (rewrite Et; unfold toLowerCase; now rewrite map_app).
  assert (Hc : isSpace (toLowerChar c) = false)
    by now rewrite isSpace_toLowerChar.
  destruct (@splitSpacesFrom_fields (toLowerCase (rev v)) (toLowerChar c) Hc
              false) as [Htl Hhd].
  cbv zeta in Htl, Hhd; rewrite <- Hlow in Htl, Hhd.
  unfold splitSpaces in Hw.
  destruct (splitSpacesFrom false (toLowerCase t)) as [|f fs] eqn:E;
    [destruct Hw|].
  cbn [tl hd] in *.
  assert (Hw' : w <> []).
  { destruct Hw as [<-|Hw]; [|now apply Htl].
    intros ->. destruct (Hhd eq_refl) as [_ [d [u' [Eu Hd]]]].
    rewrite Et in H1.
    destruct (rev v) as [|x rv]; [discriminate|].
    cbn in Eu; injection Eu as <- _.
    cbn in H1. rewrite isSpace_toLowerChar in Hd. congruence. }
  now destruct w.
Qed.

(** C4, as amended.  The fuzzy pass of [searchEpisodes] runs if and only if
    the exact pass (the query occurring in the lower-cased title, summary,
    tags or notes of an episode that passes the filters) finds no episode and
    the query has a code unit that is not white space.  When it runs, an
    episode whose title is not empty and neither begins nor ends with white
    space is drawn exactly when it passes the filters and a word of its
    lower-cased title is at distance at most [maxDistance] (3 by default)
    from the lower-cased query, and it is tagged fuzzy with the least such
    distance over the words of the title; whatever the titles, every episode
    drawn passes the filters and is tagged fuzzy with a distance that is at
    most [maxDistance].  When the fuzzy pass does not run, what the search
    draws from are the episodes found by the exact pass, all tagged exact.
    [searchEpisodes] returns episodes from these only. *)
Theorem searchEpisodes_fuzzy_fallback :
  forall (localeCompare : str -> str -> Z) (db : HPRDataLoader) (query : str)
         (o : EpisodeOptions),
    let q := toLowerCase query in
    let inText (ep : Episode) :=
      isEmpty query ||
      includes (toLowerCase (title ep)) q ||
      includes (toLowerCase (summary ep)) q ||
      includes (toLowerCase (tags ep)) q ||
      includes (toLowerCase (notes ep)) q in
    let hits := filter (fun ep => inText ep && matchesFilters o ep) (episodes db) in
    let runs := fuzzyRuns (exactResults db query o) query in
    let full := sortedResults localeCompare db query o in
    (runs = true <-> hits = [] /\ exists c, In c query /\ isSpace c = false) /\
    (runs = true ->
       (forall (ep : Episode) (r : EpisodeMatch),
           title ep <> [] -> trim (title ep) = title ep ->
           (In r full /\ episode r = ep <->
            In ep (episodes db) /\ matchesFilters o ep = true /\
            exists d,
              leastDistance q (wordsOf (toLowerCase (title ep))) d /\
              Z.of_nat d <= maxDistance o /\
              r = mkEpisodeMatch ep fuzzy (Some (Fin d)))) /\
       (forall r, In r full ->
           matchType r = fuzzy /\
           In (episode r) (episodes db) /\
           matchesFilters o (episode r) = true /\
           exists d, matchDistance r = Some (Fin d) /\
                     Z.of_nat d <= maxDistance o)) /\
    (runs = false ->
       Permutation full (map (fun ep => mkEpisodeMatch ep exact None) hits)) /\
    (hits <> [] ->
       forall r, In r (searchEpisodes localeCompare db query o) ->
                 matchType r = exact) /\
    (forall r, In r (searchEpisodes localeCompare db query o) -> In r full).
Proof.
  intros lc db query o q inText hits runs full.
  assert (Hexact : exactResults db query o =
                   map (fun ep => mkEpisodeMatch ep exact None) hits)
    by reflexivity.
  assert (Hguard : runs = true <->
                   hits = [] /\ exists c, In c query /\ isSpace c = false).
  { unfold runs; rewrite fuzzyRuns_spec, Hexact.
    split; intros [H1 H2]; split; try assumption.
    - now apply map_eq_nil in H1.
    - now rewrite H1. }
  assert (Hfull : full = sortBy (compareResults lc)
                    (if runs then fuzzyResults db query o
                     else exactResults db query o)) by reflexivity.
  assert (Hsub : forall r, In r (searchEpisodes lc db query o) -> In r full).
  { intros r; apply slice_incl. }
  split; [exact Hguard | split; [|split; [|split]]].
  - intros Hr.
    assert (Hin : forall r, In r full <-> In r (fuzzyResults db query o))
      by (intros r; rewrite Hfull, Hr; apply sortBy_In).
    split.
    + intros ep r Hne Htrim; rewrite Hin, fuzzyResults_In.
      rewrite (splitSpaces_words Hne Htrim); split.
      * intros [[ep' [d [Hep [Hf [Hd [Hle ->]]]]]] E]; cbn in E; subst ep'.
        split; [assumption | split; [assumption|]]. now exists d.
      * intros [Hep [Hf [d [Hd [Hle ->]]]]]; split; [|reflexivity].
        now exists ep, d.
    + intros r Hr'; apply Hin, fuzzyResults_In in Hr'
        as [ep [d [Hep [Hf [_ [Hle ->]]]]]]; cbn.
      split; [reflexivity | split; [assumption | split; [assumption|]]].
      now exists d.
  - intros Hr. rewrite Hfull, Hr, Hexact. apply sortBy_perm.
  - intros Hne r Hin.
    apply Hsub in Hin.
    destruct runs eqn:Hr.
    + destruct (proj1 Hguard eq_refl) as [Hnil _]; contradiction.
    + rewrite Hfull, sortBy_In, Hexact in Hin.
      apply in_map_iff in Hin as [ep [<- _]]; reflexivity.
  - exact Hsub.
Qed.

(** The query "linx" finds no text, and the episode about Linux is drawn as
    a fuzzy match at distance 1. *)
Lemma searchEpisodes_fuzzy_fallback_witness :
  let ep := mkEpisode 1 (lit "2020-01-01") (lit "Intro to Linux") (lit "s")
                      (lit "n") (lit "t") 7 0 in
  let db := mkLoader [ep] [] [] in
  fuzzyRuns (exactResults db (lit "linx") defaultEpisodeOptions) (lit "linx") = true /\
  title ep <> [] /\ trim (title ep) = title ep /\
  In (mkEpisodeMatch ep fuzzy (Some (Fin 1)))
     (sortedResults codeUnitCompare db (lit "linx") defaultEpisodeOptions).
Proof.
  intros ep db.
  assert (Hr : fuzzyRuns (exactResults db (lit "linx") defaultEpisodeOptions)
                         (lit "linx") = true) by reflexivity.
  assert (Hne : title ep <> []) by discriminate.
  assert (Htrim : trim (title ep) = title ep) by reflexivity.
  split; [exact Hr | split; [exact Hne | split; [exact Htrim|]]].
  apply (proj2 (proj1 (proj1 (proj2 (searchEpisodes_fuzzy_fallback
                  codeUnitCompare db (lit "linx") defaultEpisodeOptions)) Hr)
                  ep (mkEpisodeMatch ep fuzzy (Some (Fin 1))) Hne Htrim)).
  split; [now left | split; [reflexivity|]].
  exists 1%nat; split; [split | split; [cbn; lia | reflexivity]].
  - exists (lit "linux"); split; [cbn; tauto | reflexivity].
  - intros w [<-|[<-|[<-|[]]]]; vm_compute; lia.
Defined.

(** Where a title ends with white space the code compares the query with the
    empty string that [split] leaves there as with a word: the title
    "Soldering irons " is drawn for the query "xyz" at distance 3, though
    both of its words are farther. *)
Example empty_field_is_compared_like_a_word :
  let ep := mkEpisode 1 (lit "2020-01-01") (lit "Soldering irons ") (lit "s")
                      (lit "n") (lit "t") 7 0 in
  let db := mkLoader [ep] [] [] in
  wordsOf (toLowerCase (title ep)) = [lit "soldering"; lit "irons"] /\
  map (levenshteinDistance (lit "xyz")) (wordsOf (toLowerCase (title ep)))
    = [9%nat; 5%nat] /\
  searchEpisodes codeUnitCompare db (lit "xyz") defaultEpisodeOptions
    = [mkEpisodeMatch ep fuzzy (Some (Fin 3))].
Proof. vm_compute. repeat split. Qed.

(** C4, as stated, fails: for the query made of one space no text is found
    and the query is not empty, the only title word is at distance 2 from
    it, within the default threshold, and yet the fuzzy pass does not run
    and nothing is returned. *)
Lemma blank_query_has_no_fuzzy_pass :
  let ep := mkEpisode 1 (lit "2020-01-01") (lit "ab") (lit "s") (lit "n")
                      (lit "t") 7 0 in
  let db := mkLoader [ep] [] [] in
  let query := lit " " in
  exactResults db query defaultEpisodeOptions = [] /\
  isEmpty query = false /\
  matchesFilters defaultEpisodeOptions ep = true /\
  titleDistance (toLowerCase query) ep = Fin 2 /\
  leNum (Fin 2) (maxDistance defaultEpisodeOptions) = true /\
  fuzzyRuns (exactResults db query defaultEpisodeOptions) query = false /\
  searchEpisodes codeUnitCompare db query defaultEpisodeOptions = [].
Proof. vm_compute. repeat split. Qed.

(** *** The final sort of searchEpisodes *)

Lemma codeUnitCompare_opposite (a b : str) :
  0 < codeUnitCompare a b -> codeUnitCompare b a <= 0.
Proof.
  unfold codeUnitCompare; rewrite (compareStr_opp a b).
  destruct (compareStr a b); cbn; lia.
Qed.

Lemma codeUnitCompare_transitive (a b c : str) :
  codeUnitCompare a b <= 0 -> codeUnitCompare b c <= 0 ->
  codeUnitCompare a c <= 0.
Proof.
  unfold codeUnitCompare; intros Hab Hbc.
  assert (H : compareStr a c <> Gt).
  { apply compareStr_le_trans with b.
    - destruct (compareStr a b); easy || lia.
    - destruct (compareStr b c); easy || lia. }
  destruct (compareStr a c); easy || lia.
Qed.

Lemma compareResults_exact (lc : str -> str -> Z) (a b : EpisodeMatch) :
  matchType a = exact ->
  compareResults lc a b = lc (date (episode b)) (date (episode a)).
Proof. intros Ha; unfold compareResults, isFuzzy; now rewrite Ha. Qed.

Lemma compareResults_fuzzy (lc : str -> str -> Z) (a b : EpisodeMatch) :
  fuzzyWithDistance a -> fuzzyWithDistance b ->
  compareResults lc a b =
  if Z.of_nat (distanceOf a) - Z.of_nat (distanceOf b) =? 0
  then lc (date (episode b)) (date (episode a))
  else Z.of_nat (distanceOf a) - Z.of_nat (distanceOf b).
Proof.
  intros [Ta Da] [Tb Db]; unfold compareResults, isFuzzy.
  now rewrite Ta, Tb, Da, Db.
Qed.

Lemma fuzzyResults_fuzzy (db : HPRDataLoader) (query : str) (o : EpisodeOptions) :
  Forall fuzzyWithDistance (fuzzyResults db query o).
Proof.
  apply Forall_forall; intros r Hr.
  apply fuzzyResults_In in Hr as [ep [d [_ [_ [_ [_ ->]]]]]].
  split; reflexivity.
Qed.

Lemma exactResults_exact (db : HPRDataLoader) (query : str) (o : EpisodeOptions) :
  Forall (fun r => matchType r = exact) (exactResults db query o).
Proof.
  apply Forall_forall; intros r Hr.
  apply in_map_iff in Hr as [ep [<- _]]; reflexivity.
Qed.

Section ConsistentCollation.

Variable localeCompare : str -> str -> Z.
Hypothesis localeCompare_opposite :
  forall a b, 0 < localeCompare a b -> localeCompare b a <= 0.
Hypothesis localeCompare_transitive :
  forall a b c,
    localeCompare a b <= 0 -> localeCompare b c <= 0 -> localeCompare a c <= 0.

Lemma sort_exact (l : list EpisodeMatch) :
  Forall (fun r => matchType r = exact) l ->
  StronglySorted (dateDescending localeCompare)
                 (sortBy (compareResults localeCompare) l).
Proof.
  intros Hl.
  apply StronglySorted_impl
    with (R := fun a b => compareResults localeCompare a b <= 0).
  - intros x y Hx _.
    apply sortBy_In in Hx. rewrite Forall_forall in Hl.
    rewrite compareResults_exact by auto. easy.
  - apply sortBy_sorted with (P := fun r => matchType r = exact);
      [| |assumption].
    + intros x y Hx Hy. rewrite !compareResults_exact by assumption.
      apply localeCompare_opposite.
    + intros x y z Hx Hy Hz. rewrite !compareResults_exact by assumption.
      intros H1 H2. eapply localeCompare_transitive; eassumption.
Qed.

Lemma sort_fuzzy (l : list EpisodeMatch) :
  Forall fuzzyWithDistance l ->
  StronglySorted (distanceThenDate localeCompare)
                 (sortBy (compareResults localeCompare) l).
Proof.
  intros Hl.
  apply StronglySorted_impl
    with (R := fun a b => compareResults localeCompare a b <= 0).
  - intros x y Hx Hy.
    apply sortBy_In in Hx, Hy. rewrite Forall_forall in Hl.
    rewrite compareResults_fuzzy by auto.
    unfold distanceThenDate, dateDescending.
    destruct (Z.of_nat (distanceOf x) - Z.of_nat (distanceOf y) =? 0) eqn:E.
    + apply Z.eqb_eq in E. intros H; right; split; [lia | exact H].
    + apply Z.eqb_neq in E. intros H; left; lia.
  - apply sortBy_sorted with (P := fuzzyWithDistance); [| |assumption].
    + intros x y Hx Hy. rewrite !compareResults_fuzzy by assumption.
      rewrite (Z.eqb_sym (Z.of_nat (distanceOf y) - Z.of_nat (distanceOf x))).
      destruct (Z.of_nat (distanceOf x) - Z.of_nat (distanceOf y) =? 0) eqn:E.
      * apply Z.eqb_eq in E.
        rewrite (proj2 (Z.eqb_eq 0 (Z.of_nat (distanceOf y) - Z.of_nat (distanceOf x))))
          by lia.
        apply localeCompare_opposite.
      * apply Z.eqb_neq in E.
        rewrite (proj2 (Z.eqb_neq 0 (Z.of_nat (distanceOf y) - Z.of_nat (distanceOf x))))
          by lia.
        lia.
    + intros x y z Hx Hy Hz. rewrite !compareResults_fuzzy by assumption.
      destruct (Z.of_nat (distanceOf x) - Z.of_nat (distanceOf y) =? 0) eqn:Exy;
      destruct (Z.of_nat (distanceOf y) - Z.of_nat (distanceOf z) =? 0) eqn:Eyz;
      destruct (Z.of_nat (distanceOf x) - Z.of_nat (distanceOf z) =? 0) eqn:Exz;
      rewrite ?Z.eqb_eq, ?Z.eqb_neq in *; try lia.
      intros H1 H2. eapply localeCompare_transitive; eassumption.
Qed.

End ConsistentCollation.

(** C5.  For a collation that is a consistent ordering, the list from which
    [searchEpisodes] takes its results is a rearrangement of what the exact
    or the fuzzy pass found, in which every earlier element and every later
    one are in order: by descending date when the results are exact, by
    ascending distance and, for equal distances, by descending date when
    they are fuzzy.  What is returned is the front of that list, cut after
    the sort, of [limit] elements (20 by default) when there are that
    many. *)
Theorem searchEpisodes_sorted_then_cut :
  forall (localeCompare : str -> str -> Z),
    (forall a b, 0 < localeCompare a b -> localeCompare b a <= 0) ->
    (forall a b c, localeCompare a b <= 0 -> localeCompare b c <= 0 ->
                   localeCompare a c <= 0) ->
    forall (db : HPRDataLoader) (query : str) (o : EpisodeOptions),
      let runs := fuzzyRuns (exactResults db query o) query in
      let full := sortedResults localeCompare db query o in
      let returned := searchEpisodes localeCompare db query o in
      Permutation full (if runs then fuzzyResults db query o
                        else exactResults db query o) /\
      (runs = false ->
         (forall r, In r full -> matchType r = exact) /\
         StronglySorted (dateDescending localeCompare) full) /\
      (runs = true ->
         (forall r, In r full ->
            matchType r = fuzzy /\ matchDistance r = Some (Fin (distanceOf r))) /\
         StronglySorted (distanceThenDate localeCompare) full) /\
      returned = firstn (length returned) full /\
      (0 <= limit o ->
         length returned = Nat.min (Z.to_nat (limit o)) (length full)).
Proof.
  intros lc Hopp Htrans db query o runs full returned.
  assert (Hfull : full = sortBy (compareResults lc)
                    (if runs then fuzzyResults db query o
                     else exactResults db query o)) by reflexivity.
  split; [|split; [|split; [|split]]].
  - rewrite Hfull; apply sortBy_perm.
  - intros Hr; rewrite Hfull, Hr; split.
    + intros r Hin; apply sortBy_In in Hin.
      pose proof (exactResults_exact db query o) as H.
      rewrite Forall_forall in H; now apply H.
    + apply sort_exact; auto using exactResults_exact.
  - intros Hr; rewrite Hfull, Hr; split.
    + intros r Hin; apply sortBy_In in Hin.
      pose proof (fuzzyResults_fuzzy db query o) as H.
      rewrite Forall_forall in H; now apply H.
    + apply sort_fuzzy; auto using fuzzyResults_fuzzy.
  - unfold returned, searchEpisodes; fold full.
    rewrite slice_from_0, length_firstn.
    destruct (Nat.min_spec (Z.to_nat (relIndex (Z.of_nat (length full)) (limit o)))
                           (length full)) as [[_ ->]|[Hle ->]];
      [reflexivity|].
    now rewrite firstn_all, firstn_all2 by lia.
  - intros Hl. apply slice_length; assumption.
Qed.

(** Three episodes that all contain the query, cut to two: the two of the
    latest dates are returned, the later one first. *)
Lemma searchEpisodes_sorted_then_cut_witness :
  let e1 := mkEpisode 1 (lit "2019-05-01") (lit "Vim") (lit "s") (lit "n") (lit "t") 7 0 in
  let e2 := mkEpisode 2 (lit "2021-03-09") (lit "Vim again") (lit "s") (lit "n") (lit "t") 8 0 in
  let e3 := mkEpisode 3 (lit "2020-11-30") (lit "More vim") (lit "s") (lit "n") (lit "t") 7 0 in
  let db := mkLoader [e1; e2; e3] [] [] in
  let o := mkEpisodeOptions 2 None None None None None 3 in
  (forall a b, 0 < codeUnitCompare a b -> codeUnitCompare b a <= 0) /\
  (forall a b c, codeUnitCompare a b <= 0 -> codeUnitCompare b c <= 0 ->
                 codeUnitCompare a c <= 0) /\
  0 <= limit o /\
  length (searchEpisodes codeUnitCompare db (lit "vim") o) = 2%nat /\
  map (fun r => id (episode r)) (searchEpisodes codeUnitCompare db (lit "vim") o)
    = [2; 3].
Proof.
  intros e1 e2 e3 db o.
  split; [exact codeUnitCompare_opposite|].
  split; [exact codeUnitCompare_transitive|].
  assert (Hl : 0 <= limit o) by (cbn; lia).
  split; [exact Hl|].
  split; [|reflexivity].
  exact (proj2 (proj2 (proj2 (proj2
           (searchEpisodes_sorted_then_cut codeUnitCompare
              codeUnitCompare_opposite codeUnitCompare_transitive
              db (lit "vim") o)))) Hl).
Defined.

(** *** The searches on a small corpus *)

Example unknown_host_is_not_found :
  searchHosts (mkLoader [] [mkHost 7 (lit "klaatu") (lit "k@example.org")] [])
              (lit "xyzabc") defaultHostMaxDistance = [].
Proof. reflexivity. Qed.

Example too_far_is_not_found :
  let ep := mkEpisode 1 (lit "2020-01-01") (lit "Soldering irons") (lit "s")
                      (lit "n") (lit "t") 7 0 in
  searchEpisodes codeUnitCompare (mkLoader [ep] [] []) (lit "linx")
                 defaultEpisodeOptions = [].
Proof. reflexivity. Qed.

Example one_exact_hit_suffices :
  let e1 := mkEpisode 1 (lit "2020-01-01") (lit "Linux") (lit "s") (lit "n")
                      (lit "t") 7 0 in
  let e2 := mkEpisode 2 (lit "2021-01-01") (lit "Lynx") (lit "s") (lit "n")
                      (lit "t") 7 0 in
  map (fun r => (id (episode r), matchType r))
      (searchEpisodes codeUnitCompare (mkLoader [e1; e2] [] []) (lit "lynx")
                      defaultEpisodeOptions) = [(2, exact)].
Proof. reflexivity. Qed.

End SearchFacts.

(** ** Transcript search *)

Module TranscriptFacts.

Import JS Lev Search Transcripts ListFacts.
Local Open Scope Z_scope.

(** *** Sets in insertion order *)

Lemma setHas_In (x : str) (s : list str) : setHas x s = true <-> In x s.
Proof.
  unfold setHas; rewrite existsb_exists; split.
  - intros [y [Hy E]]. apply str_eqb_eq in E; now subst.
  - intros H; exists x; split; [assumption | apply str_eqb_refl].
Qed.

Lemma setAdd_In (s : list str) (x t : str) :
  In t (setAdd s x) <-> In t s \/ t = x.
Proof.
  unfold setAdd; destruct (setHas x s) eqn:H.
  - apply setHas_In in H; split; [now left | intros [Ht|Ht]; [assumption | now subst]].
  - rewrite in_app_iff; cbn; intuition congruence.
Qed.

Lemma setAdd_NoDup (s : list str) (x : str) : NoDup s -> NoDup (setAdd s x).
Proof.
  intros Hs; unfold setAdd; destruct (setHas x s) eqn:H; [assumption|].
  apply NoDup_app; [assumption | repeat constructor; easy |].
  intros y Hy [<-|[]].
  apply setHas_In in Hy; congruence.
Qed.

Lemma fold_setAdd_In (ts s : list str) (t : str) :
  In t (fold_left setAdd ts s) <-> In t s \/ In t ts.
Proof.
  revert s; induction ts as [|x ts IH]; intros s; cbn.
  - tauto.
  - rewrite IH, setAdd_In; intuition congruence.
Qed.

Lemma fold_setAdd_NoDup (ts s : list str) :
  NoDup s -> NoDup (fold_left setAdd ts s).
Proof.
  revert s; induction ts as [|x ts IH]; intros s Hs; cbn; [assumption|].
  now apply IH, setAdd_NoDup.
Qed.

(** *** One line *)

Lemma lineMatches_termsOn (ms : list Matcher) (line : str) :
  lineMatches ms line = (0 <? length (termsOn ms line))%nat.
Proof.
  unfold lineMatches, termsOn; induction ms as [|m ms IH]; cbn; [reflexivity|].
  destruct (test m line); cbn; [reflexivity | exact IH].
Qed.

Lemma termsOn_incl (ms : list Matcher) (line : str) :
  incl (termsOn ms line) (map term ms).
Proof.
  intros t Ht; unfold termsOn in Ht.
  apply in_map_iff in Ht as [m [<- Hm]].
  apply filter_In in Hm as [Hm _]. now apply in_map.
Qed.

(** The loop over the patterns, in closed form. *)
Lemma testLine_closed (ms : list Matcher) (line : str) (s : Scan) :
  testLine ms line s =
  (termsOn ms line,
   mkScan (matches s)
          (fold_left setAdd (termsOn ms line) (matchedTerms s))
          (fold_left countHit (termsOn ms line) (termHitCounts s))
          (truncated s)).
Proof.
  unfold testLine, termsOn.
  assert (H : forall acc s,
    fold_left
      (fun (acc : list str * Scan) matcher =>
         let (matchedOnLine, s) := acc in
         if test matcher line then
           (matchedOnLine ++ [term matcher],
            mkScan (matches s) (setAdd (matchedTerms s) (term matcher))
                   (countHit (termHitCounts s) (term matcher)) (truncated s))
         else acc)
      ms (acc, s) =
    (acc ++ map term (filter (fun m => test m line) ms),
     mkScan (matches s)
            (fold_left setAdd (map term (filter (fun m => test m line) ms))
                       (matchedTerms s))
            (fold_left countHit (map term (filter (fun m => test m line) ms))
                       (termHitCounts s))
            (truncated s))).
  { induction ms as [|m ms IH]; intros acc s0; cbn [fold_left filter map].
    - rewrite app_nil_r; now destruct s0.
    - destruct (test m line); cbn [map fold_left].
      + rewrite IH; cbn [matches matchedTerms termHitCounts truncated].
        now rewrite <- app_assoc.
      + apply IH. }
  apply (H [] s).
Qed.

(** The body of the loop over the lines, in closed form. *)
Lemma scanLine_closed (o : Options) (ms : list Matcher) (lines : list str)
  (index : nat) (line : str) (s : Scan) :
  scanLine o ms lines index line s =
  mkScan
    (if lineMatches ms line
     then matches s ++
          [mkMatch (Z.of_nat index + 1)
             (fold_left setAdd (termsOn ms line) [])
             (join [LF]
                (slice lines
                   (Z.max 0 (Z.of_nat index - contextLines o))
                   (Z.min (Z.of_nat (length lines))
                          (Z.of_nat index + contextLines o + 1))))]
     else matches s)
    (fold_left setAdd (termsOn ms line) (matchedTerms s))
    (fold_left countHit (termsOn ms line) (termHitCounts s))
    (truncated s).
Proof.
  unfold scanLine; rewrite testLine_closed, lineMatches_termsOn.
  destruct (0 <? length (termsOn ms line))%nat; reflexivity.
Qed.

Lemma scanLine_length (o : Options) (ms : list Matcher) (lines : list str)
  (index : nat) (line : str) (s : Scan) :
  length (matches (scanLine o ms lines index line s)) =
  (length (matches s) + if lineMatches ms line then 1 else 0)%nat.
Proof.
  rewrite scanLine_closed; cbn [matches].
  destruct (lineMatches ms line); [rewrite length_app; cbn; lia | lia].
Qed.

Lemma scanLine_truncated (o : Options) (ms : list Matcher) (lines : list str)
  (index : nat) (line : str) (s : Scan) :
  truncated (scanLine o ms lines index line s) = truncated s.
Proof. now rewrite scanLine_closed. Qed.

Lemma scanLine_outline (o : Options) (ms : list Matcher) (lines lines' : list str)
  (index : nat) (line : str) (s s' : Scan) :
  outline s = outline s' ->
  outline (scanLine o ms lines index line s) =
  outline (scanLine o ms lines' index line s').
Proof.
  unfold outline; intros [= Hm Ht Hc Hf].
  rewrite !scanLine_closed; cbn [matches matchedTerms termHitCounts truncated].
  rewrite Ht, Hc, Hf.
  destruct (lineMatches ms line); [|now rewrite Hm].
  now rewrite !map_app, Hm.
Qed.

Lemma outline_length (s s' : Scan) :
  outline s = outline s' -> length (matches s) = length (matches s').
Proof.
  unfold outline; intros [= Hm _ _ _].
  apply (f_equal (@length _)) in Hm. now rewrite !length_map in Hm.
Qed.

(** *** The lines of one transcript *)

(** The outline of a scan does not depend on the lines around. *)
Lemma scanFrom_outline (o : Options) (ms : list Matcher) (lines lines' : list str) :
  forall (rest : list str) (index : nat) (s s' : Scan),
    outline s = outline s' ->
    outline (scanFrom o ms lines index rest s) =
    outline (scanFrom o ms lines' index rest s').
Proof.
  induction rest as [|line rest IH]; intros index s s' H; cbn [scanFrom].
  - exact H.
  - pose proof (scanLine_outline o ms lines lines' index line H) as H1.
    unfold capReached; rewrite (outline_length H1).
    destruct (maxMatchesPerEpisode o <=?
              Z.of_nat (length (matches (scanLine o ms lines' index line s')))).
    + unfold outline in *; cbn [matches matchedTerms termHitCounts truncated].
      injection H1 as -> -> -> _. reflexivity.
    + now apply IH.
Qed.

(** Once the cap is reached no later line is read. *)
Lemma scanFrom_stops (o : Options) (ms : list Matcher) (lines : list str)
  (later : list str) :
  forall (rest : list str) (index : nat) (s : Scan),
    truncated s = false ->
    truncated (scanFrom o ms lines index rest s) = true ->
    scanFrom o ms lines index (rest ++ later) s =
    scanFrom o ms lines index rest s.
Proof.
  induction rest as [|line rest IH]; intros index s Hs Ht; cbn [scanFrom app] in *.
  - congruence.
  - destruct (capReached o (scanLine o ms lines index line s)); [reflexivity|].
    apply IH; [now rewrite scanLine_truncated | assumption].
Qed.

(** The number of matches recorded when the cap is positive. *)
Lemma scanFrom_count (o : Options) (ms : list Matcher) (lines : list str) :
  forall (rest : list str) (index : nat) (s : Scan),
    truncated s = false ->
    Z.of_nat (length (matches s)) < maxMatchesPerEpisode o ->
    let r := scanFrom o ms lines index rest s in
    let n := (length (matches s) + length (matchingLines ms rest))%nat in
    Z.of_nat (length (matches r)) = Z.min (Z.of_nat n) (maxMatchesPerEpisode o) /\
    (truncated r = true <-> maxMatchesPerEpisode o <= Z.of_nat n).
Proof.
  induction rest as [|line rest IH]; intros index s Hs Hlt; cbn [scanFrom].
  - cbn [matchingLines filter length]; rewrite Nat.add_0_r, Hs; split; [lia | split; [discriminate | lia]].
  - unfold capReached, matchingLines; cbn [filter].
    fold (matchingLines ms rest).
    pose proof (scanLine_length o ms lines index line s) as Hlen.
    destruct (maxMatchesPerEpisode o <=?
              Z.of_nat (length (matches (scanLine o ms lines index line s))))
      eqn:Hcap.
    + apply Z.leb_le in Hcap; cbn [matches truncated].
      destruct (lineMatches ms line); cbn [length] in *; split;
        try lia; split; try easy; lia.
    + apply Z.leb_gt in Hcap.
      destruct (IH (S index) (scanLine o ms lines index line s)) as [H1 H2];
        [now rewrite scanLine_truncated | assumption |].
      rewrite Hlen in H1, H2.
      destruct (lineMatches ms line); cbn [length] in *; split;
        try lia; rewrite H2; lia.
Qed.

(** With a cap that is not positive the first line is the only one read. *)
Lemma scanFrom_cap_not_positive (o : Options) (ms : list Matcher)
  (lines : list str) (line : str) (rest : list str) (index : nat) (s : Scan) :
  maxMatchesPerEpisode o <= 0 ->
  scanFrom o ms lines index (line :: rest) s =
  let s1 := scanLine o ms lines index line s in
  mkScan (matches s1) (matchedTerms s1) (termHitCounts s1) true.
Proof.
  intros Hmax; cbn [scanFrom]; unfold capReached.
  now rewrite (proj2 (Z.leb_le _ _)) by lia.
Qed.

Lemma splitLines_not_nil (s : str) : splitLines s <> [].
Proof.
  induction s as [|c s IH]; cbn [splitLines]; [easy|].
  destruct (Ascii.eqb c LF); [easy|].
  destruct (Ascii.eqb c CR && match s with d :: _ => Ascii.eqb d LF | [] => false end);
    [exact IH|].
  destruct (splitLines s); easy.
Qed.

(** *** What the set of matched terms is *)

Lemma emptyScan_coherent (ms : list Matcher) : coherent ms emptyScan.
Proof.
  repeat split; cbn; try constructor; try easy.
  now intros [m [[] _]].
Qed.

Lemma scanLine_coherent (o : Options) (ms : list Matcher) (lines : list str)
  (index : nat) (line : str) (s : Scan) :
  coherent ms s -> coherent ms (scanLine o ms lines index line s).
Proof.
  intros [Hnd [Hincl Hiff]]; rewrite scanLine_closed.
  unfold coherent; cbn [matches matchedTerms]; split; [|split].
  - now apply fold_setAdd_NoDup.
  - intros t Ht; apply fold_setAdd_In in Ht as [Ht|Ht];
      [now apply Hincl | now apply (@termsOn_incl ms line)].
  - intros t; rewrite fold_setAdd_In, Hiff.
    rewrite lineMatches_termsOn.
    destruct (termsOn ms line) as [|t0 ts] eqn:E.
    + cbn; split; [now intros [H|[]] | now left].
    + change (0 <? length (t0 :: ts))%nat with true; cbn iota.
      split.
      * intros [[m [Hm Ht]]|Ht].
        -- exists m; split; [apply in_or_app; now left | assumption].
        -- eexists; split; [apply in_or_app; right; now left|].
           cbn [match_terms]. apply fold_setAdd_In; now right.
      * intros [m [Hm Ht]]. apply in_app_or in Hm as [Hm|[<-|[]]].
        -- left; now exists m.
        -- right. cbn [match_terms] in Ht.
           apply fold_setAdd_In in Ht as [[]|Ht]; assumption.
Qed.

Lemma scanFrom_coherent (o : Options) (ms : list Matcher) (lines : list str) :
  forall (rest : list str) (index : nat) (s : Scan),
    coherent ms s -> coherent ms (scanFrom o ms lines index rest s).
Proof.
  induction rest as [|line rest IH]; intros index s H; cbn [scanFrom];
    [assumption|].
  pose proof (scanLine_coherent o lines index line H) as H1.
  destruct (capReached o (scanLine o ms lines index line s)).
  - exact H1.
  - now apply IH.
Qed.

(** When as many terms were matched as there are patterns, every pattern
    matched on a recorded line. *)
Lemma coherent_covers (ms : list Matcher) (s : Scan) :
  coherent ms s ->
  (length ms <= length (matchedTerms s))%nat ->
  forall m, In m ms ->
    In (term m) (matchedTerms s) /\
    exists tm, In tm (matches s) /\ In (term m) (match_terms tm).
Proof.
  intros [Hnd [Hincl Hiff]] Hlen m Hm.
  assert (Hin : In (term m) (matchedTerms s)).
  { apply (@NoDup_length_incl _ (matchedTerms s) (map term ms));
      [assumption | now rewrite length_map | assumption | now apply in_map]. }
  split; [assumption | now apply Hiff].
Qed.

(** *** One transcript *)

Lemma scanTranscript_coherent (o : Options) (ms : list Matcher) (lines : list str) :
  coherent ms (scanTranscript o ms lines).
Proof. apply scanFrom_coherent, emptyScan_coherent. Qed.

(** With a positive cap, the number of matches recorded is the number of
    matching lines or the cap, whichever is less, and the flag is set exactly
    when there are as many matching lines as the cap allows, or more. *)
Lemma positive_cap_respected (o : Options) (ms : list Matcher) (lines : list str) :
  1 <= maxMatchesPerEpisode o ->
  let s := scanTranscript o ms lines in
  Z.of_nat (length (matches s)) =
    Z.min (Z.of_nat (length (matchingLines ms lines))) (maxMatchesPerEpisode o) /\
  (truncated s = true <->
   maxMatchesPerEpisode o <= Z.of_nat (length (matchingLines ms lines))).
Proof.
  intros Hmax.
  apply (scanFrom_count o ms lines lines 0 emptyScan); cbn; [reflexivity | lia].
Qed.

Lemma scanFrom_truncated_cap (o : Options) (ms : list Matcher) (lines : list str) :
  forall (rest : list str) (index : nat) (s : Scan),
    truncated s = false ->
    truncated (scanFrom o ms lines index rest s) = true ->
    maxMatchesPerEpisode o <=
    Z.of_nat (length (matches (scanFrom o ms lines index rest s))).
Proof.
  induction rest as [|line rest IH]; intros index s Hs; cbn [scanFrom].
  - congruence.
  - unfold capReached.
    destruct (maxMatchesPerEpisode o <=?
              Z.of_nat (length (matches (scanLine o ms lines index line s))))
      eqn:Hcap.
    + intros _; cbn [matches]. now apply Z.leb_le.
    + apply IH. now rewrite scanLine_truncated.
Qed.

Lemma episodeResult_allowed (o : Options) (mode : str) (ms : list Matcher)
  (hostIds : list Z) (ep : Episode) (text : str) :
  hostAllowed hostIds ep = true ->
  episodeResult o mode ms hostIds ep text =
  let s := scanTranscript o ms (splitLines text) in
  if (length (matches s) =? 0)%nat then None
  else if str_eqb mode (lit "all") &&
          (length (matchedTerms s) <? length ms)%nat
  then None
  else Some (mkResult ep (matches s)
               (mkSummary mode (matchedTerms s)
                          (Z.of_nat (length (matches s)))
                          (termHitCounts s) (truncated s))).
Proof.
  unfold hostAllowed, episodeResult; intros H.
  apply negb_true_iff in H. now rewrite H.
Qed.

Lemma episodeResult_some (o : Options) (mode : str) (ms : list Matcher)
  (hostIds : list Z) (ep : Episode) (text : str) (r : TranscriptResult) :
  episodeResult o mode ms hostIds ep text = Some r ->
  let s := scanTranscript o ms (splitLines text) in
  r = mkResult ep (matches s)
        (mkSummary mode (matchedTerms s) (Z.of_nat (length (matches s)))
                   (termHitCounts s) (truncated s)) /\
  matches s <> [] /\
  (mode = lit "all" -> (length ms <= length (matchedTerms s))%nat).
Proof.
  unfold episodeResult.
  destruct ((0 <? length hostIds)%nat &&
            negb (existsb (Z.eqb (hostid ep)) hostIds)); [discriminate|].
  destruct (length (matches (scanTranscript o ms (splitLines text))) =? 0)%nat
    eqn:Hlen; [discriminate|].
  destruct (str_eqb mode (lit "all") &&
            (length (matchedTerms (scanTranscript o ms (splitLines text)))
             <? length ms)%nat) eqn:Hall; [discriminate|].
  intros [= <-]; cbn zeta; split; [reflexivity | split].
  - apply Nat.eqb_neq in Hlen. now destruct (matches _).
  - intros ->. rewrite str_eqb_refl in Hall; cbn in Hall.
    now apply Nat.ltb_ge in Hall.
Qed.

(** *** All the transcripts *)

Lemma scanAll_kept (db : HPRDataLoader) (o : Options) (mode : str)
  (ms : list Matcher) (ids : list Z) (r : TranscriptResult) :
  forall (entries : list (Z * str)) (acc : list TranscriptResult),
    In r acc -> In r (scanAll db o mode ms ids entries acc).
Proof.
  induction entries as [|[episodeId text] entries IH]; intros acc H;
    cbn [scanAll]; [assumption|].
  destruct (limit o <=? Z.of_nat (length acc)); [assumption|].
  destruct (getEpisode db episodeId) as [ep|]; [|now apply IH].
  destruct (episodeResult o mode ms ids ep text); apply IH; [|assumption].
  apply in_or_app; now left.
Qed.

Lemma scanAll_In (db : HPRDataLoader) (o : Options) (mode : str)
  (ms : list Matcher) (ids : list Z) (r : TranscriptResult) :
  forall (entries : list (Z * str)) (acc : list TranscriptResult),
    In r (scanAll db o mode ms ids entries acc) ->
    In r acc \/
    exists episodeId text ep,
      In (episodeId, text) entries /\ getEpisode db episodeId = Some ep /\
      episodeResult o mode ms ids ep text = Some r.
Proof.
  induction entries as [|[episodeId text] entries IH]; intros acc H;
    cbn [scanAll] in H; [now left|].
  destruct (limit o <=? Z.of_nat (length acc)); [now left|].
  destruct (getEpisode db episodeId) as [ep|] eqn:Hep.
  - destruct (episodeResult o mode ms ids ep text) as [r'|] eqn:Hr.
    + destruct (IH _ H) as [Hin|[i [t [e [Hin [He Hres]]]]]].
      * apply in_app_or in Hin as [Hin|[<-|[]]]; [now left|].
        right; exists episodeId, text, ep; repeat split; [now left | assumption..].
      * right; exists i, t, e; repeat split; [now right | assumption..].
    + destruct (IH _ H) as [Hin|[i [t [e [Hin [He Hres]]]]]]; [now left|].
      right; exists i, t, e; repeat split; [now right | assumption..].
  - destruct (IH _ H) as [Hin|[i [t [e [Hin [He Hres]]]]]]; [now left|].
    right; exists i, t, e; repeat split; [now right | assumption..].
Qed.

(** The loop over a list of entries is the loop over its front followed by
    the loop over its back. *)
Lemma scanAll_app (db : HPRDataLoader) (o : Options) (mode : str)
  (ms : list Matcher) (ids : list Z) (back : list (Z * str)) :
  forall (front : list (Z * str)) (acc : list TranscriptResult),
    scanAll db o mode ms ids (front ++ back) acc =
    scanAll db o mode ms ids back (scanAll db o mode ms ids front acc).
Proof.
  induction front as [|[episodeId text] front IH]; intros acc;
    cbn [scanAll app]; [reflexivity|].
  destruct (limit o <=? Z.of_nat (length acc)) eqn:Hlim.
  - destruct back as [|[i t] back]; cbn [scanAll]; [reflexivity|].
    now rewrite Hlim.
  - destruct (getEpisode db episodeId) as [ep|]; [|apply IH].
    destruct (episodeResult o mode ms ids ep text); apply IH.
Qed.

(** An entry reached before the limit, with a result, has its result in
    the results. *)
Lemma scanAll_reached (db : HPRDataLoader) (o : Options) (mode : str)
  (ms : list Matcher) (ids : list Z) (episodeId : Z) (text : str)
  (ep : Episode) (r : TranscriptResult)
  (front back : list (Z * str)) :
  getEpisode db episodeId = Some ep ->
  episodeResult o mode ms ids ep text = Some r ->
  Z.of_nat (length (scanAll db o mode ms ids front [])) < limit o ->
  In r (scanAll db o mode ms ids (front ++ (episodeId, text) :: back) []).
Proof.
  intros Hep Hr Hlim.
  rewrite scanAll_app; cbn [scanAll].
  rewrite (proj2 (Z.leb_gt _ _)) by lia.
  rewrite Hep, Hr.
  apply scanAll_kept, in_or_app; right; now left.
Qed.

Lemma searchTranscripts_scanAll (db : HPRDataLoader) (query : str) (o : Options) :
  makeMatchers query o <> [] ->
  searchTranscripts db query o =
  scanAll db o (resolvedMatchMode query o) (makeMatchers query o)
          (resolvedHostIds db o) (transcripts db) [].
Proof.
  intros Hms; unfold searchTranscripts.
  destruct (effectiveTerms query o) as [|t ts] eqn:E.
  - exfalso; apply Hms; unfold makeMatchers; now rewrite E.
  - cbn [length Nat.eqb].
    destruct (makeMatchers query o); [easy | reflexivity].
Qed.

Lemma searchTranscripts_In (db : HPRDataLoader) (query : str) (o : Options)
  (r : TranscriptResult) :
  In r (searchTranscripts db query o) ->
  exists episodeId text ep,
    In (episodeId, text) (transcripts db) /\
    getEpisode db episodeId = Some ep /\
    episodeResult o (resolvedMatchMode query o) (makeMatchers query o)
                  (resolvedHostIds db o) ep text = Some r.
Proof.
  destruct (makeMatchers query o) as [|m ms] eqn:E.
  - unfold searchTranscripts; rewrite E.
    destruct (length (effectiveTerms query o) =? 0)%nat; easy.
  - rewrite searchTranscripts_scanAll by (rewrite E; easy).
    rewrite E; intros H.
    apply scanAll_In in H as [[]|H]; exact H.
Qed.

(** *** The match modes *)

(** C7, as amended.  Take a transcript whose episode is on record and passes
    the host filter, whose turn comes with fewer results found than the limit,
    in a search whose cap per episode is at least 1.  If some line of the
    transcript matches some pattern, the episode is in the results under mode
    [any], with the matches of its scan.  Under mode [all] an episode is in
    the results only if every pattern matched on one of its recorded lines,
    that is, only if the set of matched terms has every term searched for.
    With the terms "alpha" and "beta", an episode whose transcript has
    "alpha" and no "beta" is left out under [all] and returned under
    [any]. *)
Theorem transcript_match_modes :
  (forall (db : HPRDataLoader) (query : str) (o : Options)
          (front back : list (Z * str)) (episodeId : Z) (text : str)
          (ep : Episode),
      let ms := makeMatchers query o in
      resolvedMatchMode query o = lit "any" ->
      transcripts db = front ++ (episodeId, text) :: back ->
      getEpisode db episodeId = Some ep ->
      hostAllowed (resolvedHostIds db o) ep = true ->
      Z.of_nat (length (scanAll db o (lit "any") ms (resolvedHostIds db o)
                                front [])) < limit o ->
      1 <= maxMatchesPerEpisode o ->
      (exists line, In line (splitLines text) /\ lineMatches ms line = true) ->
      exists r,
        In r (searchTranscripts db query o) /\ r_episode r = ep /\
        r_matches r = matches (scanTranscript o ms (splitLines text))) /\
  (forall (db : HPRDataLoader) (query : str) (o : Options)
          (r : TranscriptResult),
      resolvedMatchMode query o = lit "all" ->
      In r (searchTranscripts db query o) ->
      forall m, In m (makeMatchers query o) ->
        In (term m) (ms_matchedTerms (matchSummary r)) /\
        exists tm, In tm (r_matches r) /\ In (term m) (match_terms tm)) /\
  (let ep := mkEpisode 1 (lit "2020-01-01") (lit "Greek") (lit "s") (lit "n")
                       (lit "t") 7 0 in
   let db := mkLoader [ep] []
               [(1, lit "alpha comes first" ++ [LF] ++ lit "and nothing else")] in
   let o mode := mkOptions 20 3 [lit "alpha"; lit "beta"] (lit mode)
                           None None false false 5 in
   searchTranscripts db [] (o "all"%string) = [] /\
   map (fun r => (id (r_episode r), ms_matchedTerms (matchSummary r)))
       (searchTranscripts db [] (o "any"%string)) = [(1, [lit "alpha"])]).
Proof.
  split; [|split].
  - intros db query o front back episodeId text ep ms Hmode Hdb Hep Hhost Hlim
           Hcap [line [Hline Hmatch]].
    assert (Hms : ms <> []).
    { intros E; rewrite E in Hmatch; discriminate. }
    pose proof (positive_cap_respected o ms (splitLines text) Hcap) as [Hlen _].
    assert (Hcount : (1 <= length (matchingLines ms (splitLines text)))%nat).
    { assert (Hl : In line (matchingLines ms (splitLines text)))
        by (apply filter_In; now split).
      destruct (matchingLines ms (splitLines text)); [easy | cbn; lia]. }
    pose proof (@episodeResult_allowed o (lit "any") ms
                  (resolvedHostIds db o) ep text Hhost) as Hres.
    cbn zeta in Hres.
    destruct (length (matches (scanTranscript o ms (splitLines text))) =? 0)%nat
      eqn:Hz; [apply Nat.eqb_eq in Hz; lia|].
    change (str_eqb (lit "any") (lit "all")) with false in Hres.
    cbn [andb] in Hres.
    match type of Hres with _ = Some ?r => exists r end.
    split; [|split; reflexivity].
    rewrite searchTranscripts_scanAll by exact Hms.
    rewrite Hmode, Hdb.
    now apply scanAll_reached with ep.
  - intros db query o r Hmode Hin m Hm.
    apply searchTranscripts_In in Hin as [episodeId [text [ep [_ [_ Hres]]]]].
    apply episodeResult_some in Hres as [-> [_ Hall]].
    cbn [matchSummary ms_matchedTerms r_matches].
    apply (@coherent_covers (makeMatchers query o));
      [apply scanTranscript_coherent | now apply Hall | exact Hm].
  - vm_compute. split; reflexivity.
Qed.

(** An episode with "alpha" on its second line, searched for "alpha" under
    [any] with the default cap. *)
Lemma transcript_match_modes_witness :
  let ep := mkEpisode 1 (lit "2020-01-01") (lit "Greek") (lit "s") (lit "n")
                      (lit "t") 7 0 in
  let text := lit "intro" ++ [LF] ++ lit "alpha" in
  let db := mkLoader [ep] [] [(1, text)] in
  let o := mkOptions 20 3 [lit "alpha"] (lit "any") None None false false 5 in
  resolvedMatchMode [] o = lit "any" /\
  transcripts db = [] ++ (1, text) :: [] /\
  getEpisode db 1 = Some ep /\
  hostAllowed (resolvedHostIds db o) ep = true /\
  Z.of_nat (length (scanAll db o (lit "any") (makeMatchers [] o)
                            (resolvedHostIds db o) [] [])) < limit o /\
  1 <= maxMatchesPerEpisode o /\
  (exists line, In line (splitLines text) /\
                lineMatches (makeMatchers [] o) line = true) /\
  exists r, In r (searchTranscripts db [] o) /\ r_episode r = ep /\
            r_matches r =
            matches (scanTranscript o (makeMatchers [] o) (splitLines text)).
Proof.
  intros ep text db o.
  assert (H1 : resolvedMatchMode [] o = lit "any") by reflexivity.
  assert (H2 : transcripts db = [] ++ (1, text) :: []) by reflexivity.
  assert (H3 : getEpisode db 1 = Some ep) by reflexivity.
  assert (H4 : hostAllowed (resolvedHostIds db o) ep = true) by reflexivity.
  assert (H5 : Z.of_nat (length (scanAll db o (lit "any") (makeMatchers [] o)
                                    (resolvedHostIds db o) [] [])) < limit o)
    by (cbn; lia).
  assert (H6 : 1 <= maxMatchesPerEpisode o) by (cbn; lia).
  assert (H7 : exists line, In line (splitLines text) /\
                            lineMatches (makeMatchers [] o) line = true).
  { exists (lit "alpha"); split; [right; now left | reflexivity]. }
  repeat (split; [assumption|]).
  exact (proj1 transcript_match_modes db [] o [] [] 1 text ep
               H1 H2 H3 H4 H5 H6 H7).
Defined.

(** C7, as stated, fails: with a cap of 0 the scan stops after the first
    line, so an episode whose only matching line is the second one is left
    out under [any]. *)
Lemma zero_cap_hides_later_match :
  let ep := mkEpisode 1 (lit "2020-01-01") (lit "Greek") (lit "s") (lit "n")
                      (lit "t") 7 0 in
  let text := lit "intro" ++ [LF] ++ lit "alpha" in
  let db := mkLoader [ep] [] [(1, text)] in
  let o := mkOptions 20 3 [lit "alpha"] (lit "any") None None false false 0 in
  resolvedMatchMode [] o = lit "any" /\
  In (lit "alpha") (splitLines text) /\
  lineMatches (makeMatchers [] o) (lit "alpha") = true /\
  getEpisode db 1 = Some ep /\
  searchTranscripts db [] o = [].
Proof. vm_compute. repeat split. right; now left. Qed.

Example phrase_is_one_pattern :
  let ep := mkEpisode 1 (lit "2020-01-01") (lit "VMs") (lit "s") (lit "n")
                      (lit "t") 7 0 in
  let text := lit "a virtual and a machine" ++ [LF] ++
              lit "a Virtual Machine here" in
  let o := mkOptions 20 0 [] (lit "phrase") None None false false 5 in
  map (fun r => map lineNumber (r_matches r))
      (searchTranscripts (mkLoader [ep] [] [(1, text)])
                         (lit "virtual machine") o) = [[2]].
Proof. reflexivity. Qed.

Example whole_word_needs_boundaries :
  test (mkMatcher (lit "alp") true true) (lit "an alpha") = false /\
  test (mkMatcher (lit "alpha") true true) (lit "an Alpha.") = true /\
  test (mkMatcher (lit "alpha") false false) (lit "an Alpha.") = false.
Proof. repeat split. Qed.

(** *** The cap on the matches of an episode *)

(** C8 at the failing input: with [maxMatchesPerEpisode = 0] and a
    transcript whose first line matches, one match is recorded and returned
    for the episode. *)
Theorem zero_cap_records_a_match :
  let ep := mkEpisode 1 (lit "2020-01-01") (lit "Greek") (lit "s") (lit "n")
                      (lit "t") 7 0 in
  let text := lit "alpha" ++ [LF] ++ lit "alpha again" in
  let db := mkLoader [ep] [] [(1, text)] in
  let o := mkOptions 20 3 [lit "alpha"] (lit "any") None None false false 0 in
  map (fun r => (id (r_episode r), map lineNumber (r_matches r),
                 totalMatches (matchSummary r),
                 ms_truncated (matchSummary r)))
      (searchTranscripts db [] o) = [(1, [1], 1, true)] /\
  maxMatchesPerEpisode o < 1.
Proof. vm_compute. split; reflexivity. Qed.

(** With a cap of 2 and five matching lines, two matches are returned and
    the flag is set. *)
Example cap_of_two :
  let ep := mkEpisode 1 (lit "2020-01-01") (lit "Greek") (lit "s") (lit "n")
                      (lit "t") 7 0 in
  let text := lit "alpha" ++ [LF] ++ lit "alpha" ++ [LF] ++ lit "none" ++ [LF]
              ++ lit "alpha" ++ [LF] ++ lit "alpha" ++ [LF] ++ lit "alpha" in
  let db := mkLoader [ep] [] [(1, text)] in
  let o := mkOptions 20 0 [lit "alpha"] (lit "any") None None false false 2 in
  length (matchingLines (makeMatchers [] o) (splitLines text)) = 5%nat /\
  map (fun r => (map lineNumber (r_matches r), ms_truncated (matchSummary r)))
      (searchTranscripts db [] o) = [([1; 2], true)].
Proof. vm_compute. split; reflexivity. Qed.

(** *** Where the scan stops *)

(** C10.  A scan that set the flag read nothing behind the line at which it
    did: whatever lines follow, the matches recorded (line numbers and
    terms), the set of matched terms, the counters and the flag are the same,
    and the flag is set only with as many matches recorded as the cap.  The
    flag is set also when the transcript has exactly as many matching lines
    as the cap, all of which are then recorded.  And under mode [all] an
    episode whose transcript has both terms searched for is left out when
    the cap is reached before the line with the second term, while a larger
    cap returns it. *)
Theorem scan_stops_at_cap :
  (forall (o : Options) (ms : list Matcher) (lines later : list str),
      truncated (scanTranscript o ms lines) = true ->
      outline (scanTranscript o ms (lines ++ later)) =
      outline (scanTranscript o ms lines) /\
      maxMatchesPerEpisode o <=
      Z.of_nat (length (matches (scanTranscript o ms lines)))) /\
  (forall (o : Options) (ms : list Matcher) (transcript : str),
      let lines := splitLines transcript in
      Z.of_nat (length (matchingLines ms lines)) = maxMatchesPerEpisode o ->
      truncated (scanTranscript o ms lines) = true /\
      length (matches (scanTranscript o ms lines)) =
      length (matchingLines ms lines)) /\
  (let ep := mkEpisode 1 (lit "2020-01-01") (lit "Greek") (lit "s") (lit "n")
                       (lit "t") 7 0 in
   let text := lit "alpha comes first" ++ [LF] ++ lit "beta comes last" in
   let db := mkLoader [ep] [] [(1, text)] in
   let o cap := mkOptions 20 3 [lit "alpha"; lit "beta"] (lit "all")
                          None None false false cap in
   Forall (fun m => exists line, In line (splitLines text) /\ test m line = true)
          (makeMatchers [] (o 1)) /\
   searchTranscripts db [] (o 1) = [] /\
   map (fun r => (id (r_episode r), ms_matchedTerms (matchSummary r),
                  ms_truncated (matchSummary r)))
       (searchTranscripts db [] (o 5)) = [(1, [lit "alpha"; lit "beta"], false)]).
Proof.
  split; [|split].
  - intros o ms lines later Ht; split.
    + unfold scanTranscript.
      assert (Hsame : outline (scanFrom o ms (lines ++ later) 0 lines emptyScan) =
                      outline (scanFrom o ms lines 0 lines emptyScan))
        by now apply scanFrom_outline.
      rewrite scanFrom_stops; [exact Hsame | reflexivity |].
      unfold outline in Hsame; injection Hsame as _ _ _ ->. exact Ht.
    + now apply scanFrom_truncated_cap.
  - intros o ms transcript lines Hcount.
    pose proof (splitLines_not_nil transcript) as Hne.
    fold lines in Hne; clearbody lines.
    destruct (Z.le_gt_cases 1 (maxMatchesPerEpisode o)) as [Hpos|Hzero].
    + pose proof (positive_cap_respected o ms lines Hpos) as [Hlen Htr].
      split; [apply Htr; lia | lia].
    + assert (Hnone : matchingLines ms lines = []).
      { destruct (matchingLines ms lines); [reflexivity | cbn in Hcount; lia]. }
      destruct lines as [|line rest]; [easy|].
      unfold scanTranscript.
      rewrite scanFrom_cap_not_positive by lia.
      cbn zeta; cbn [truncated matches].
      rewrite scanLine_length, Hnone.
      assert (Hline : lineMatches ms line = false).
      { destruct (lineMatches ms line) eqn:E; [|reflexivity].
        unfold matchingLines in Hnone; cbn [filter] in Hnone.
        now rewrite E in Hnone. }
      now rewrite Hline.
  - vm_compute. split; [|split; reflexivity].
    repeat constructor.
    + exists (lit "alpha comes first"); split; [now left | reflexivity].
    + exists (lit "beta comes last"); split; [right; now left | reflexivity].
Qed.

(** Two matching lines under a cap of 2, with a third line behind them. *)
Lemma scan_stops_at_cap_witness :
  let o := mkOptions 20 0 [] (lit "any") None None false false 2 in
  let ms := [mkMatcher (lit "alpha") true false] in
  let transcript := lit "alpha one" ++ [LF] ++ lit "alpha two" in
  let lines := splitLines transcript in
  Z.of_nat (length (matchingLines ms lines)) = maxMatchesPerEpisode o /\
  truncated (scanTranscript o ms lines) = true /\
  outline (scanTranscript o ms (lines ++ [lit "alpha three"])) =
  outline (scanTranscript o ms lines).
Proof.
  intros o ms transcript lines.
  assert (H2 : Z.of_nat (length (matchingLines ms lines)) = maxMatchesPerEpisode o)
    by reflexivity.
  pose proof (proj1 (proj2 scan_stops_at_cap) o ms transcript H2) as [H3 _].
  repeat (split; [assumption|]).
  exact (proj1 (proj1 scan_stops_at_cap o ms lines [lit "alpha three"] H3)).
Defined.

End TranscriptFacts.

(* ================================================================== *)
(** * Further properties *)
(* ================================================================== *)

Module MetricFacts.

Import JS Lev LevFacts.

(** *** The distance is a metric *)

Lemma edits_app (n m : nat) (x y z : str) :
  edits n x y -> edits m y z -> edits (n + m) x z.
Proof.
  induction 1 as [x|n x y' y Hxy _ IH]; intros H; [exact H|].
  cbn; apply edits_step with y'; [assumption | now apply IH].
Qed.

Lemma edit1_length (x y : str) :
  edit1 x y -> length y <= S (length x) /\ length x <= S (length y).
Proof.
  intros [c l r|c l r|c d l r]; rewrite !length_app; cbn [length]; lia.
Qed.

Lemma edits_length (n : nat) (x y : str) :
  edits n x y -> length y <= length x + n /\ length x <= length y + n.
Proof.
  induction 1 as [x|n x y z Hxy _ IH]; [lia|].
  apply edit1_length in Hxy; lia.
Qed.

Lemma lev_le_max (x y : str) : lev x y <= Nat.max (length x) (length y).
Proof.
  revert y; induction x as [|c x IH]; intros y.
  - rewrite lev_nil_l; lia.
  - destruct y as [|d y]; [rewrite lev_nil_r; lia|].
    pose proof (lev_cons_le c d x y); specialize (IH y); cbn [length]; lia.
Qed.

(** X1.  The distance between two strings is 0 only when they are equal, and
    the distance from [x] to [z] is at most the distance from [x] to [y]
    plus the distance from [y] to [z]. *)
Theorem levenshteinDistance_metric :
  (forall x y : str, levenshteinDistance x y = 0 <-> x = y) /\
  (forall x y z : str,
      levenshteinDistance x z <=
      levenshteinDistance x y + levenshteinDistance y z).
Proof.
  split.
  - intros x y; split; [apply levenshteinDistance_zero|].
    intros ->; apply levenshteinDistance_refl.
  - intros x y z.
    apply levenshteinDistance_least, edits_app with y;
      apply levenshteinDistance_reached.
Qed.

(** X2.  The distance is at least the difference of the two lengths and at
    most the greater of them. *)
Theorem levenshteinDistance_length_bounds :
  forall a b : str,
    length a - length b <= levenshteinDistance a b /\
    length b - length a <= levenshteinDistance a b /\
    levenshteinDistance a b <= Nat.max (length a) (length b).
Proof.
  intros a b.
  pose proof (edits_length (levenshteinDistance_reached a b)) as [H1 H2].
  repeat split; try lia.
  rewrite levenshteinDistance_lev.
  pose proof (lev_le_max (rev a) (rev b)) as H; rewrite !length_rev in H.
  exact H.
Qed.

End MetricFacts.

Module EpisodeFacts.

Import JS Lev Search Lookups LevFacts ListFacts SearchFacts.
Import MetricFacts.

Local Open Scope Z_scope.

(** *** Substrings and words *)

Lemma startsWith_nil (s : str) : startsWith [] s = true.
Proof. now destruct s. Qed.

Lemma startsWith_refl (s : str) : startsWith s s = true.
Proof. induction s as [|c s IH]; cbn; [reflexivity|]. now rewrite Ascii.eqb_refl. Qed.

Lemma includes_nil (s : str) : includes s [] = true.
Proof. destruct s; reflexivity. Qed.

Lemma includes_refl (s : str) : includes s s = true.
Proof. destruct s; cbn; [reflexivity|]. now rewrite Ascii.eqb_refl, startsWith_refl. Qed.

Lemma includes_cons (c : ascii) (s sub : str) :
  includes s sub = true -> includes (c :: s) sub = true.
Proof. intros H; cbn [includes]; rewrite H; apply orb_true_r. Qed.

(** The first field of a split is the front of the string. *)
Lemma splitSpaces_head (s : str) :
  exists w ws, splitSpacesFrom false s = w :: ws /\ startsWith w s = true.
Proof.
  induction s as [|c s IH]; cbn [splitSpacesFrom].
  - now exists [], [].
  - destruct (isSpace c).
    + eexists [], _; split; [reflexivity | apply startsWith_nil].
    + destruct IH as [w [ws [E H]]]; rewrite E.
      exists (c :: w), ws; split; [reflexivity|].
      cbn; now rewrite Ascii.eqb_refl.
Qed.

(** Every field of a split occurs in the string. *)
Lemma splitSpaces_includes (s : str) :
  forall (inRun : bool) (w : str),
    In w (splitSpacesFrom inRun s) -> includes s w = true.
Proof.
  induction s as [|c s IH]; intros inRun w; cbn [splitSpacesFrom].
  - intros [<-|[]]; reflexivity.
  - destruct (isSpace c).
    + destruct inRun.
      * intros H; apply includes_cons; now apply (IH true).
      * intros [<-|H]; [apply includes_nil|].
        apply includes_cons; now apply (IH true).
    + destruct (splitSpaces_head s) as [w0 [ws [E H0]]]; rewrite E.
      intros [<-|H].
      * cbn [includes startsWith]; now rewrite Ascii.eqb_refl, H0.
      * apply includes_cons, (IH false); rewrite E; now right.
Qed.

(** *** What searchEpisodes returns *)

Lemma sortedResults_In (lc : str -> str -> Z) (db : HPRDataLoader)
  (query : str) (o : EpisodeOptions) (r : EpisodeMatch) :
  In r (sortedResults lc db query o) ->
  In (episode r) (episodes db) /\ matchesFilters o (episode r) = true /\
  (matchType r = exact /\ matchDistance r = None /\
   matchesQuery query (toLowerCase query) (episode r) = true
   \/
   fuzzyRuns (exactResults db query o) query = true /\
   matchType r = fuzzy /\
   exists d, matchDistance r = Some (Fin d) /\
             leastDistance (toLowerCase query)
               (splitSpaces (toLowerCase (title (episode r)))) d /\
             Z.of_nat d <= maxDistance o).
Proof.
  unfold sortedResults; rewrite sortBy_In.
  destruct (fuzzyRuns (exactResults db query o) query) eqn:Hr.
  - intros H; apply fuzzyResults_In in H as [ep [d [Hin [Hf [Hd [Hle ->]]]]]].
    cbn [episode matchType matchDistance].
    split; [assumption | split; [assumption | right]].
    split; [reflexivity | split; [reflexivity|]].
    exists d; split; [reflexivity | split; assumption].
  - intros H; apply in_map_iff in H as [ep [<- Hep]].
    apply filter_In in Hep as [Hin Hq]. apply andb_true_iff in Hq as [Hq Hf].
    cbn [episode matchType matchDistance].
    split; [assumption | split; [assumption | left]]. now repeat split.
Qed.

Lemma getEpisode_found (db : HPRDataLoader) (ep : Episode) :
  In ep (episodes db) ->
  exists ep', getEpisode db (id ep) = Some ep' /\ id ep' = id ep /\
              In ep' (episodes db).
Proof.
  intros Hin; unfold getEpisode.
  destruct (find (fun e => id e =? id ep) (episodes db)) as [ep'|] eqn:E.
  - apply find_some in E as [Hin' Hid]. apply Z.eqb_eq in Hid.
    now exists ep'.
  - apply (find_none _ _ E) in Hin. now rewrite Z.eqb_refl in Hin.
Qed.

(** X3.  Every episode returned by [searchEpisodes] is an episode of the
    corpus that passes the filters, whichever pass found it, and [getEpisode]
    finds an episode under its id. *)
Theorem searchEpisodes_results_are_filtered_episodes :
  forall (localeCompare : str -> str -> Z) (db : HPRDataLoader) (query : str)
         (o : EpisodeOptions) (r : EpisodeMatch),
    In r (searchEpisodes localeCompare db query o) ->
    In (episode r) (episodes db) /\
    matchesFilters o (episode r) = true /\
    exists ep, getEpisode db (id (episode r)) = Some ep /\
               id ep = id (episode r).
Proof.
  intros lc db query o r Hin.
  apply slice_incl, sortedResults_In in Hin as [Hep [Hf _]].
  split; [assumption | split; [assumption|]].
  destruct (getEpisode_found db _ Hep) as [ep' [E [Hid _]]]. now exists ep'.
Qed.

Lemma searchEpisodes_results_are_filtered_episodes_witness :
  let e1 := mkEpisode 1 (lit "2019-05-01") (lit "Vim") (lit "s") (lit "n") (lit "t") 7 0 in
  let e2 := mkEpisode 2 (lit "2021-03-09") (lit "Emacs") (lit "s") (lit "n") (lit "t") 8 0 in
  let db := mkLoader [e1; e2] [] [] in
  let o := mkEpisodeOptions 20 (Some 7) None None None None 3 in
  In (mkEpisodeMatch e1 exact None) (searchEpisodes codeUnitCompare db [] o) /\
  matchesFilters o e1 = true.
Proof.
  intros e1 e2 db o.
  assert (H : In (mkEpisodeMatch e1 exact None)
                 (searchEpisodes codeUnitCompare db [] o)) by (now left).
  split; [exact H|].
  exact (proj1 (proj2 (searchEpisodes_results_are_filtered_episodes
                         codeUnitCompare db [] o _ H))).
Defined.

(** X4.  A fuzzy result of [searchEpisodes] carries a distance that is at
    least 1 and at most [maxDistance]: a title with a word equal to the
    lower-cased query is found by the exact pass. *)
Theorem searchEpisodes_fuzzy_distance_positive :
  forall (localeCompare : str -> str -> Z) (db : HPRDataLoader) (query : str)
         (o : EpisodeOptions) (r : EpisodeMatch),
    In r (searchEpisodes localeCompare db query o) ->
    matchType r = fuzzy ->
    exists d, matchDistance r = Some (Fin d) /\
              (1 <= d)%nat /\ Z.of_nat d <= maxDistance o.
Proof.
  intros lc db query o r Hin Hfz.
  apply slice_incl, sortedResults_In in Hin as [Hep [Hf [[Hex _]|[Hruns [_ Hd]]]]];
    [congruence|].
  destruct Hd as [d [E [[[w [Hw Hlev]] _] Hle]]].
  exists d; split; [assumption | split; [|assumption]].
  destruct d as [|d]; [|lia]. exfalso.
  apply levenshteinDistance_zero in Hlev; subst w.
  apply splitSpaces_includes in Hw.
  apply fuzzyRuns_spec in Hruns as [Hnil _].
  assert (Hhit : In (mkEpisodeMatch (episode r) exact None)
                    (exactResults db query o)).
  { unfold exactResults. apply in_map_iff; exists (episode r).
    split; [reflexivity|]. apply filter_In; split; [assumption|].
    unfold matchesQuery. rewrite Hw, Hf. now rewrite orb_true_r. }
  now rewrite Hnil in Hhit.
Qed.

Lemma searchEpisodes_fuzzy_distance_positive_witness :
  let ep := mkEpisode 1 (lit "2020-01-01") (lit "Intro to Linux") (lit "s")
                      (lit "n") (lit "t") 7 0 in
  let db := mkLoader [ep] [] [] in
  let r := mkEpisodeMatch ep fuzzy (Some (Fin 1)) in
  In r (searchEpisodes codeUnitCompare db (lit "linx") defaultEpisodeOptions) /\
  matchType r = fuzzy /\
  exists d, matchDistance r = Some (Fin d) /\ (1 <= d)%nat /\
            Z.of_nat d <= maxDistance defaultEpisodeOptions.
Proof.
  intros ep db r.
  assert (H : In r (searchEpisodes codeUnitCompare db (lit "linx")
                                   defaultEpisodeOptions))
    by (vm_compute; left; reflexivity).
  split; [exact H | split; [reflexivity|]].
  exact (searchEpisodes_fuzzy_distance_positive codeUnitCompare db (lit "linx")
           defaultEpisodeOptions r H eq_refl).
Defined.

(** X5.  With the empty query the fuzzy pass never runs and the episodes
    the results are taken from are all the episodes that pass the filters,
    each once, tagged exact; with the default options these are all the
    episodes of the corpus. *)
Theorem searchEpisodes_empty_query_lists_all :
  forall (localeCompare : str -> str -> Z) (db : HPRDataLoader)
         (o : EpisodeOptions),
    fuzzyRuns (exactResults db [] o) [] = false /\
    Permutation (sortedResults localeCompare db [] o)
                (map (fun ep => mkEpisodeMatch ep exact None)
                     (filter (matchesFilters o) (episodes db))) /\
    Permutation (sortedResults localeCompare db [] defaultEpisodeOptions)
                (map (fun ep => mkEpisodeMatch ep exact None) (episodes db)).
Proof.
  intros lc db o.
  assert (Hruns : forall o', fuzzyRuns (exactResults db [] o') [] = false).
  { intros o'; unfold fuzzyRuns; cbn. now rewrite andb_false_r. }
  assert (Hgen : forall o',
             Permutation (sortedResults lc db [] o')
               (map (fun ep => mkEpisodeMatch ep exact None)
                    (filter (matchesFilters o') (episodes db)))).
  { intros o'; unfold sortedResults; rewrite Hruns, sortBy_perm.
    unfold exactResults, matchesQuery; cbn [isEmpty orb andb].
    reflexivity. }
  split; [apply Hruns | split; [apply Hgen|]].
  rewrite Hgen.
  assert (Hall : filter (matchesFilters defaultEpisodeOptions) (episodes db)
                 = episodes db).
  { apply forallb_filter_id, forallb_forall; intros ep _; reflexivity. }
  now rewrite Hall.
Qed.

End EpisodeFacts.

Module HostFacts.

Import JS Lev Search Lookups LevFacts ListFacts SearchFacts.
Import MetricFacts EpisodeFacts.

Local Open Scope Z_scope.

(** *** What searchHosts returns *)

Lemma searchHosts_cases (db : HPRDataLoader) (query : str) (maxDistance : Z) :
  let q := toLowerCase query in
  (filter (hostContains q) (hosts db) <> [] /\
   searchHosts db query maxDistance =
   map (fun h => mkHostMatch h exact None) (filter (hostContains q) (hosts db)))
  \/
  (filter (hostContains q) (hosts db) = [] /\
   searchHosts db query maxDistance =
   map (fun r => mkHostMatch (hc_host r) fuzzy (Some (hc_distance r)))
     (sortBy byDistance
        (filter (fun r => Z.of_nat (hc_distance r) <=? maxDistance)
           (map (fun h => mkHostCandidate h (hostMinDistance q h)) (hosts db))))).
Proof.
  intros q; unfold searchHosts; fold q.
  destruct (filter (hostContains q) (hosts db)) as [|h l] eqn:E.
  - right; split; reflexivity.
  - left; split; [easy | reflexivity].
Qed.

Lemma filter_nil_none (A : Type) (p : A -> bool) (l : list A) (x : A) :
  filter p l = [] -> In x l -> p x = false.
Proof.
  intros Hnil Hin. destruct (p x) eqn:E; [|reflexivity].
  assert (H : In x (filter p l)) by (apply filter_In; now split).
  now rewrite Hnil in H.
Qed.

(** X6.  Every host returned by [searchHosts] is a host of the corpus; an
    exact result has the lower-cased query in its lower-cased name or
    address, and a fuzzy result carries a distance that is at least 1 and at
    most [maxDistance]. *)
Theorem searchHosts_results :
  forall (db : HPRDataLoader) (query : str) (maxDistance : Z) (r : HostMatch),
    In r (searchHosts db query maxDistance) ->
    In (hm_host r) (hosts db) /\
    match hm_matchType r with
    | exact =>
        hm_matchDistance r = None /\
        (includes (toLowerCase (host (hm_host r))) (toLowerCase query) = true \/
         includes (toLowerCase (email (hm_host r))) (toLowerCase query) = true)
    | fuzzy =>
        exists d, hm_matchDistance r = Some d /\
                  (1 <= d)%nat /\ Z.of_nat d <= maxDistance
    end.
Proof.
  intros db query maxDistance r.
  destruct (searchHosts_cases db query maxDistance) as [[_ ->]|[Hnil ->]];
    intros Hin.
  - apply in_map_iff in Hin as [h [<- Hh]].
    apply filter_In in Hh as [Hin Hc]; cbn.
    split; [assumption | split; [reflexivity|]].
    now apply orb_true_iff in Hc.
  - apply in_map_iff in Hin as [c [<- Hc]].
    apply sortBy_In, filter_In in Hc as [Hc Hle].
    apply in_map_iff in Hc as [h [<- Hin]]; cbn in *.
    split; [assumption|].
    exists (hostMinDistance (toLowerCase query) h).
    split; [reflexivity | split; [|now apply Z.leb_le]].
    pose proof (filter_nil_none _ _ h Hnil Hin) as Hnot.
    unfold hostContains in Hnot; apply orb_false_iff in Hnot as [Hn He].
    unfold hostMinDistance.
    destruct (levenshteinDistance (toLowerCase query) (toLowerCase (host h)))
      eqn:E1.
    { apply levenshteinDistance_zero in E1. rewrite <- E1, includes_refl in Hn.
      discriminate. }
    destruct (levenshteinDistance (toLowerCase query) (toLowerCase (email h)))
      eqn:E2.
    { apply levenshteinDistance_zero in E2. rewrite <- E2, includes_refl in He.
      discriminate. }
    lia.
Qed.

Lemma searchHosts_results_witness :
  let h := mkHost 7 (lit "klaatu") (lit "k@example.org") in
  let db := mkLoader [] [h] [] in
  let r := mkHostMatch h fuzzy (Some 1%nat) in
  In r (searchHosts db (lit "klattu") 2) /\ In (hm_host r) (hosts db).
Proof.
  intros h db r.
  assert (H : In r (searchHosts db (lit "klattu") 2))
    by (vm_compute; left; reflexivity).
  split; [exact H|].
  exact (proj1 (searchHosts_results db (lit "klattu") 2 r H)).
Defined.

(** X7.  For the empty query [searchHosts] returns every host of the corpus,
    in the order of the corpus, tagged exact. *)
Theorem searchHosts_empty_query :
  forall (db : HPRDataLoader) (maxDistance : Z),
    searchHosts db [] maxDistance =
    map (fun h => mkHostMatch h exact None) (hosts db).
Proof.
  intros db maxDistance.
  assert (Hall : filter (hostContains (toLowerCase [])) (hosts db) = hosts db).
  { apply forallb_filter_id, forallb_forall; intros h _.
    unfold hostContains; cbn [toLowerCase map]. now rewrite includes_nil. }
  destruct (searchHosts_cases db [] maxDistance) as [[_ ->]|[Hnil ->]].
  - now rewrite Hall.
  - rewrite Hall in Hnil; now rewrite Hnil.
Qed.

(** *** The host of get_host_info *)

Lemma hd_error_map_filter (A B : Type) (f : A -> B) (p : A -> bool) (l : list A) :
  hd_error (map f (filter p l)) = option_map f (find p l).
Proof.
  induction l as [|x l IH]; cbn; [reflexivity|].
  destruct (p x); [reflexivity | exact IH].
Qed.

Lemma sorted_head_least (l : list HostCandidate) (c : HostCandidate) :
  hd_error (sortBy byDistance l) = Some c ->
  In c l /\ forall c', In c' l -> (hc_distance c <= hc_distance c')%nat.
Proof.
  intros H.
  pose proof (byDistance_sorted l) as Hs.
  destruct (sortBy byDistance l) as [|c0 rest] eqn:E; [discriminate|].
  injection H as ->.
  assert (Hc : In c (sortBy byDistance l)) by (rewrite E; now left).
  split; [now apply sortBy_In in Hc|].
  intros c' Hc'. apply (sortBy_In byDistance) in Hc'. rewrite E in Hc'.
  inversion Hs as [|? ? _ Hall]; subst.
  destruct Hc' as [<-|Hc']; [lia|].
  rewrite Forall_forall in Hall; now apply Hall.
Qed.

(** X8.  The host that [get_host_info] resolves from a name alone is the
    first host of the corpus whose lower-cased name or address contains the
    lower-cased name given, when there is one.  When there is none, it is a
    host at the least distance from the name among all hosts, provided that
    distance is at most 2; and no host is resolved exactly when every host
    is farther than 2. *)
Theorem resolveHost_by_name :
  forall (db : HPRDataLoader) (name : str),
    name <> [] ->
    let q := toLowerCase name in
    ((exists h, In h (hosts db) /\ hostContains q h = true) ->
       resolveHost db None (Some name) = find (hostContains q) (hosts db)) /\
    ((forall h, In h (hosts db) -> hostContains q h = false) ->
       match resolveHost db None (Some name) with
       | Some h =>
           In h (hosts db) /\
           (hostMinDistance q h <= 2)%nat /\
           forall h', In h' (hosts db) ->
                      (hostMinDistance q h <= hostMinDistance q h')%nat
       | None =>
           forall h', In h' (hosts db) -> (2 < hostMinDistance q h')%nat
       end).
Proof.
  intros db name Hne q.
  assert (Hres : resolveHost db None (Some name) =
                 option_map hm_host
                   (hd_error (searchHosts db name defaultHostMaxDistance))).
  { unfold resolveHost, firstFound, truthyStr.
    destruct name; [contradiction | reflexivity]. }
  rewrite Hres; split.
  - intros [h [Hin Hc]].
    destruct (searchHosts_cases db name defaultHostMaxDistance)
      as [[_ ->]|[Hnil _]].
    + fold q. rewrite hd_error_map_filter.
      destruct (find (hostContains q) (hosts db)); reflexivity.
    + fold q in Hnil. now rewrite (filter_nil_none _ _ h Hnil Hin) in Hc.
  - intros Hnone.
    destruct (searchHosts_cases db name defaultHostMaxDistance)
      as [[Hex _]|[_ ->]].
    + exfalso; apply Hex; fold q.
      destruct (filter (hostContains q) (hosts db)) as [|h l] eqn:E;
        [reflexivity|].
      assert (Hh : In h (filter (hostContains q) (hosts db)))
        by (rewrite E; now left).
      apply filter_In in Hh as [Hin Hc]. now rewrite (Hnone h Hin) in Hc.
    + fold q.
      set (cands := filter (fun r => Z.of_nat (hc_distance r) <=? defaultHostMaxDistance)
                      (map (fun h => mkHostCandidate h (hostMinDistance q h))
                           (hosts db))).
      assert (Hcand : forall h, In h (hosts db) ->
                (hostMinDistance q h <= 2)%nat ->
                In (mkHostCandidate h (hostMinDistance q h)) cands).
      { intros h Hin Hle; apply filter_In; split.
        - apply in_map_iff; now exists h.
        - apply Z.leb_le; cbn; unfold defaultHostMaxDistance; lia. }
      destruct (sortBy byDistance cands) as [|c rest] eqn:E; cbn.
      * intros h' Hin'.
        destruct (Nat.le_gt_cases (hostMinDistance q h') 2) as [Hle|Hgt];
          [|assumption].
        apply Hcand in Hle; [|assumption].
        apply (sortBy_In byDistance) in Hle. now rewrite E in Hle.
      * assert (Hhd : hd_error (sortBy byDistance cands) = Some c)
          by now rewrite E.
        apply sorted_head_least in Hhd as [Hc Hleast].
        apply filter_In in Hc as [Hc Hle].
        apply in_map_iff in Hc as [h [<- Hin]]; cbn in *.
        apply Z.leb_le in Hle; unfold defaultHostMaxDistance in Hle.
        split; [assumption | split; [lia|]].
        intros h' Hin'.
        destruct (Nat.le_gt_cases (hostMinDistance q h') 2) as [Hle'|Hgt];
          [|lia].
        apply (Hleast _ (Hcand h' Hin' Hle')).
Qed.

Lemma resolveHost_by_name_witness :
  let h1 := mkHost 7 (lit "klaatu") (lit "k@example.org") in
  let h2 := mkHost 8 (lit "Ken Fallon") (lit "ken@example.org") in
  let db := mkLoader [] [h1; h2] [] in
  lit "fallon" <> [] /\
  (exists h, In h (hosts db) /\ hostContains (toLowerCase (lit "fallon")) h = true) /\
  resolveHost db None (Some (lit "fallon")) = Some h2.
Proof.
  intros h1 h2 db.
  assert (H1 : lit "fallon" <> []) by discriminate.
  assert (H2 : exists h, In h (hosts db) /\
                         hostContains (toLowerCase (lit "fallon")) h = true).
  { exists h2; split; [right; now left | reflexivity]. }
  split; [exact H1 | split; [exact H2|]].
  exact (proj1 (resolveHost_by_name db H1) H2).
Defined.

(** *** Statistics *)

Lemma str_lt_false_ge (a b : str) : str_lt a b = false -> compareStr b a <> Gt.
Proof.
  unfold str_lt; rewrite (compareStr_opp a b).
  destruct (compareStr a b); cbn; easy.
Qed.

Lemma str_lt_true_le (a b : str) : str_lt a b = true -> compareStr a b <> Gt.
Proof. unfold str_lt; destruct (compareStr a b); easy. Qed.

Lemma compareStr_refl (a : str) : compareStr a a = Eq.
Proof. induction a as [|c a IH]; cbn; [reflexivity|]. now rewrite N.compare_refl. Qed.

Lemma least_date_fold (l : list Episode) :
  forall (init m : str),
    m = fold_left (fun min ep => if str_lt (date ep) min then date ep else min)
                  l init ->
    (m = init \/ exists ep, In ep l /\ date ep = m) /\
    compareStr m init <> Gt /\
    forall ep, In ep l -> compareStr m (date ep) <> Gt.
Proof.
  induction l as [|ep l IH]; intros init m Hm; cbn [fold_left] in Hm.
  - subst m; split; [now left | split; [now rewrite compareStr_refl | easy]].
  - destruct (str_lt (date ep) init) eqn:E.
    + destruct (IH (date ep) m Hm) as [Hin [Hi Hall]]; split; [|split].
      * right. destruct Hin as [Heq|[ep' [Hin Hd]]].
        -- exists ep; split; [now left | now symmetry].
        -- exists ep'; split; [now right | assumption].
      * eapply compareStr_le_trans; [exact Hi | apply str_lt_true_le; exact E].
      * intros ep' [<-|Hin']; [exact Hi | now apply Hall].
    + destruct (IH init m Hm) as [Hin [Hi Hall]]; split; [|split].
      * destruct Hin as [Heq|[ep' [Hin Hd]]]; [now left | right].
        exists ep'; split; [now right | assumption].
      * exact Hi.
      * intros ep' [<-|Hin']; [|now apply Hall].
        eapply compareStr_le_trans; [exact Hi | apply str_lt_false_ge; exact E].
Qed.

Lemma greatest_date_fold (l : list Episode) :
  forall (init m : str),
    m = fold_left (fun max ep => if str_gt (date ep) max then date ep else max)
                  l init ->
    (m = init \/ exists ep, In ep l /\ date ep = m) /\
    compareStr init m <> Gt /\
    forall ep, In ep l -> compareStr (date ep) m <> Gt.
Proof.
  induction l as [|ep l IH]; intros init m Hm; cbn [fold_left] in Hm.
  - subst m; split; [now left | split; [now rewrite compareStr_refl | easy]].
  - destruct (str_gt (date ep) init) eqn:E; unfold str_gt in E.
    + destruct (IH (date ep) m Hm) as [Hin [Hi Hall]]; split; [|split].
      * right. destruct Hin as [Heq|[ep' [Hin Hd]]].
        -- exists ep; split; [now left | now symmetry].
        -- exists ep'; split; [now right | assumption].
      * eapply compareStr_le_trans; [apply str_lt_true_le; exact E | exact Hi].
      * intros ep' [<-|Hin']; [exact Hi | now apply Hall].
    + destruct (IH init m Hm) as [Hin [Hi Hall]]; split; [|split].
      * destruct Hin as [Heq|[ep' [Hin Hd]]]; [now left | right].
        exists ep'; split; [now right | assumption].
      * exact Hi.
      * intros ep' [<-|Hin']; [|now apply Hall].
        eapply compareStr_le_trans; [apply str_lt_false_ge; exact E | exact Hi].
Qed.

(** X9.  The date range of [getStats] is made of two dates of the corpus,
    the first not after any date of an episode and the second not before any,
    in the order of code units; for a corpus without episodes both are the
    empty string. *)
Theorem getStats_dateRange :
  forall db : HPRDataLoader,
    let (first, last) := dateRange (getStats db) in
    (episodes db = [] -> first = [] /\ last = []) /\
    (episodes db <> [] ->
       (exists ep, In ep (episodes db) /\ date ep = first) /\
       (exists ep, In ep (episodes db) /\ date ep = last)) /\
    (forall ep, In ep (episodes db) ->
       str_le first (date ep) = true /\ str_le (date ep) last = true).
Proof.
  intros db; cbn [getStats dateRange].
  unfold earliest, latest, firstDate.
  destruct (episodes db) as [|ep0 l] eqn:E.
  - cbn; split; [easy | split; easy].
  - rewrite <- E.
    pose proof (least_date_fold (episodes db) (date ep0) eq_refl)
      as [Hm1 [_ H1]].
    pose proof (greatest_date_fold (episodes db) (date ep0) eq_refl)
      as [Hm2 [_ H2]].
    assert (H0 : In ep0 (episodes db)) by (rewrite E; now left).
    split; [rewrite E; easy | split].
    + intros _; split.
      * destruct Hm1 as [Heq|H]; [exists ep0; split; [assumption | now symmetry] | exact H].
      * destruct Hm2 as [Heq|H]; [exists ep0; split; [assumption | now symmetry] | exact H].
    + intros ep Hin; unfold str_le; split.
      * specialize (H1 ep Hin). now destruct (compareStr _ (date ep)).
      * specialize (H2 ep Hin). now destruct (compareStr (date ep) _).
Qed.

Lemma getStats_dateRange_witness :
  let e1 := mkEpisode 1 (lit "2019-05-01") (lit "Vim") (lit "s") (lit "n") (lit "t") 7 0 in
  let e2 := mkEpisode 2 (lit "2021-03-09") (lit "Emacs") (lit "s") (lit "n") (lit "t") 8 0 in
  let e3 := mkEpisode 3 (lit "2008-01-15") (lit "Ed") (lit "s") (lit "n") (lit "t") 8 0 in
  let db := mkLoader [e1; e2; e3] [] [] in
  episodes db <> [] /\
  dateRange (getStats db) = (lit "2008-01-15", lit "2021-03-09") /\
  (exists ep, In ep (episodes db) /\ date ep = lit "2008-01-15").
Proof.
  intros e1 e2 e3 db.
  assert (H : episodes db <> []) by discriminate.
  split; [exact H | split; [reflexivity|]].
  exact (proj1 (proj1 (proj2 (getStats_dateRange db)) H)).
Defined.

End HostFacts.

Module TermFacts.

Import JS Lev Search Transcripts Lookups ListFacts SearchFacts TranscriptFacts.
Import MetricFacts EpisodeFacts HostFacts.

Local Open Scope Z_scope.

(** *** Terms and mode *)

Lemma nonEmpty_In (l : list str) (t : str) :
  In t (nonEmpty l) <-> In t l /\ t <> [].
Proof.
  unfold nonEmpty; rewrite filter_In, negb_true_iff.
  destruct t; cbn; intuition congruence.
Qed.

Lemma hasQuery_trim (query : str) : hasQuery query = true -> trim query <> [].
Proof.
  unfold hasQuery; rewrite Nat.ltb_lt. destruct (trim query); cbn; [lia | easy].
Qed.

Lemma searchTerms_trimmed (query : str) (o : Options) (t : str) :
  In t (searchTerms query o) -> t <> [] /\ trim t = t.
Proof.
  unfold searchTerms.
  assert (Hexp : forall l, In t (nonEmpty (map trim l)) -> t <> [] /\ trim t = t).
  { intros l H; apply nonEmpty_In in H as [H Hne]; split; [assumption|].
    apply in_map_iff in H as [x [<- _]]. apply trim_idempotent. }
  set (ts := if (0 <? length (explicitTerms o))%nat then explicitTerms o
             else splitQueryTerms query o).
  assert (Hts : In t ts -> t <> [] /\ trim t = t).
  { unfold ts, explicitTerms, splitQueryTerms.
    destruct (0 <? length (nonEmpty (map trim (terms o))))%nat; [apply Hexp|].
    destruct (isAnyOrAll (matchMode o)); [apply Hexp | easy]. }
  destruct ((length ts =? 0)%nat && hasQuery query) eqn:E; [|exact Hts].
  apply andb_true_iff in E as [_ Hq].
  intros [<-|[]]; split; [now apply hasQuery_trim | apply trim_idempotent].
Qed.

Lemma effectiveTerms_trimmed (query : str) (o : Options) (t : str) :
  In t (effectiveTerms query o) -> t <> [] /\ trim t = t.
Proof.
  unfold effectiveTerms.
  destruct (str_eqb (resolvedMatchMode query o) (lit "phrase"));
    [|apply searchTerms_trimmed].
  intros H; apply nonEmpty_In in H as [[<-|[]] Hne].
  destruct (hasQuery query); [split; [assumption | apply trim_idempotent]|].
  destruct (searchTerms query o) as [|t0 ts] eqn:E; [now cbn in Hne|].
  apply (searchTerms_trimmed query o); rewrite E; now left.
Qed.

Lemma nonEmpty_fixed (l : list str) :
  (forall t, In t l -> t <> []) -> nonEmpty l = l.
Proof.
  intros H; apply forallb_filter_id, forallb_forall; intros t Ht.
  apply H in Ht; now destruct t.
Qed.

Lemma makeMatchers_terms (query : str) (o : Options) :
  map term (makeMatchers query o) = effectiveTerms query o.
Proof.
  unfold makeMatchers; rewrite map_map; cbn [term]; rewrite map_id.
  apply nonEmpty_fixed; intros t Ht. now apply effectiveTerms_trimmed in Ht.
Qed.

(** X10.  The mode a transcript search runs in is always [any], [all] or
    [phrase]: the mode asked for when it is one of these, else [any] when
    more than one term was resolved and [phrase] otherwise.  In mode
    [phrase] there is at most one pattern, and it is the trimmed query
    whenever the query is not blank, whatever terms were given. *)
Theorem resolvedMatchMode_cases :
  forall (query : str) (o : Options),
    let mode := resolvedMatchMode query o in
    (mode = lit "any" \/ mode = lit "all" \/ mode = lit "phrase") /\
    (matchMode o = lit "any" \/ matchMode o = lit "all" \/
     matchMode o = lit "phrase" -> mode = matchMode o) /\
    (matchMode o <> lit "any" -> matchMode o <> lit "all" ->
     matchMode o <> lit "phrase" ->
     (mode = lit "any" <-> (1 < length (searchTerms query o))%nat) /\
     (mode = lit "phrase" <-> (length (searchTerms query o) <= 1)%nat)) /\
    (mode = lit "phrase" ->
       (length (makeMatchers query o) <= 1)%nat /\
       (hasQuery query = true ->
          map term (makeMatchers query o) = [trim query])).
Proof.
  intros query o mode.
  assert (Hgiven : matchMode o = lit "any" \/ matchMode o = lit "all" \/
                   matchMode o = lit "phrase" -> mode = matchMode o).
  { unfold mode, resolvedMatchMode, isAnyOrAll.
    intros [-> | [-> | ->]]; reflexivity. }
  assert (Hother : matchMode o <> lit "any" -> matchMode o <> lit "all" ->
                   matchMode o <> lit "phrase" ->
                   mode = if (1 <? length (searchTerms query o))%nat
                          then lit "any" else lit "phrase").
  { intros H1 H2 H3; unfold mode, resolvedMatchMode, isAnyOrAll.
    destruct (str_eqb (matchMode o) (lit "any")) eqn:E1;
      [apply str_eqb_eq in E1; contradiction|].
    destruct (str_eqb (matchMode o) (lit "all")) eqn:E2;
      [apply str_eqb_eq in E2; contradiction|].
    destruct (str_eqb (matchMode o) (lit "phrase")) eqn:E3;
      [apply str_eqb_eq in E3; contradiction|].
    reflexivity. }
  split; [|split; [exact Hgiven | split]].
  - destruct (str_eqb (matchMode o) (lit "any")) eqn:E1;
      [apply str_eqb_eq in E1; left; rewrite Hgiven; tauto|].
    destruct (str_eqb (matchMode o) (lit "all")) eqn:E2;
      [apply str_eqb_eq in E2; right; left; rewrite Hgiven; tauto|].
    destruct (str_eqb (matchMode o) (lit "phrase")) eqn:E3;
      [apply str_eqb_eq in E3; right; right; rewrite Hgiven; tauto|].
    rewrite Hother by (intros H; rewrite H in *; discriminate).
    destruct (1 <? length (searchTerms query o))%nat; tauto.
  - intros H1 H2 H3; rewrite (Hother H1 H2 H3).
    destruct (1 <? length (searchTerms query o))%nat eqn:E.
    + apply Nat.ltb_lt in E; split; [tauto|].
      split; [discriminate | lia].
    + apply Nat.ltb_ge in E; split; [|tauto].
      split; [discriminate | lia].
  - intros Hphrase.
    assert (Heff : effectiveTerms query o =
                   nonEmpty [if hasQuery query then trim query
                             else hd [] (searchTerms query o)]).
    { unfold effectiveTerms; fold mode; now rewrite Hphrase. }
    split.
    + rewrite <- (length_map term), makeMatchers_terms, Heff.
      unfold nonEmpty; cbn [filter].
      destruct (negb _); cbn; lia.
    + intros Hq; rewrite makeMatchers_terms, Heff, Hq.
      apply nonEmpty_fixed; intros t [<-|[]]. now apply hasQuery_trim.
Qed.

Lemma resolvedMatchMode_cases_witness :
  let o := mkOptions 20 3 [lit "alpha"; lit "beta"] (lit "phrase")
                     None None false false 5 in
  resolvedMatchMode (lit " virtual machine ") o = lit "phrase" /\
  hasQuery (lit " virtual machine ") = true /\
  map term (makeMatchers (lit " virtual machine ") o) = [lit "virtual machine"].
Proof.
  intros o.
  assert (H1 : resolvedMatchMode (lit " virtual machine ") o = lit "phrase")
    by reflexivity.
  assert (H2 : hasQuery (lit " virtual machine ") = true) by reflexivity.
  split; [exact H1 | split; [exact H2|]].
  exact (proj2 (proj2 (proj2 (proj2
           (resolvedMatchMode_cases (lit " virtual machine ") o))) H1) H2).
Defined.

(** X11.  Every pattern of a transcript search is a term that is not empty
    and neither begins nor ends with white space.  When some term given
    explicitly is not blank, the terms searched in the modes [any] and [all]
    are the terms given, trimmed, the blank ones left out, and the query is
    not used. *)
Theorem patterns_are_trimmed_terms :
  forall (query : str) (o : Options),
    (forall m, In m (makeMatchers query o) ->
       term m <> [] /\ trim (term m) = term m /\
       ignoreCase m = negb (caseSensitive o) /\ bounded m = wholeWord o) /\
    (nonEmpty (map trim (terms o)) <> [] ->
     resolvedMatchMode query o <> lit "phrase" ->
     map term (makeMatchers query o) = nonEmpty (map trim (terms o))).
Proof.
  intros query o; split.
  - intros m Hm.
    assert (Ht : In (term m) (effectiveTerms query o)).
    { rewrite <- makeMatchers_terms. now apply in_map. }
    apply effectiveTerms_trimmed in Ht as [H1 H2].
    unfold makeMatchers in Hm; apply in_map_iff in Hm as [t [<- _]].
    now repeat split.
  - intros Hexp Hmode.
    rewrite makeMatchers_terms; unfold effectiveTerms.
    destruct (str_eqb (resolvedMatchMode query o) (lit "phrase")) eqn:E;
      [apply str_eqb_eq in E; contradiction|].
    unfold searchTerms, explicitTerms.
    destruct (nonEmpty (map trim (terms o))) as [|t ts]; [contradiction|].
    reflexivity.
Qed.

Lemma patterns_are_trimmed_terms_witness :
  let o := mkOptions 20 3 [lit " alpha "; lit "  "; lit "beta"] (lit "all")
                     None None false false 5 in
  nonEmpty (map trim (terms o)) <> [] /\
  resolvedMatchMode (lit "ignored") o <> lit "phrase" /\
  map term (makeMatchers (lit "ignored") o) = [lit "alpha"; lit "beta"].
Proof.
  intros o.
  assert (H1 : nonEmpty (map trim (terms o)) <> []) by discriminate.
  assert (H2 : resolvedMatchMode (lit "ignored") o <> lit "phrase")
    by discriminate.
  split; [exact H1 | split; [exact H2|]].
  exact (proj2 (patterns_are_trimmed_terms (lit "ignored") o) H1 H2).
Defined.

Lemma splitOn_blank (p : ascii -> bool) (s : str) :
  forallb isSpace s = true ->
  forall part, In part (splitOn p s) -> forallb isSpace part = true.
Proof.
  induction s as [|c s IH]; cbn [splitOn forallb].
  - intros _ part [<-|[]]; reflexivity.
  - intros H; apply andb_true_iff in H as [Hc Hs].
    destruct (p c).
    + intros part [<-|Hin]; [reflexivity | now apply IH].
    + destruct (splitOn p s) as [|w ws] eqn:E.
      * intros part [<-|[]]; cbn; now rewrite Hc.
      * intros part [<-|Hin].
        -- cbn; rewrite Hc; apply IH; [assumption | now left].
        -- apply IH; [assumption | now right].
Qed.

Lemma nonEmpty_trim_blank (l : list str) :
  (forall t, In t l -> forallb isSpace t = true) ->
  nonEmpty (map trim l) = [].
Proof.
  intros H; induction l as [|t l IH]; [reflexivity|].
  cbn [map]; unfold nonEmpty; cbn [filter].
  rewrite (trim_blank t) by (apply H; now left). cbn.
  apply IH; intros t' Ht'; apply H; now right.
Qed.

(** X12.  A transcript search with a blank query and no term that is not
    blank returns nothing, whatever the corpus, the mode and the other
    options. *)
Theorem searchTranscripts_without_terms :
  forall (db : HPRDataLoader) (query : str) (o : Options),
    forallb isSpace query = true ->
    (forall t, In t (terms o) -> forallb isSpace t = true) ->
    searchTranscripts db query o = [].
Proof.
  intros db query o Hq Ht.
  assert (Hexp : explicitTerms o = [])
    by (unfold explicitTerms; now apply nonEmpty_trim_blank).
  assert (Hsplit : splitQueryTerms query o = []).
  { unfold splitQueryTerms; destruct (isAnyOrAll (matchMode o)); [|reflexivity].
    apply nonEmpty_trim_blank; now apply splitOn_blank. }
  assert (Hhas : hasQuery query = false).
  { unfold hasQuery; now rewrite (trim_blank query Hq). }
  assert (Hst : searchTerms query o = []).
  { unfold searchTerms; rewrite Hexp, Hsplit, Hhas; reflexivity. }
  assert (Heff : effectiveTerms query o = []).
  { unfold effectiveTerms; rewrite Hst, Hhas.
    destruct (str_eqb _ _); reflexivity. }
  unfold searchTranscripts; now rewrite Heff.
Qed.

Lemma searchTranscripts_without_terms_witness :
  let db := mkLoader [mkEpisode 1 (lit "2020-01-01") (lit "T") (lit "s")
                                (lit "n") (lit "t") 7 0] []
                     [(1, lit "  ")] in
  let o := mkOptions 20 3 [lit " "] (lit "any") None None false false 5 in
  forallb isSpace (lit "  ") = true /\
  (forall t, In t (terms o) -> forallb isSpace t = true) /\
  searchTranscripts db (lit "  ") o = [].
Proof.
  intros db o.
  assert (H1 : forallb isSpace (lit "  ") = true) by reflexivity.
  assert (H2 : forall t, In t (terms o) -> forallb isSpace t = true)
    by (intros t [<-|[]]; reflexivity).
  split; [exact H1 | split; [exact H2|]].
  exact (searchTranscripts_without_terms db (lit "  ") o H1 H2).
Defined.

End TermFacts.

Module ReadingFacts.

Import JS Lev Search Transcripts Lookups Reading.
Import ListFacts SearchFacts TranscriptFacts.
Import TermFacts.

Local Open Scope Z_scope.

(** *** The number of results *)

Lemma scanAll_length (db : HPRDataLoader) (o : Options) (mode : str)
  (ms : list Matcher) (ids : list Z) :
  forall (entries : list (Z * str)) (acc : list TranscriptResult),
    Z.of_nat (length (scanAll db o mode ms ids entries acc)) <=
    Z.max (Z.of_nat (length acc)) (limit o).
Proof.
  induction entries as [|[episodeId text] entries IH]; intros acc;
    cbn [scanAll]; [lia|].
  destruct (limit o <=? Z.of_nat (length acc)) eqn:E; [lia|].
  apply Z.leb_gt in E.
  destruct (getEpisode db episodeId) as [ep|]; [|apply IH].
  destruct (episodeResult o mode ms ids ep text) as [r|]; [|apply IH].
  specialize (IH (acc ++ [r])).
  rewrite length_app in IH; cbn [length] in IH. lia.
Qed.

Lemma getEpisode_id (db : HPRDataLoader) (episodeId : Z) (ep : Episode) :
  getEpisode db episodeId = Some ep ->
  id ep = episodeId /\ In ep (episodes db) /\ getEpisode db (id ep) = Some ep.
Proof.
  intros H; pose proof H as H0; unfold getEpisode in H0.
  apply find_some in H0 as [Hin Hid]; apply Z.eqb_eq in Hid.
  now rewrite Hid.
Qed.

Lemma mapLookup_In (entries : list (Z * str)) (key : Z) (text : str) :
  In (key, text) entries -> mapLookup entries key <> None.
Proof.
  induction entries as [|[k v] entries IH]; cbn; [easy|].
  intros [E|H].
  - inversion E; subst. now rewrite Z.eqb_refl.
  - destruct (k =? key); [easy | now apply IH].
Qed.

(** X13.  Every result of a transcript search is for an episode that
    [getEpisode] finds under its own id and that has a transcript; its
    matches are those of the scan of a transcript stored under that id, there
    is at least one, [totalMatches] is their number and the mode reported is
    the mode the search ran in. *)
Theorem searchTranscripts_results :
  forall (db : HPRDataLoader) (query : str) (o : Options) (r : TranscriptResult),
    In r (searchTranscripts db query o) ->
    getEpisode db (id (r_episode r)) = Some (r_episode r) /\
    getTranscript db (id (r_episode r)) <> None /\
    (exists text,
        In (id (r_episode r), text) (transcripts db) /\
        r_matches r =
        matches (scanTranscript o (makeMatchers query o) (splitLines text))) /\
    r_matches r <> [] /\
    totalMatches (matchSummary r) = Z.of_nat (length (r_matches r)) /\
    ms_matchMode (matchSummary r) = resolvedMatchMode query o.
Proof.
  intros db query o r Hr.
  apply searchTranscripts_In in Hr as [episodeId [text [ep [Hin [Hep Hres]]]]].
  apply episodeResult_some in Hres as [-> [Hne _]]; cbn.
  apply getEpisode_id in Hep as [Hid [_ Hget]]; subst episodeId.
  split; [exact Hget | split].
  - unfold getTranscript; now apply mapLookup_In with text.
  - split; [now exists text | split; [exact Hne | split; reflexivity]].
Qed.

Lemma searchTranscripts_results_witness :
  let ep := mkEpisode 1 (lit "2020-01-01") (lit "Greek") (lit "s") (lit "n")
                      (lit "t") 7 0 in
  let db := mkLoader [ep] [] [(1, lit "intro" ++ [LF] ++ lit "alpha")] in
  let o := mkOptions 20 0 [] (lit "auto") None None false false 5 in
  exists r,
    In r (searchTranscripts db (lit "alpha") o) /\
    getEpisode db (id (r_episode r)) = Some ep /\
    map lineNumber (r_matches r) = [2] /\
    totalMatches (matchSummary r) = Z.of_nat (length (r_matches r)).
Proof.
  intros ep db o.
  assert (H : exists r, searchTranscripts db (lit "alpha") o = [r] /\
                        r_episode r = ep /\
                        map lineNumber (r_matches r) = [2]).
  { eexists; split; [vm_compute; reflexivity | split; reflexivity]. }
  destruct H as [r [E [Hep Hl]]].
  assert (Hin : In r (searchTranscripts db (lit "alpha") o))
    by (rewrite E; now left).
  exists r; split; [exact Hin|].
  destruct (searchTranscripts_results db (lit "alpha") o r Hin)
    as [Hget [_ [_ [_ [Htot _]]]]].
  rewrite Hep in Hget |- *.
  split; [exact Hget | split; [exact Hl | exact Htot]].
Defined.

(** X25.  The loop over the transcripts stops as soon as the number of
    results has reached [limit]: for a limit that is a whole number a
    transcript search returns at most [limit] results, and none when the
    limit is not positive. *)
Theorem searchTranscripts_limit :
  forall (db : HPRDataLoader) (query : str) (o : Options),
    Z.of_nat (length (searchTranscripts db query o)) <= Z.max 0 (limit o) /\
    (limit o <= 0 -> searchTranscripts db query o = []).
Proof.
  intros db query o.
  assert (H : Z.of_nat (length (searchTranscripts db query o)) <=
              Z.max 0 (limit o)).
  { unfold searchTranscripts.
    destruct (length (effectiveTerms query o) =? 0)%nat; [cbn; lia|].
    cbv zeta.
    destruct (length (makeMatchers query o) =? 0)%nat; [cbn; lia|].
    apply (scanAll_length db o (resolvedMatchMode query o)
             (makeMatchers query o) (resolvedHostIds db o) (transcripts db) []). }
  split; [exact H|].
  intros Hle; destruct (searchTranscripts db query o); [reflexivity|].
  cbn [length] in H; lia.
Qed.

Lemma searchTranscripts_limit_witness :
  let e1 := mkEpisode 1 (lit "2020-01-01") (lit "One") (lit "s") (lit "n")
                      (lit "t") 7 0 in
  let e2 := mkEpisode 2 (lit "2020-01-02") (lit "Two") (lit "s") (lit "n")
                      (lit "t") 8 0 in
  let db := mkLoader [e1; e2] [] [(1, lit "alpha"); (2, lit "alpha")] in
  let o n := mkOptions n 3 [] (lit "auto") None None false false 5 in
  limit (o 0) <= 0 /\
  searchTranscripts db (lit "alpha") (o 0) = [] /\
  length (searchTranscripts db (lit "alpha") (o 1)) = 1%nat /\
  length (searchTranscripts db (lit "alpha") (o 20)) = 2%nat.
Proof.
  intros e1 e2 db o.
  assert (H : limit (o 0) <= 0) by (cbn; lia).
  split; [exact H | split].
  - exact (proj2 (searchTranscripts_limit db (lit "alpha") (o 0)) H).
  - split; vm_compute; reflexivity.
Defined.

(** *** The matches of one transcript *)

Lemma scanLine_matches (o : Options) (ms : list Matcher) (lines : list str)
  (index : nat) (line : str) (s : Scan) :
  matches (scanLine o ms lines index line s) =
  matches s ++
  (if lineMatches ms line then [matchAt o ms lines (index, line)] else []).
Proof.
  rewrite scanLine_closed; cbn [matches].
  destruct (lineMatches ms line); [reflexivity | now rewrite app_nil_r].
Qed.

Lemma allMatches_cons (o : Options) (ms : list Matcher) (lines : list str)
  (from : nat) (line : str) (rest : list str) :
  allMatches o ms lines from (line :: rest) =
  (if lineMatches ms line then [matchAt o ms lines (from, line)] else []) ++
  allMatches o ms lines (S from) rest.
Proof.
  unfold allMatches, numbered; cbn [length seq combine filter snd].
  destruct (lineMatches ms line); reflexivity.
Qed.

Lemma scanFrom_prefix (o : Options) (ms : list Matcher) (lines : list str) :
  forall (rest : list str) (index : nat) (s : Scan),
    exists k,
      matches (scanFrom o ms lines index rest s) =
      firstn k (matches s ++ allMatches o ms lines index rest).
Proof.
  induction rest as [|line rest IH]; intros index s.
  - exists (length (matches s)); cbn [scanFrom].
    unfold allMatches; cbn. rewrite app_nil_r. now rewrite firstn_all.
  - cbn [scanFrom]; rewrite allMatches_cons, app_assoc.
    rewrite <- scanLine_matches.
    destruct (capReached o (scanLine o ms lines index line s)).
    + exists (length (matches (scanLine o ms lines index line s))).
      cbn [matches].
      now rewrite firstn_app, firstn_all, Nat.sub_diag, firstn_0, app_nil_r.
    + apply IH.
Qed.

Lemma scanFrom_matches (o : Options) (ms : list Matcher) (lines : list str) :
  forall (rest : list str) (index : nat) (s : Scan),
    Z.of_nat (length (matches s)) < maxMatchesPerEpisode o ->
    matches (scanFrom o ms lines index rest s) =
    firstn (Z.to_nat (maxMatchesPerEpisode o))
           (matches s ++ allMatches o ms lines index rest).
Proof.
  induction rest as [|line rest IH]; intros index s Hlt.
  - cbn [scanFrom]; unfold allMatches; cbn. rewrite app_nil_r.
    symmetry; apply firstn_all2; lia.
  - cbn [scanFrom]; rewrite allMatches_cons, app_assoc.
    rewrite <- scanLine_matches.
    pose proof (scanLine_length o ms lines index line s) as Hlen.
    unfold capReached.
    destruct (maxMatchesPerEpisode o <=?
              Z.of_nat (length (matches (scanLine o ms lines index line s))))
      eqn:E.
    + apply Z.leb_le in E; cbn [matches].
      assert (Hcap : Z.to_nat (maxMatchesPerEpisode o) =
                     length (matches (scanLine o ms lines index line s))).
      { destruct (lineMatches ms line); lia. }
      now rewrite Hcap, firstn_app, firstn_all, Nat.sub_diag, firstn_0,
        app_nil_r.
    + apply Z.leb_gt in E. now apply IH.
Qed.

Lemma numbered_In (rest : list str) :
  forall (from index : nat) (line : str),
    In (index, line) (numbered from rest) ->
    (from <= index)%nat /\ nth_error rest (index - from) = Some line.
Proof.
  unfold numbered.
  induction rest as [|x rest IH]; intros from index line; cbn; [easy|].
  intros [E|H].
  - inversion E; subst. now rewrite Nat.sub_diag.
  - apply IH in H as [Hle Hnth]; split; [lia|].
    replace (index - from)%nat with (S (index - S from)) by lia.
    exact Hnth.
Qed.

Lemma numbered_sorted (P : nat * str -> bool) (rest : list str) :
  forall from : nat,
    StronglySorted (fun p q : nat * str => (fst p < fst q)%nat)
                   (filter P (numbered from rest)).
Proof.
  induction rest as [|x rest IH]; intros from; [constructor|].
  unfold numbered; cbn [length seq combine filter].
  fold (numbered (S from) rest).
  destruct (P (from, x)); [|apply IH].
  constructor; [apply IH|].
  apply Forall_forall; intros [i l] Hin.
  apply filter_In in Hin as [Hin _].
  apply numbered_In in Hin as [Hle _]; cbn; lia.
Qed.

Lemma StronglySorted_firstn (A : Type) (R : A -> A -> Prop) (l : list A) :
  StronglySorted R l -> forall k, StronglySorted R (firstn k l).
Proof.
  induction 1 as [|x l Hs IH Hx]; intros [|k]; cbn; try constructor.
  - apply IH.
  - rewrite Forall_forall in *; intros y Hy.
    apply Hx. rewrite <- (firstn_skipn k l). apply in_or_app; now left.
Qed.

Lemma In_firstn (A : Type) (x : A) (k : nat) (l : list A) :
  In x (firstn k l) -> In x l.
Proof.
  intros H; rewrite <- (firstn_skipn k l); apply in_or_app; now left.
Qed.

(** X14.  The matches recorded for a transcript are the entries of its first
    matching lines, in the order of the lines: with a cap of at least one,
    those of the first [maxMatchesPerEpisode] lines on which some pattern
    matches, and with any cap a front part of them.  So every match stands
    for a line of the transcript on which a pattern matches, carries the
    number of that line counted from one and the distinct terms of the
    patterns that match it, and the line numbers of the matches increase
    strictly. *)
Theorem matches_are_first_matching_lines :
  forall (o : Options) (ms : list Matcher) (lines : list str),
    let found := matches (scanTranscript o ms lines) in
    (exists k, found = firstn k (allMatches o ms lines 0 lines)) /\
    (1 <= maxMatchesPerEpisode o ->
     found = firstn (Z.to_nat (maxMatchesPerEpisode o))
                    (allMatches o ms lines 0 lines)) /\
    (forall m, In m found ->
       exists index line,
         nth_error lines index = Some line /\
         lineMatches ms line = true /\
         lineNumber m = Z.of_nat index + 1 /\
         NoDup (match_terms m) /\
         forall t, In t (match_terms m) <->
                   exists p, In p ms /\ term p = t /\ test p line = true) /\
    StronglySorted Z.lt (map lineNumber found).
Proof.
  intros o ms lines found.
  assert (Hpre : exists k, found = firstn k (allMatches o ms lines 0 lines)).
  { destruct (scanFrom_prefix o ms lines lines 0%nat emptyScan) as [k Hk].
    now exists k. }
  split; [exact Hpre | split; [|split]].
  - intros Hcap.
    apply (scanFrom_matches o ms lines lines 0%nat emptyScan); cbn; lia.
  - destruct Hpre as [k ->]; intros m Hm.
    apply In_firstn in Hm; unfold allMatches in Hm.
    apply in_map_iff in Hm as [[index line] [<- Hin]].
    apply filter_In in Hin as [Hin Hline]; cbn [snd] in Hline.
    apply numbered_In in Hin as [_ Hnth]; rewrite Nat.sub_0_r in Hnth.
    exists index, line; cbn [matchAt lineNumber match_terms fst snd].
    split; [exact Hnth | split; [exact Hline | split; [reflexivity|]]].
    split; [apply fold_setAdd_NoDup; constructor|].
    intros t; rewrite fold_setAdd_In; unfold termsOn; split.
    + intros [[]|Ht]. apply in_map_iff in Ht as [p [Hp Hf]].
      apply filter_In in Hf as [Hf Htest]. now exists p.
    + intros [p [Hp [<- Htest]]]; right.
      apply in_map; apply filter_In; now split.
  - destruct Hpre as [k ->].
    rewrite <- firstn_map; apply StronglySorted_firstn.
    unfold allMatches; rewrite map_map.
    apply StronglySorted_map.
    apply StronglySorted_impl
      with (R := fun p q : nat * str => (fst p < fst q)%nat);
      [|apply numbered_sorted].
    intros p q _ _ Hlt; unfold matchAt; cbn [lineNumber]; lia.
Qed.

Lemma matches_are_first_matching_lines_witness :
  let o := mkOptions 20 0 [] (lit "any") None None false false 2 in
  let ms := [mkMatcher (lit "alpha") true false] in
  let lines := [lit "alpha one"; lit "beta"; lit "Alpha two"; lit "alpha 3"] in
  1 <= maxMatchesPerEpisode o /\
  map lineNumber (matches (scanTranscript o ms lines)) = [1; 3].
Proof.
  intros o ms lines.
  assert (H : 1 <= maxMatchesPerEpisode o) by (cbn; lia).
  split; [exact H|].
  rewrite (proj1 (proj2 (matches_are_first_matching_lines o ms lines)) H).
  reflexivity.
Defined.

(** *** The context of a match *)

Lemma window_slice (A : Type) (before after : list A) (x : A) (c : Z) :
  0 <= c ->
  slice (before ++ x :: after)
        (Z.max 0 (Z.of_nat (length before) - c))
        (Z.min (Z.of_nat (length (before ++ x :: after)))
               (Z.of_nat (length before) + c + 1)) =
  skipn (length before - Z.to_nat c) before ++ x :: firstn (Z.to_nat c) after.
Proof.
  intros Hc; unfold slice, relIndex.
  rewrite length_app; cbn [length].
  set (i := length before); set (n := length after).
  destruct (Z.max 0 (Z.of_nat i - c) <? 0) eqn:E1; [apply Z.ltb_lt in E1; lia|].
  destruct (Z.min (Z.of_nat (i + S n)) (Z.of_nat i + c + 1) <? 0) eqn:E2;
    [apply Z.ltb_lt in E2; lia|].
  clear E1 E2.
  replace (Z.to_nat (Z.min (Z.max 0 (Z.of_nat i - c)) (Z.of_nat (i + S n))))
    with (i - Z.to_nat c)%nat by lia.
  replace (Z.to_nat
             (Z.min (Z.min (Z.of_nat (i + S n)) (Z.of_nat i + c + 1))
                    (Z.of_nat (i + S n)) -
              Z.min (Z.max 0 (Z.of_nat i - c)) (Z.of_nat (i + S n))))
    with ((i - (i - Z.to_nat c)) + S (Nat.min (Z.to_nat c) n))%nat by lia.
  rewrite skipn_app.
  replace (i - Z.to_nat c - length before)%nat with 0%nat by (unfold i; lia).
  cbn [skipn].
  rewrite firstn_app, length_skipn; fold i.
  rewrite firstn_all2 by (rewrite length_skipn; fold i; lia).
  f_equal.
  replace (i - (i - Z.to_nat c) + S (Nat.min (Z.to_nat c) n) -
           (i - (i - Z.to_nat c)))%nat
    with (S (Nat.min (Z.to_nat c) n)) by lia.
  cbn [firstn]; f_equal.
  destruct (Nat.le_ge_cases (Z.to_nat c) n) as [Hle|Hge].
  - now rewrite Nat.min_l.
  - rewrite Nat.min_r by assumption.
    now rewrite !firstn_all2 by (fold n; lia).
Qed.

(** X15.  With [contextLines] at least zero, the context of the match
    recorded for a line is that line with the [contextLines] lines before it
    and the [contextLines] lines after it, fewer where the transcript begins
    or ends sooner, joined by line feeds. *)
Theorem context_is_the_window_around_the_line :
  forall (o : Options) (ms : list Matcher) (before after : list str)
         (line : str) (s : Scan),
    0 <= contextLines o ->
    lineMatches ms line = true ->
    let c := Z.to_nat (contextLines o) in
    exists m,
      matches (scanLine o ms (before ++ line :: after) (length before) line s)
      = matches s ++ [m] /\
      lineNumber m = Z.of_nat (length before) + 1 /\
      context m =
      join [LF] (skipn (length before - c) before ++ line :: firstn c after).
Proof.
  intros o ms before after line s Hc Hline c.
  rewrite scanLine_matches, Hline.
  eexists; split; [reflexivity|].
  cbn [matchAt lineNumber context fst snd]; split; [reflexivity|].
  now rewrite window_slice.
Qed.

Lemma context_is_the_window_around_the_line_witness :
  let o := mkOptions 20 1 [] (lit "any") None None false false 5 in
  let ms := [mkMatcher (lit "c") true false] in
  0 <= contextLines o /\
  lineMatches ms (lit "c") = true /\
  exists m,
    matches (scanLine o ms ([lit "a"; lit "b"] ++ lit "c" :: [lit "d"; lit "e"])
                      2 (lit "c") emptyScan) = [] ++ [m] /\
    lineNumber m = 3 /\
    context m = lit "b" ++ [LF] ++ lit "c" ++ [LF] ++ lit "d".
Proof.
  intros o ms.
  assert (H1 : 0 <= contextLines o) by (cbn; lia).
  assert (H2 : lineMatches ms (lit "c") = true) by reflexivity.
  split; [exact H1 | split; [exact H2|]].
  exact (context_is_the_window_around_the_line o ms [lit "a"; lit "b"]
           [lit "d"; lit "e"] (lit "c") emptyScan H1 H2).
Defined.

(** *** The counters *)

Lemma str_eqb_sym (a b : str) : str_eqb a b = str_eqb b a.
Proof.
  destruct (str_eqb a b) eqn:E1, (str_eqb b a) eqn:E2; try reflexivity.
  - apply str_eqb_eq in E1; subst. now rewrite str_eqb_refl in E2.
  - apply str_eqb_eq in E2; subst. now rewrite str_eqb_refl in E1.
Qed.

Lemma mapGet_mapSet (m : list (str * Z)) (k t : str) (v : Z) :
  mapGet t (mapSet k v m) = if str_eqb t k then Some v else mapGet t m.
Proof.
  induction m as [|[k' v'] m IH]; cbn.
  - destruct (str_eqb t k); reflexivity.
  - destruct (str_eqb k k') eqn:E; cbn.
    + apply str_eqb_eq in E; subst k'.
      destruct (str_eqb t k); reflexivity.
    + rewrite IH. destruct (str_eqb t k') eqn:E'; [|reflexivity].
      apply str_eqb_eq in E'; subst k'.
      now rewrite str_eqb_sym, E.
Qed.

Lemma bumped_more (c : option Z) (n k : nat) :
  bumped (bumped c n) k = bumped c (n + k).
Proof.
  destruct n as [|n], k as [|k]; cbn [bumped Nat.add]; try reflexivity.
  - now rewrite Nat.add_0_r.
  - f_equal; lia.
Qed.

Lemma fold_countHit (ts : list str) :
  forall (m : list (str * Z)) (t : str),
    mapGet t (fold_left countHit ts m) =
    bumped (mapGet t m) (length (filter (str_eqb t) ts)).
Proof.
  induction ts as [|x ts IH]; intros m t; cbn [fold_left filter]; [reflexivity|].
  rewrite IH; unfold countHit; rewrite mapGet_mapSet.
  destruct (str_eqb t x) eqn:E.
  - apply str_eqb_eq in E; subst x; cbn [length].
    change (Some (match mapGet t m with Some n => n | None => 0 end + 1))
      with (bumped (mapGet t m) 1).
    now rewrite bumped_more.
  - reflexivity.
Qed.

Lemma hits_cons (ms : list Matcher) (t : str) (line : str) (rest : list str) :
  hits ms t (line :: rest) =
  (length (filter (str_eqb t) (termsOn ms line)) + hits ms t rest)%nat.
Proof.
  unfold hits; cbn [map concat].
  now rewrite filter_app, length_app.
Qed.

Lemma hits_app (ms : list Matcher) (t : str) (l1 l2 : list str) :
  hits ms t (l1 ++ l2) = (hits ms t l1 + hits ms t l2)%nat.
Proof.
  unfold hits. now rewrite map_app, concat_app, filter_app, length_app.
Qed.

Lemma scanFrom_counts (o : Options) (ms : list Matcher) (lines : list str) :
  forall (rest : list str) (index : nat) (s : Scan),
    truncated s = false ->
    exists read unread,
      rest = read ++ unread /\
      (truncated (scanFrom o ms lines index rest s) = false -> unread = []) /\
      (forall t,
          mapGet t (termHitCounts (scanFrom o ms lines index rest s)) =
          bumped (mapGet t (termHitCounts s)) (hits ms t read)) /\
      (forall t,
          In t (matchedTerms (scanFrom o ms lines index rest s)) <->
          In t (matchedTerms s) \/ (0 < hits ms t read)%nat).
Proof.
  induction rest as [|line rest IH]; intros index s Hs.
  - exists [], []; cbn [scanFrom]; repeat split; try reflexivity.
    + now left.
    + intros [H|H]; [exact H | cbn in H; lia].
  - cbn [scanFrom].
    assert (Hc : forall t,
               mapGet t (termHitCounts (scanLine o ms lines index line s)) =
               bumped (mapGet t (termHitCounts s)) (hits ms t [line])).
    { intros t; rewrite scanLine_closed; cbn [termHitCounts].
      rewrite fold_countHit, hits_cons; unfold hits at 1; cbn.
      now rewrite Nat.add_0_r. }
    assert (Hm : forall t,
               In t (matchedTerms (scanLine o ms lines index line s)) <->
               In t (matchedTerms s) \/ (0 < hits ms t [line])%nat).
    { intros t; rewrite scanLine_closed; cbn [matchedTerms].
      rewrite fold_setAdd_In, hits_cons; unfold hits at 1; cbn.
      rewrite Nat.add_0_r.
      assert (Hf : In t (termsOn ms line) <->
                   (0 < length (filter (str_eqb t) (termsOn ms line)))%nat).
      { split.
        - intros Hin.
          assert (Hin' : In t (filter (str_eqb t) (termsOn ms line)))
            by (apply filter_In; split; [exact Hin | apply str_eqb_refl]).
          destruct (filter (str_eqb t) (termsOn ms line)); [easy | cbn; lia].
        - intros Hpos.
          destruct (filter (str_eqb t) (termsOn ms line)) as [|y l] eqn:E;
            [cbn in Hpos; lia|].
          assert (Hy : In y (filter (str_eqb t) (termsOn ms line)))
            by (rewrite E; now left).
          apply filter_In in Hy as [Hy Ht].
          apply str_eqb_eq in Ht; now subst y. }
      now rewrite Hf. }
    destruct (capReached o (scanLine o ms lines index line s)) eqn:E.
    + exists [line], rest; cbn [truncated termHitCounts matchedTerms].
      split; [reflexivity | split; [discriminate | split; assumption]].
    + destruct (IH (S index) (scanLine o ms lines index line s))
        as [read [unread [Hr [Ht [Hcount Hterms]]]]];
        [now rewrite scanLine_truncated|].
      exists (line :: read), unread; subst rest.
      split; [reflexivity | split; [exact Ht | split]].
      * intros t; rewrite Hcount, Hc, bumped_more.
        change (line :: read) with ([line] ++ read).
        now rewrite hits_app.
      * intros t; rewrite Hterms, Hm.
        change (line :: read) with ([line] ++ read); rewrite hits_app.
        split; [intros [[H|H]|H] | intros [H|H]]; auto; try (right; lia).
        destruct (hits ms t [line]) eqn:E0; [right; lia | left; right; lia].
Qed.

(** X16.  The hit counter of a term counts, over the lines that were read,
    the patterns with that term that match the line: once a line, however
    often the term occurs on it.  The lines read are all the lines when the
    scan was not cut short, and else a front part of them.  A term has a
    counter exactly when it is among the matched terms, and no counter is
    below one. *)
Theorem hit_counts_count_lines :
  forall (o : Options) (ms : list Matcher) (lines : list str),
    let s := scanTranscript o ms lines in
    exists read unread,
      lines = read ++ unread /\
      (truncated s = false -> unread = []) /\
      forall t,
        mapGet t (termHitCounts s) =
          (if (hits ms t read =? 0)%nat then None
           else Some (Z.of_nat (hits ms t read))) /\
        (In t (matchedTerms s) <-> mapGet t (termHitCounts s) <> None) /\
        (forall n, mapGet t (termHitCounts s) = Some n -> 1 <= n).
Proof.
  intros o ms lines s.
  destruct (scanFrom_counts o ms lines lines 0%nat emptyScan eq_refl)
    as [read [unread [Hr [Ht [Hcount Hterms]]]]].
  change (scanFrom o ms lines 0 lines emptyScan) with s in Ht, Hcount, Hterms.
  cbn [emptyScan termHitCounts matchedTerms mapGet] in Hcount, Hterms.
  exists read, unread; split; [exact Hr | split; [exact Ht|]].
  intros t.
  assert (Hget : mapGet t (termHitCounts s) =
                 if (hits ms t read =? 0)%nat then None
                 else Some (Z.of_nat (hits ms t read))).
  { rewrite Hcount.
    destruct (hits ms t read) eqn:Eh; cbn [bumped Nat.eqb];
      [reflexivity | now rewrite Z.add_0_l]. }
  split; [exact Hget | split].
  - rewrite Hterms, Hget.
    destruct (hits ms t read =? 0)%nat eqn:E.
    + apply Nat.eqb_eq in E; split; [intros [[]|H]; lia | easy].
    + apply Nat.eqb_neq in E; split; [easy | intros _; right; lia].
  - intros n; rewrite Hget.
    destruct (hits ms t read =? 0)%nat eqn:E; [discriminate|].
    apply Nat.eqb_neq in E; intros H; inversion H; lia.
Qed.

(** *** The host filter *)

Lemma fold_idSetAdd_In (xs : list Z) :
  forall (s : list Z) (x : Z),
    In x (fold_left idSetAdd xs s) <-> In x s \/ In x xs.
Proof.
  induction xs as [|y xs IH]; intros s x; cbn [fold_left].
  - split; [now left | now intros [H|[]]].
  - rewrite IH; unfold idSetAdd.
    destruct (existsb (Z.eqb y) s) eqn:E.
    + apply existsb_exists in E as [z [Hz Hyz]]; apply Z.eqb_eq in Hyz; subst z.
      cbn; split; [intros [H|H]; auto | intros [H|[<-|H]]; auto].
    + rewrite in_app_iff; cbn.
      split; [intros [[H|[<-|[]]]|H]; auto | intros [H|[<-|H]]; auto].
Qed.

Lemma scanLine_options (o o' : Options) (ms : list Matcher) (lines : list str)
  (index : nat) (line : str) (s : Scan) :
  contextLines o = contextLines o' ->
  scanLine o ms lines index line s = scanLine o' ms lines index line s.
Proof. intros H; rewrite !scanLine_closed, H; reflexivity. Qed.

Lemma scanFrom_options (o o' : Options) (ms : list Matcher) (lines : list str) :
  contextLines o = contextLines o' ->
  maxMatchesPerEpisode o = maxMatchesPerEpisode o' ->
  forall (rest : list str) (index : nat) (s : Scan),
    scanFrom o ms lines index rest s = scanFrom o' ms lines index rest s.
Proof.
  intros Hc Hm; induction rest as [|line rest IH]; intros index s;
    cbn [scanFrom]; [reflexivity|].
  rewrite (scanLine_options o o' ms lines index line s Hc).
  unfold capReached; rewrite Hm.
  destruct (_ <=? _); [reflexivity | apply IH].
Qed.

Lemma scanAll_options (db : HPRDataLoader) (o o' : Options) (mode : str)
  (ms : list Matcher) (ids : list Z) :
  limit o = limit o' ->
  contextLines o = contextLines o' ->
  maxMatchesPerEpisode o = maxMatchesPerEpisode o' ->
  forall (entries : list (Z * str)) (acc : list TranscriptResult),
    scanAll db o mode ms ids entries acc = scanAll db o' mode ms ids entries acc.
Proof.
  intros Hl Hc Hm; induction entries as [|[episodeId text] entries IH];
    intros acc; cbn [scanAll]; [reflexivity|].
  rewrite Hl.
  assert (He : forall ep, episodeResult o mode ms ids ep text =
                          episodeResult o' mode ms ids ep text).
  { intros ep; unfold episodeResult, scanTranscript.
    now rewrite (scanFrom_options o o' ms (splitLines text) Hc Hm). }
  destruct (limit o' <=? Z.of_nat (length acc)); [reflexivity|].
  destruct (getEpisode db episodeId) as [ep|]; [|apply IH].
  rewrite He.
  destruct (episodeResult o' mode ms ids ep text); apply IH.
Qed.

(** X17.  The host ids of a transcript search are [hostId], when it is given
    and not zero, and the ids of the hosts that [searchHosts] finds for
    [hostName], when that is given and not empty.  When there is at least one
    such id, every result is for an episode of one of these hosts.  When
    there is none, which is also so when a host name was given and no host
    was found for it, the episodes are not filtered by host: the search
    returns what it returns without [hostId] and [hostName]. *)
Theorem transcript_host_filter :
  forall (db : HPRDataLoader) (query : str) (o : Options),
    (forall x,
        In x (resolvedHostIds db o) <->
        (hostId o = Some x /\ x <> 0) \/
        (exists name m,
            hostName o = Some name /\ name <> [] /\
            In m (searchHosts db name defaultHostMaxDistance) /\
            host_hostid (hm_host m) = x)) /\
    (resolvedHostIds db o <> [] ->
     forall r, In r (searchTranscripts db query o) ->
       In (hostid (r_episode r)) (resolvedHostIds db o)) /\
    (resolvedHostIds db o = [] ->
     searchTranscripts db query o = searchTranscripts db query (withoutHost o)).
Proof.
  intros db query o; split; [|split].
  - intros x; unfold resolvedHostIds.
    assert (Hid : In x (match hostId o with
                        | Some h => if h =? 0 then [] else [h]
                        | None => []
                        end) <-> hostId o = Some x /\ x <> 0).
    { destruct (hostId o) as [h|]; [|cbn; split; [easy | now intros [H _]]].
      destruct (h =? 0) eqn:E.
      - apply Z.eqb_eq in E; subst h; cbn; split; [easy|].
        intros [H Hx]; inversion H; congruence.
      - apply Z.eqb_neq in E; cbn; split.
        + intros [->|[]]; now split.
        + intros [H _]; inversion H; now left. }
    destruct (hostName o) as [name|]; cbn [truthyStr].
    + destruct (isEmpty name) eqn:En; cbn [negb].
      * rewrite Hid; split; [now left|].
        intros [H|[name' [m [H [Hne _]]]]]; [exact H|].
        inversion H; subst name'. apply isEmpty_true in En; contradiction.
      * rewrite fold_idSetAdd_In, Hid, in_map_iff.
        split; (intros [H|H]; [now left | right]).
        -- destruct H as [m [Hx Hm]]. exists name, m.
           repeat split; try assumption.
           intros ->; discriminate.
        -- destruct H as [name' [m [H [_ [Hm Hx]]]]].
           inversion H; subst name'. now exists m.
    + rewrite Hid; split; [now left|].
      intros [H|[name [m [H _]]]]; [exact H | discriminate].
  - intros Hne r Hr.
    apply searchTranscripts_In in Hr as [episodeId [text [ep [_ [_ Hres]]]]].
    pose proof Hres as Hres'.
    apply episodeResult_some in Hres' as [-> _]; cbn [r_episode].
    unfold episodeResult in Hres.
    destruct (0 <? length (resolvedHostIds db o))%nat eqn:E0.
    + destruct (existsb (Z.eqb (hostid ep)) (resolvedHostIds db o)) eqn:E1;
        [|discriminate].
      apply existsb_exists in E1 as [x [Hx Heq]].
      apply Z.eqb_eq in Heq; now rewrite Heq.
    + apply Nat.ltb_ge in E0.
      destruct (resolvedHostIds db o); [contradiction | cbn in E0; lia].
  - intros Hnil; unfold searchTranscripts.
    assert (He : effectiveTerms query (withoutHost o) = effectiveTerms query o)
      by reflexivity.
    assert (Hmk : makeMatchers query (withoutHost o) = makeMatchers query o)
      by reflexivity.
    assert (Hmode : resolvedMatchMode query (withoutHost o) =
                    resolvedMatchMode query o) by reflexivity.
    assert (Hids : resolvedHostIds db (withoutHost o) = []) by reflexivity.
    rewrite He, Hmk, Hmode, Hids, Hnil.
    destruct (length (effectiveTerms query o) =? 0)%nat; [reflexivity|].
    cbv zeta.
    destruct (length (makeMatchers query o) =? 0)%nat; [reflexivity|].
    now apply scanAll_options.
Qed.

Lemma transcript_host_filter_witness :
  let e1 := mkEpisode 1 (lit "2020-01-01") (lit "One") (lit "s") (lit "n")
                      (lit "t") 7 0 in
  let e2 := mkEpisode 2 (lit "2020-01-02") (lit "Two") (lit "s") (lit "n")
                      (lit "t") 8 0 in
  let db := mkLoader [e1; e2]
                     [mkHost 7 (lit "klaatu") (lit "k@example.org");
                      mkHost 8 (lit "Ken Fallon") (lit "ken@example.org")]
                     [(1, lit "alpha"); (2, lit "alpha")] in
  let named := mkOptions 20 3 [] (lit "auto") None (Some (lit "fallon"))
                         false false 5 in
  let unknown := mkOptions 20 3 [] (lit "auto") None (Some (lit "zzzzzzzzzz"))
                           false false 5 in
  resolvedHostIds db named <> [] /\
  resolvedHostIds db unknown = [] /\
  map (fun r => id (r_episode r)) (searchTranscripts db (lit "alpha") named)
    = [2] /\
  map (fun r => id (r_episode r)) (searchTranscripts db (lit "alpha") unknown)
    = [1; 2] /\
  (forall r, In r (searchTranscripts db (lit "alpha") named) ->
     In (hostid (r_episode r)) (resolvedHostIds db named)) /\
  searchTranscripts db (lit "alpha") unknown =
  searchTranscripts db (lit "alpha") (withoutHost unknown).
Proof.
  intros e1 e2 db named unknown.
  assert (H1 : resolvedHostIds db named <> []) by (vm_compute; discriminate).
  assert (H2 : resolvedHostIds db unknown = []) by (vm_compute; reflexivity).
  split; [exact H1 | split; [exact H2|]].
  split; [vm_compute; reflexivity | split; [vm_compute; reflexivity|]].
  split.
  - exact (proj1 (proj2 (transcript_host_filter db (lit "alpha") named)) H1).
  - exact (proj2 (proj2 (transcript_host_filter db (lit "alpha") unknown)) H2).
Defined.

(** *** A term given twice *)

(** X18.  In the mode [all] the number of distinct matched terms is compared
    with the number of patterns, so when two patterns have the same term no
    episode is returned, whatever the transcripts say. *)
Theorem repeated_term_in_mode_all_finds_nothing :
  forall (db : HPRDataLoader) (query : str) (o : Options),
    resolvedMatchMode query o = lit "all" ->
    ~ NoDup (map term (makeMatchers query o)) ->
    searchTranscripts db query o = [].
Proof.
  intros db query o Hmode Hdup.
  destruct (searchTranscripts db query o) as [|r l] eqn:E; [reflexivity|].
  exfalso; apply Hdup.
  assert (Hr : In r (searchTranscripts db query o)) by (rewrite E; now left).
  apply searchTranscripts_In in Hr as [episodeId [text [ep [_ [_ Hres]]]]].
  apply episodeResult_some in Hres as [_ [_ Hall]].
  specialize (Hall Hmode).
  destruct (scanTranscript_coherent o (makeMatchers query o) (splitLines text))
    as [Hnd [Hincl _]].
  apply NoDup_incl_NoDup with
    (l := matchedTerms (scanTranscript o (makeMatchers query o)
                          (splitLines text)));
    [exact Hnd | now rewrite length_map | exact Hincl].
Qed.

Lemma repeated_term_in_mode_all_finds_nothing_witness :
  let ep := mkEpisode 1 (lit "2020-01-01") (lit "Greek") (lit "s") (lit "n")
                      (lit "t") 7 0 in
  let db := mkLoader [ep] [] [(1, lit "alpha and beta")] in
  let o := mkOptions 20 3 [lit "alpha"; lit "alpha"] (lit "all")
                     None None false false 5 in
  resolvedMatchMode [] o = lit "all" /\
  ~ NoDup (map term (makeMatchers [] o)) /\
  searchTranscripts db [] o = [].
Proof.
  intros ep db o.
  assert (H1 : resolvedMatchMode [] o = lit "all") by reflexivity.
  assert (H2 : ~ NoDup (map term (makeMatchers [] o))).
  { intros H; inversion H as [|x l Hx _]; subst. apply Hx; now left. }
  split; [exact H1 | split; [exact H2|]].
  exact (repeated_term_in_mode_all_finds_nothing db [] o H1 H2).
Defined.

End ReadingFacts.

Module ServerFacts.

Import Breaker JS Search Server.
Import ListFacts.

Local Open Scope Z_scope.

(** *** The breaker between calls *)

Section Steady.

Variables World Value : Type.
Variable dateNow : World -> Z.

Lemma settle_steady (cb : CircuitBreaker) (r : Settled Value) (w : World) :
  0 < threshold cb -> 0 <= failures cb ->
  (state cb = CLOSED /\ failures cb < threshold cb) \/
  (state cb = HALF_OPEN /\ threshold cb <= failures cb) ->
  steady (settle dateNow cb r w).
Proof.
  intros Ht Hf Hs; unfold steady, settle.
  destruct r as [v|e].
  - destruct Hs as [[Hs Hlt]|[Hs Hle]]; rewrite Hs; cbn.
    + rewrite Hs; repeat split; try assumption. now left.
    + repeat split; try assumption; try lia. now left.
  - cbn [threshold failures set_failures].
    destruct (threshold cb <=? failures cb + 1) eqn:E; cbn.
    + apply Z.leb_le in E; repeat split; try assumption; try lia. now right.
    + apply Z.leb_gt in E; repeat split; try assumption; try lia.
      destruct Hs as [[Hs Hlt]|[Hs Hle]]; [left; now split | lia].
Qed.

Lemma execute_steady (cb : CircuitBreaker) (fn : Operation World Value)
  (w : World) :
  steady cb -> steady (fst (fst (execute dateNow cb fn w))).
Proof.
  intros [Ht [Hf Hs]]; unfold execute, precheck.
  destruct Hs as [[Hs Hlt]|[Hs Hle]]; rewrite Hs.
  - destruct (fn w) as [r w1]; cbn [fst].
    apply settle_steady; try assumption. now left.
  - destruct (dateNow w <? nextAttempt cb).
    + cbn [fst]; repeat split; try assumption. now right.
    + destruct (fn w) as [r w1]; cbn [fst].
      apply settle_steady; cbn; try assumption. now right.
Qed.

Lemma run_steady (cs : list (Call World Value)) :
  forall (cb : CircuitBreaker) (w : World),
    steady cb -> steady (fst (fst (run dateNow cb cs w))).
Proof.
  induction cs as [|c cs IH]; intros cb w H; cbn [run]; [exact H|].
  pose proof (@execute_steady cb (fn c) (elapse c w) H) as H1.
  destruct (execute dateNow cb (fn c) (elapse c w)) as [[cb1 r] w1].
  cbn [fst] in H1.
  specialize (IH cb1 w1 H1).
  destruct (run dateNow cb1 cs w1) as [[cb2 rs] w2]. exact IH.
Qed.

End Steady.

(** X19.  A breaker made with a positive threshold is, between calls made
    one after the other, CLOSED with fewer failures counted than the
    threshold or OPEN with at least as many: this holds of a new breaker and
    is kept by [execute], by a sequence of calls, by [reset] and by the
    [/reset] endpoint.  The state HALF_OPEN is never left behind by a call
    that has settled. *)
Theorem breaker_open_iff_threshold_reached :
  forall (World Value : Type) (dateNow : World -> Z),
    (forall limit cooldown now : Z,
        0 < limit -> steady (newBreaker limit cooldown now)) /\
    (forall (cb : CircuitBreaker) (fn : Operation World Value) (w : World),
        steady cb -> steady (fst (fst (execute dateNow cb fn w)))) /\
    (forall (cb : CircuitBreaker) (cs : list (Call World Value)) (w : World),
        steady cb ->
        let cb' := fst (fst (run dateNow cb cs w)) in
        steady cb' /\ state cb' <> HALF_OPEN /\
        threshold cb' = threshold cb /\
        (state cb' = OPEN <-> threshold cb <= failures cb')) /\
    (forall cb : CircuitBreaker,
        steady cb -> steady (reset cb) /\ steady (fst (postReset cb))).
Proof.
  intros World Value dateNow; split; [|split; [|split]].
  - intros limit cooldown now H; unfold steady; cbn.
    repeat split; try lia. left; split; [reflexivity | lia].
  - intros cb fn w H; exact (@execute_steady World Value dateNow cb fn w H).
  - intros cb cs w H cb'.
    pose proof (@run_steady World Value dateNow cs cb w H) as H'; fold cb' in H'.
    assert (Hthr : threshold cb' = threshold cb).
    { unfold cb'; clear; revert cb w.
      induction cs as [|c cs IH]; intros cb w; cbn [run]; [reflexivity|].
      assert (H1 : threshold (fst (fst (execute dateNow cb (fn c) (elapse c w))))
                   = threshold cb).
      { unfold execute.
        destruct (precheck dateNow cb (elapse c w)) as [cb1|] eqn:E;
          [|reflexivity].
        destruct (fn c (elapse c w)) as [r w1]; cbn [fst].
        assert (H0 : threshold cb1 = threshold cb).
        { unfold precheck in E; destruct (state cb);
            try (inversion E; reflexivity).
          destruct (_ <? _); inversion E; reflexivity. }
        rewrite <- H0; unfold settle.
        destruct r; [destruct (state cb1); reflexivity|].
        cbn [threshold failures set_failures].
        destruct (_ <=? _); reflexivity. }
      destruct (execute dateNow cb (fn c) (elapse c w)) as [[cb1 r] w1].
      cbn [fst] in H1.
      specialize (IH cb1 w1).
      destruct (run dateNow cb1 cs w1) as [[cb2 rs] w2]; cbn [fst] in *.
      congruence. }
    split; [exact H' | split; [|split; [exact Hthr|]]].
    + destruct H' as [_ [_ [[Hs _]|[Hs _]]]]; rewrite Hs; discriminate.
    + rewrite <- Hthr.
      destruct H' as [_ [_ [[Hs Hlt]|[Hs Hle]]]]; rewrite Hs; split;
        try discriminate; try lia; reflexivity || easy.
  - intros cb [Ht [Hf Hs]]; split.
    + unfold steady, reset; cbn; repeat split; try lia. left; split; [reflexivity|lia].
    + unfold postReset.
      destruct Hs as [[Hs Hlt]|[Hs Hle]]; rewrite Hs; cbn [fst].
      * repeat split; try assumption. now left.
      * unfold steady, reset; cbn; repeat split; try lia.
        left; split; [reflexivity|lia].
Qed.

Lemma breaker_open_iff_threshold_reached_witness :
  let cb := newBreaker 5 60000 0 in
  let cb' := fst (fst (run clock cb
                         (replay [true; true; false; true; true; true; true])
                         (mkProbe 0 0))) in
  steady cb /\ steady cb' /\ state cb' = OPEN /\ failures cb' = 5.
Proof.
  intros cb cb'.
  assert (H : steady cb).
  { apply (proj1 (breaker_open_iff_threshold_reached nat clock)); lia. }
  split; [exact H | split].
  - exact (proj1 (proj1 (proj2 (proj2
             (breaker_open_iff_threshold_reached nat clock)))
             cb (replay [true; true; false; true; true; true; true])
             (mkProbe 0 0) H)).
  - split; reflexivity.
Defined.

(** *** Admission of event streams *)

Section Admission.

Variables Transport World Value : Type.
Variable dateNow : World -> Z.

Lemma registryGet_set (m : list (str * Transport)) (k k' : str) (v : Transport) :
  registryGet k' (registrySet k v m) =
  if str_eqb k' k then Some v else registryGet k' m.
Proof.
  induction m as [|[k0 v0] m IH]; cbn.
  - destruct (str_eqb k' k); reflexivity.
  - destruct (str_eqb k k0) eqn:E; cbn.
    + apply str_eqb_eq in E; subst k0.
      destruct (str_eqb k' k); reflexivity.
    + rewrite IH. destruct (str_eqb k' k0) eqn:E'; [|reflexivity].
      apply str_eqb_eq in E'; subst k0.
      destruct (str_eqb k' k) eqn:E''; [|reflexivity].
      apply str_eqb_eq in E''; subst k'. now rewrite str_eqb_refl in E.
Qed.

Lemma registryGet_delete (m : list (str * Transport)) (k k' : str) :
  registryGet k' (registryDelete k m) =
  if str_eqb k' k then None else registryGet k' m.
Proof.
  unfold registryDelete.
  induction m as [|[k0 v0] m IH]; cbn.
  - destruct (str_eqb k' k); reflexivity.
  - destruct (str_eqb k k0) eqn:E; cbn.
    + apply str_eqb_eq in E; subst k0. rewrite IH.
      destruct (str_eqb k' k); reflexivity.
    + rewrite IH. destruct (str_eqb k' k0) eqn:E'; [|reflexivity].
      apply str_eqb_eq in E'; subst k0.
      destruct (str_eqb k' k) eqn:E''; [|reflexivity].
      apply str_eqb_eq in E''; subst k'. now rewrite str_eqb_refl in E.
Qed.

Lemma checkMemory_fine (heapUsed : Z) (warning : bool) :
  heapUsed <= MEMORY_THRESHOLD_MB * MB ->
  snd (checkMemory heapUsed warning) = None.
Proof.
  intros H; unfold checkMemory.
  destruct (MEMORY_THRESHOLD_MB * MB <? heapUsed) eqn:E;
    [apply Z.ltb_lt in E; lia|].
  destruct (warning && _); reflexivity.
Qed.

Lemma sse_refused_at_capacity (heapUsed : Z) (sessionId : str)
  (transport : Transport) (connect : Operation World Value)
  (srv : Server Transport) (w : World) :
  heapUsed <= MEMORY_THRESHOLD_MB * MB ->
  MAX_CONCURRENT_REQUESTS <= activeRequests srv ->
  sse dateNow heapUsed sessionId transport connect srv w =
  (mkServer (activeRequests srv - 1)
            (fst (checkMemory heapUsed (memoryWarning srv)))
            (circuitBreaker srv) (activeSseTransports srv),
   Refused atCapacity, w).
Proof.
  intros Hm Hc; unfold sse.
  pose proof (@checkMemory_fine heapUsed (memoryWarning srv) Hm) as Hfine.
  destruct (checkMemory heapUsed (memoryWarning srv)) as [warning thrown].
  cbn [snd fst] in *; subst thrown.
  cbn [activeRequests]; unfold checkConcurrency.
  rewrite (proj2 (Z.leb_le _ _) Hc). reflexivity.
Qed.

Lemma sse_admitted (heapUsed : Z) (sessionId : str)
  (transport : Transport) (connect : Operation World Value)
  (srv : Server Transport) (w : World) :
  heapUsed <= MEMORY_THRESHOLD_MB * MB ->
  activeRequests srv < MAX_CONCURRENT_REQUESTS ->
  sse dateNow heapUsed sessionId transport connect srv w =
  let warning := fst (checkMemory heapUsed (memoryWarning srv)) in
  let registry := registrySet sessionId transport (activeSseTransports srv) in
  let '(cb, r, w1) := execute dateNow (circuitBreaker srv) connect w in
  match r with
  | Rejected _ e =>
      (mkServer (activeRequests srv) warning cb
                (registryDelete sessionId registry), Refused e, w1)
  | Fulfilled _ =>
      (mkServer (activeRequests srv + 1) warning cb registry, Streaming, w1)
  end.
Proof.
  intros Hm Hc; unfold sse.
  pose proof (@checkMemory_fine heapUsed (memoryWarning srv) Hm) as Hfine.
  destruct (checkMemory heapUsed (memoryWarning srv)) as [warning thrown].
  cbn [snd fst] in *; subst thrown.
  cbn [activeRequests circuitBreaker activeSseTransports memoryWarning].
  unfold checkConcurrency.
  rewrite (proj2 (Z.leb_gt _ _) Hc).
  destruct (execute dateNow (circuitBreaker srv) connect w) as [[cb r] w1].
  destruct r as [v|e]; [reflexivity|].
  unfold sseFailed;
    cbn [activeRequests circuitBreaker activeSseTransports memoryWarning].
  repeat f_equal; lia.
Qed.

End Admission.

(** X20.  A request for an event stream that the checks of memory or of
    capacity refuse lowers [activeRequests] by one, though it never raised
    it, and touches neither the breaker, nor the sessions, nor anything else:
    [connect] is not run.  A request that passes them raises the count by
    one when the connection is made and leaves it as it was when the breaker
    or [connect] fails.  So the cap on the connections is not kept: when the
    count has reached the cap a request is refused, and the request that
    follows it passes the check of capacity. *)
Theorem sse_refusal_lowers_the_count :
  forall (Transport World Value : Type) (dateNow : World -> Z)
         (heapUsed : Z) (sessionId : str) (transport : Transport)
         (connect : Operation World Value)
         (srv : Server Transport) (w : World),
    let '(srv', reply, w') :=
      sse dateNow heapUsed sessionId transport connect srv w in
    (MEMORY_THRESHOLD_MB * MB < heapUsed ->
       reply = Refused highLoad /\ w' = w /\
       srv' = mkServer (activeRequests srv - 1) true (circuitBreaker srv)
                       (activeSseTransports srv)) /\
    (heapUsed <= MEMORY_THRESHOLD_MB * MB ->
     MAX_CONCURRENT_REQUESTS <= activeRequests srv ->
       reply = Refused atCapacity /\ w' = w /\
       activeRequests srv' = activeRequests srv - 1 /\
       circuitBreaker srv' = circuitBreaker srv /\
       activeSseTransports srv' = activeSseTransports srv /\
       (activeRequests srv = MAX_CONCURRENT_REQUESTS ->
        forall (heapUsed2 : Z) (sessionId2 : str) (transport2 : Transport)
               (connect2 : Operation World Value),
          heapUsed2 <= MEMORY_THRESHOLD_MB * MB ->
          let '(srv2, reply2, _) :=
            sse dateNow heapUsed2 sessionId2 transport2 connect2 srv' w' in
          let '(_, r, _) :=
            execute dateNow (circuitBreaker srv) connect2 w in
          match r with
          | Fulfilled _ =>
              reply2 = Streaming /\
              activeRequests srv2 = MAX_CONCURRENT_REQUESTS
          | Rejected _ e => reply2 = Refused e
          end)) /\
    (heapUsed <= MEMORY_THRESHOLD_MB * MB ->
     activeRequests srv < MAX_CONCURRENT_REQUESTS ->
       let '(cb, r, w1) := execute dateNow (circuitBreaker srv) connect w in
       circuitBreaker srv' = cb /\ w' = w1 /\
       match r with
       | Fulfilled _ =>
           reply = Streaming /\
           activeRequests srv' = activeRequests srv + 1
       | Rejected _ e =>
           reply = Refused e /\
           activeRequests srv' = activeRequests srv
       end).
Proof.
  intros Transport World Value dateNow heapUsed sessionId transport connect
         srv w.
  destruct (sse dateNow heapUsed sessionId transport connect srv w)
    as [[srv' reply] w'] eqn:E.
  split; [|split].
  - intros H; unfold sse, checkMemory in E.
    rewrite (proj2 (Z.ltb_lt _ _) H) in E.
    unfold sseFailed in E; cbn in E. inversion E; subst; now repeat split.
  - intros Hm Hc.
    rewrite (@sse_refused_at_capacity Transport World Value dateNow heapUsed
               sessionId transport connect srv w Hm Hc) in E.
    inversion E; subst; cbn [activeRequests circuitBreaker activeSseTransports].
    repeat split.
    intros Hcap heapUsed2 sessionId2 transport2 connect2 Hm2.
    rewrite sse_admitted; [|exact Hm2 | cbn [activeRequests]; lia].
    cbn [activeRequests circuitBreaker activeSseTransports memoryWarning].
    cbv zeta.
    destruct (execute dateNow (circuitBreaker srv) connect2 w') as [[cb r] w1].
    destruct r as [v|e]; [|reflexivity].
    split; [reflexivity | cbn [activeRequests]; lia].
  - intros Hm Hc.
    rewrite (@sse_admitted Transport World Value dateNow heapUsed sessionId
               transport connect srv w Hm Hc) in E.
    cbv zeta in E.
    destruct (execute dateNow (circuitBreaker srv) connect w) as [[cb r] w1].
    destruct r as [v|e]; inversion E; subst; now repeat split.
Qed.

Lemma sse_refusal_lowers_the_count_witness :
  let srv := mkServer 10 false (newBreaker 5 60000 0)
                      [(lit "a", 1%nat)] in
  let first := sse clock 1000 (lit "b") 2%nat (succeeding 0) srv (mkProbe 0 0) in
  let second := sse clock 1000 (lit "c") 3%nat (succeeding 0)
                    (fst (fst first)) (snd first) in
  1000 <= MEMORY_THRESHOLD_MB * MB /\
  MAX_CONCURRENT_REQUESTS <= activeRequests srv /\
  snd (fst first) = Refused atCapacity /\
  activeRequests (fst (fst first)) = 9 /\
  snd (fst second) = Streaming /\
  activeRequests (fst (fst second)) = 10.
Proof.
  intros srv first second.
  assert (H1 : 1000 <= MEMORY_THRESHOLD_MB * MB) by (vm_compute; discriminate).
  assert (H2 : MAX_CONCURRENT_REQUESTS <= activeRequests srv)
    by (vm_compute; discriminate).
  split; [exact H1 | split; [exact H2|]].
  pose proof (sse_refusal_lowers_the_count clock 1000 (lit "b") 2%nat
                (succeeding 0) srv (mkProbe 0 0)) as H.
  change (sse clock 1000 (lit "b") 2%nat (succeeding 0) srv (mkProbe 0 0))
    with first in H.
  destruct first as [[srv' reply] w'] eqn:E.
  destruct H as [_ [H _]].
  destruct (H H1 H2) as [Hr [Hw [Ha _]]].
  cbn [fst snd]; split; [exact Hr | split; [exact Ha|]].
  subst second; inversion E; subst; split; reflexivity.
Defined.

(** X21.  A message is sent to the transport registered under the id of the
    header [x-connection-id] when that is given and not empty, and else under
    the [sessionId] of the query.  After a request for an event stream has
    succeeded its transport is found under its session id, and the sessions
    under other ids are as before; after the connection has been closed, or
    when the breaker or [connect] failed, no transport is found under that
    id and the message is answered with 404. *)
Theorem message_routing :
  forall (Transport World Value : Type) (dateNow : World -> Z)
         (srv : Server Transport),
    (forall (h : str) (query : option str),
        h <> [] ->
        postMessage (Some h) query srv = postMessage None (Some h) srv) /\
    (forall query : option str,
        postMessage (Some []) query srv = postMessage None query srv) /\
    postMessage None None srv = NotFound Transport /\
    (forall (heapUsed : Z) (sessionId : str) (transport : Transport)
            (connect : Operation World Value) (w : World),
        let '(srv', reply, _) :=
          sse dateNow heapUsed sessionId transport connect srv w in
        (reply = Streaming ->
           postMessage None (Some sessionId) srv' = ToTransport transport /\
           postMessage None (Some sessionId) (sseClose sessionId srv')
             = NotFound Transport) /\
        (heapUsed <= MEMORY_THRESHOLD_MB * MB ->
         activeRequests srv < MAX_CONCURRENT_REQUESTS ->
         reply <> Streaming ->
           postMessage None (Some sessionId) srv' = NotFound Transport) /\
        (forall other : str,
            other <> sessionId ->
            postMessage None (Some other) srv' =
            postMessage None (Some other) srv /\
            postMessage None (Some other) (sseClose sessionId srv') =
            postMessage None (Some other) srv)).
Proof.
  intros Transport World Value dateNow srv.
  split; [|split; [|split]].
  - intros h query Hh; unfold postMessage, connectionId; cbn.
    destruct h; [contradiction | reflexivity].
  - intros query; reflexivity.
  - reflexivity.
  - intros heapUsed sessionId transport connect w.
    destruct (sse dateNow heapUsed sessionId transport connect srv w)
      as [[srv' reply] w'] eqn:E.
    assert (Hreg : activeSseTransports srv' = activeSseTransports srv \/
                   (reply = Streaming /\
                    activeSseTransports srv' =
                    registrySet sessionId transport (activeSseTransports srv)) \/
                   (reply <> Streaming /\
                    heapUsed <= MEMORY_THRESHOLD_MB * MB /\
                    activeRequests srv < MAX_CONCURRENT_REQUESTS /\
                    activeSseTransports srv' =
                    registryDelete sessionId
                      (registrySet sessionId transport
                                   (activeSseTransports srv)))).
    { unfold sse in E.
      destruct (checkMemory heapUsed (memoryWarning srv)) as [warning thrown]
        eqn:Em.
      destruct thrown as [e|].
      - inversion E; subst; now left.
      - cbn [activeRequests circuitBreaker activeSseTransports] in E.
        unfold checkConcurrency in E.
        destruct (MAX_CONCURRENT_REQUESTS <=? activeRequests srv) eqn:Ec.
        + inversion E; subst; now left.
        + destruct (execute dateNow (circuitBreaker srv) connect w)
            as [[cb r] w1].
          apply Z.leb_gt in Ec.
          assert (Hm : heapUsed <= MEMORY_THRESHOLD_MB * MB).
          { unfold checkMemory in Em.
            destruct (MEMORY_THRESHOLD_MB * MB <? heapUsed) eqn:E0;
              [discriminate | now apply Z.ltb_ge in E0]. }
          destruct r as [v|e]; inversion E; subst; cbn.
          * right; left; now split.
          * right; right; repeat split; try assumption; discriminate. }
    assert (Hrefused : reply <> Streaming ->
                       heapUsed <= MEMORY_THRESHOLD_MB * MB ->
                       activeRequests srv < MAX_CONCURRENT_REQUESTS ->
                       activeSseTransports srv' =
                       registryDelete sessionId
                         (registrySet sessionId transport
                                      (activeSseTransports srv))).
    { intros Hr Hm Hc.
      pose proof (@sse_admitted Transport World Value dateNow heapUsed sessionId
                    transport connect srv w Hm Hc) as Ha.
      rewrite E in Ha; cbv zeta in Ha.
      destruct (execute dateNow (circuitBreaker srv) connect w) as [[cb r] w1].
      destruct r as [v|e]; inversion Ha; subst; [contradiction | reflexivity]. }
    assert (Hstream : reply = Streaming ->
                      activeSseTransports srv' =
                      registrySet sessionId transport (activeSseTransports srv)).
    { intros Hr; destruct Hreg as [H|[[_ H]|[H _]]];
        [|exact H | contradiction].
      unfold sse in E.
      destruct (checkMemory heapUsed (memoryWarning srv)) as [warning thrown].
      destruct thrown as [e|]; [inversion E; subst; discriminate|].
      cbn [activeRequests circuitBreaker activeSseTransports] in E.
      destruct (checkConcurrency (activeRequests srv)) as [e|];
        [inversion E; subst; discriminate|].
      destruct (execute dateNow (circuitBreaker srv) connect w) as [[cb r] w1].
      destruct r as [v|e]; inversion E; subst; [reflexivity | discriminate]. }
    unfold postMessage, connectionId, sseClose;
      cbn [truthyStr activeSseTransports].
    split; [|split].
    + intros Hr; rewrite (Hstream Hr).
      rewrite registryGet_delete, registryGet_set, str_eqb_refl.
      split; reflexivity.
    + intros Hm Hc Hr; rewrite (Hrefused Hr Hm Hc).
      now rewrite registryGet_delete, str_eqb_refl.
    + intros other Hother.
      assert (Hneq : str_eqb other sessionId = false).
      { destruct (str_eqb other sessionId) eqn:E0; [|reflexivity].
        apply str_eqb_eq in E0; contradiction. }
      rewrite registryGet_delete, Hneq.
      assert (Hsame : registryGet other (activeSseTransports srv') =
                      registryGet other (activeSseTransports srv)).
      { destruct Hreg as [->|[[_ ->]|[_ [_ [_ ->]]]]]; [reflexivity| |].
        - now rewrite registryGet_set, Hneq.
        - now rewrite registryGet_delete, registryGet_set, Hneq. }
      rewrite Hsame; split; reflexivity.
Qed.

Lemma message_routing_witness :
  let srv := mkServer 1 false (newBreaker 5 60000 0) [(lit "a", 1%nat)] in
  let srv' := fst (fst (sse clock 1000 (lit "b") 2%nat (succeeding 0) srv
                            (mkProbe 0 0))) in
  lit "b" <> [] /\
  postMessage (Some (lit "b")) (Some (lit "a")) srv' = ToTransport 2%nat /\
  postMessage (Some (lit "b")) (Some (lit "a")) srv' =
  postMessage None (Some (lit "b")) srv'.
Proof.
  intros srv srv'.
  assert (H : lit "b" <> []) by discriminate.
  split; [exact H | split; [reflexivity|]].
  exact (proj1 (@message_routing nat Probe nat clock srv')
           (lit "b") (Some (lit "a")) H).
Defined.

End ServerFacts.

Module HtmlFacts.

Import JS Html.
Import ListFacts.

(** *** Tags *)

Lemma stripTagsFrom_In (c : ascii) (s : str) :
  forall inTag : bool, In c (stripTagsFrom inTag s) -> In c s.
Proof.
  induction s as [|d s IH]; intros inTag; cbn; [easy|].
  destruct inTag.
  - destruct (isGt d); intros H; right; eapply IH; exact H.
  - destruct (isLt d && existsb isGt s).
    + intros H; right; eapply IH; exact H.
    + intros [H|H]; [now left | right; eapply IH; exact H].
Qed.

Lemma existsb_isGt (s : str) : existsb isGt s = false -> ~ In ">"%char s.
Proof.
  intros H Hin.
  assert (E : existsb isGt s = true)
    by (apply existsb_exists; exists ">"%char; split; [exact Hin | reflexivity]).
  congruence.
Qed.

Lemma stripTagsFrom_no_tag (s : str) :
  forall (inTag : bool) (a b : str),
    stripTagsFrom inTag s = a ++ "<"%char :: b -> ~ In ">"%char b.
Proof.
  induction s as [|c s IH]; intros inTag a b; cbn.
  - destruct a; discriminate.
  - destruct inTag.
    + destruct (isGt c); apply IH.
    + destruct (isLt c && existsb isGt s) eqn:E; [apply IH|].
      destruct a as [|x a]; cbn; intros H; inversion H; subst.
      * cbn in E. intros Hin; apply stripTagsFrom_In in Hin.
        now apply existsb_isGt in E.
      * eapply IH; eassumption.
Qed.

Lemma stripTagsFrom_plain (s : str) :
  (forall a b, s = a ++ "<"%char :: b -> ~ In ">"%char b) ->
  stripTagsFrom false s = s.
Proof.
  induction s as [|c s IH]; intros H; cbn; [reflexivity|].
  destruct (isLt c && existsb isGt s) eqn:E.
  - apply andb_true_iff in E as [Hc Hs].
    apply Ascii.eqb_eq in Hc; subst c.
    apply existsb_exists in Hs as [x [Hx Hgt]].
    apply Ascii.eqb_eq in Hgt; subst x.
    exfalso; exact (H [] s eq_refl Hx).
  - f_equal; apply IH; intros a b ->.
    exact (H (c :: a) b eq_refl).
Qed.

(** *** Entities *)

Lemma replaceFrom_plain (pat rep : str) (c : ascii) (s : str) :
  ~ In c s -> replaceFrom (c :: pat) rep 0 s = s.
Proof.
  induction s as [|d s IH]; intros H; cbn [replaceFrom]; [reflexivity|].
  cbn [startsWith].
  destruct (Ascii.eqb c d) eqn:E.
  - apply Ascii.eqb_eq in E; subst d. exfalso; apply H; now left.
  - cbn [andb]. f_equal; apply IH. intros Hin; apply H; now right.
Qed.

(** X22.  After the tags are removed no tag is left: in the text no [<] is
    followed, however far, by a [>]; and text in which this is so already is
    not changed by the removal, which therefore changes nothing when done
    twice.  Text with neither [<] nor [&] in it is only trimmed by
    [stripHtml].  The entities are decoded after the tags are removed, so
    what [stripHtml] returns can contain a tag. *)
Theorem stripHtml_tags_and_plain_text :
  (forall s a b : str,
      stripTags s = a ++ "<"%char :: b -> ~ In ">"%char b) /\
  (forall s : str,
      (forall a b, s = a ++ "<"%char :: b -> ~ In ">"%char b) ->
      stripTags s = s) /\
  (forall s : str, stripTags (stripTags s) = stripTags s) /\
  (forall s : str,
      ~ In "<"%char s -> ~ In "&"%char s -> stripHtml s = trim s) /\
  stripHtml (lit "<p>a &lt;b&gt; c</p> ") = lit "a <b> c".
Proof.
  split; [|split; [|split; [|split]]].
  - intros s a b; apply stripTagsFrom_no_tag.
  - intros s; apply stripTagsFrom_plain.
  - intros s; apply stripTagsFrom_plain.
    intros a b; apply stripTagsFrom_no_tag.
  - intros s Hlt Hamp; unfold stripHtml, replaceAll, stripTags.
    rewrite stripTagsFrom_plain.
    + change (lit "&nbsp;") with ("&"%char :: lit "nbsp;").
      change (lit "&lt;") with ("&"%char :: lit "lt;").
      change (lit "&gt;") with ("&"%char :: lit "gt;").
      change (lit "&amp;") with ("&"%char :: lit "amp;").
      change (lit "&quot;") with ("&"%char :: lit "quot;").
      rewrite (@replaceFrom_plain (lit "nbsp;") (lit " ") "&"%char s Hamp).
      rewrite (@replaceFrom_plain (lit "lt;") (lit "<") "&"%char s Hamp).
      rewrite (@replaceFrom_plain (lit "gt;") (lit ">") "&"%char s Hamp).
      rewrite (@replaceFrom_plain (lit "amp;") (lit "&") "&"%char s Hamp).
      rewrite (@replaceFrom_plain (lit "quot;") [quote] "&"%char s Hamp).
      reflexivity.
    + intros a b ->; exfalso; apply Hlt.
      apply in_or_app; right; now left.
  - vm_compute; reflexivity.
Qed.

Lemma stripHtml_tags_and_plain_text_witness :
  ~ In "<"%char (lit " 2 > 1 ") /\ ~ In "&"%char (lit " 2 > 1 ") /\
  stripHtml (lit " 2 > 1 ") = lit "2 > 1".
Proof.
  assert (H1 : ~ In "<"%char (lit " 2 > 1 ")).
  { cbn; intros H; repeat (destruct H as [H|H]; [discriminate|]); exact H. }
  assert (H2 : ~ In "&"%char (lit " 2 > 1 ")).
  { cbn; intros H; repeat (destruct H as [H|H]; [discriminate|]); exact H. }
  split; [exact H1 | split; [exact H2|]].
  rewrite (proj1 (proj2 (proj2 (proj2 stripHtml_tags_and_plain_text)))
             (lit " 2 > 1 ") H1 H2).
  reflexivity.
Defined.

End HtmlFacts.

Module ToolFacts.

Import JS Lev Search Transcripts Lookups Reading Regex Tools.
Import ListFacts SearchFacts TranscriptFacts TermFacts ReadingFacts.

Local Open Scope Z_scope.

(** *** Escaping *)

Lemma inEscapedClass_syntax (c : ascii) :
  inEscapedClass c = isSyntaxCharacter c.
Proof. destruct c as [[] [] [] [] [] [] [] []]; reflexivity. Qed.

Lemma plain_is_not_backslash (c : ascii) :
  isSyntaxCharacter c = false -> Ascii.eqb c backslash = false.
Proof. destruct c as [[] [] [] [] [] [] [] []]; cbn; congruence. Qed.

Lemma readPattern_escaped (t rest : str) (atoms : list Atom) :
  readPattern rest = Some atoms ->
  readPattern (escapeRegExp t ++ rest) = Some (map Character t ++ atoms).
Proof.
  intros Hrest; induction t as [|c t IH]; [exact Hrest|].
  unfold escapeRegExp in *; cbn [flat_map map app].
  rewrite inEscapedClass_syntax.
  destruct (isSyntaxCharacter c) eqn:Hc; cbn [app readPattern].
  - replace (Ascii.eqb backslash backslash) with true by reflexivity.
    now rewrite Hc, IH.
  - now rewrite (plain_is_not_backslash c Hc), Hc, IH.
Qed.

Lemma readPattern_patternOf (t : str) (wholeWord : bool) :
  readPattern (patternOf t wholeWord) =
  Some ((if wholeWord then [WordBoundary] else []) ++
        map Character t ++
        (if wholeWord then [WordBoundary] else [])).
Proof.
  unfold patternOf; destruct wholeWord.
  - cbn [app readPattern].
    replace (Ascii.eqb backslash backslash) with true by reflexivity.
    replace (isSyntaxCharacter "b"%char) with false by reflexivity.
    replace (Ascii.eqb "b"%char "b"%char) with true by reflexivity.
    now rewrite (@readPattern_escaped t [backslash; "b"%char] [WordBoundary]).
  - rewrite <- (app_nil_r (escapeRegExp t)).
    now rewrite (@readPattern_escaped t [] []).
Qed.

(** *** Matching *)

Lemma matchAtoms_characters (ic : bool) (t : str) (after : list Atom) :
  forall (prev : option ascii) (line : str),
    matchAtoms ic (map Character t ++ after) prev line =
    match literalAt ic t prev line with
    | Some (last, rest) => matchAtoms ic after last rest
    | None => false
    end.
Proof.
  induction t as [|c t IH]; intros prev line; [reflexivity|].
  cbn [map app matchAtoms literalAt].
  destruct line as [|d line]; [reflexivity|].
  destruct (sameUnit ic c d); [apply IH | reflexivity].
Qed.

Lemma matchAtoms_matchHere (m : Matcher) (prev : option ascii) (line : str) :
  matchAtoms (ignoreCase m)
    ((if bounded m then [WordBoundary] else []) ++
     map Character (term m) ++
     (if bounded m then [WordBoundary] else [])) prev line =
  matchHere m prev line.
Proof.
  unfold matchHere; destruct (bounded m); cbn [app matchAtoms].
  - rewrite matchAtoms_characters.
    destruct (literalAt (ignoreCase m) (term m) prev line) as [[last rest]|];
      cbn [matchAtoms]; [now rewrite andb_true_r | apply andb_false_r].
  - rewrite matchAtoms_characters.
    destruct (literalAt (ignoreCase m) (term m) prev line) as [[last rest]|];
      reflexivity.
Qed.

Lemma searchAtoms_testFrom (m : Matcher) :
  forall (line : str) (prev : option ascii),
    searchAtoms (ignoreCase m)
      ((if bounded m then [WordBoundary] else []) ++
       map Character (term m) ++
       (if bounded m then [WordBoundary] else [])) prev line =
    testFrom m prev line.
Proof.
  induction line as [|c line IH]; intros prev; cbn [searchAtoms testFrom];
    rewrite matchAtoms_matchHere; [reflexivity | now rewrite IH].
Qed.

Lemma regexTest_test (m : Matcher) (line : str) :
  regexTest (patternOf (term m) (bounded m)) (ignoreCase m) line =
  Some (test m line).
Proof.
  unfold regexTest, test; rewrite readPattern_patternOf; cbn [option_map].
  now rewrite searchAtoms_testFrom.
Qed.

(** *** Patterns and substrings *)

Lemma literalAt_startsWith (ic : bool) (t : str) :
  forall (prev : option ascii) (line : str),
    match literalAt ic t prev line with Some _ => true | None => false end =
    startsWith (folded ic t) (folded ic line).
Proof.
  induction t as [|c t IH]; intros prev line.
  - destruct ic; reflexivity.
  - destruct line as [|d line]; [destruct ic; reflexivity|].
    cbn [literalAt]; specialize (IH (Some d) line).
    unfold folded, sameUnit in *; destruct ic; cbn [toLowerCase map startsWith].
    + destruct (Ascii.eqb (toLowerChar c) (toLowerChar d)); [exact IH | reflexivity].
    + destruct (Ascii.eqb c d); [exact IH | reflexivity].
Qed.

Lemma matchHere_startsWith (m : Matcher) (prev : option ascii) (line : str) :
  matchHere m prev line = true ->
  startsWith (folded (ignoreCase m) (term m)) (folded (ignoreCase m) line) = true.
Proof.
  unfold matchHere; rewrite <- (literalAt_startsWith (ignoreCase m) (term m) prev line).
  destruct (literalAt (ignoreCase m) (term m) prev line); easy.
Qed.

Lemma matchHere_unbounded (m : Matcher) (prev : option ascii) (line : str) :
  bounded m = false ->
  matchHere m prev line =
  startsWith (folded (ignoreCase m) (term m)) (folded (ignoreCase m) line).
Proof.
  intros Hb; unfold matchHere.
  rewrite <- (literalAt_startsWith (ignoreCase m) (term m) prev line), Hb.
  destruct (literalAt (ignoreCase m) (term m) prev line) as [[last rest]|];
    reflexivity.
Qed.

Lemma folded_cons (ic : bool) (c : ascii) (s : str) :
  folded ic (c :: s) = (if ic then toLowerChar c else c) :: folded ic s.
Proof. destruct ic; reflexivity. Qed.

Lemma testFrom_unbounded (m : Matcher) :
  bounded m = false ->
  forall (line : str) (prev : option ascii),
    testFrom m prev line =
    includes (folded (ignoreCase m) line) (folded (ignoreCase m) (term m)).
Proof.
  intros Hb; induction line as [|c line IH]; intros prev; cbn [testFrom].
  - rewrite (matchHere_unbounded m prev [] Hb).
    destruct (ignoreCase m); reflexivity.
  - rewrite folded_cons; cbn [includes]; rewrite <- folded_cons.
    now rewrite (matchHere_unbounded m prev (c :: line) Hb), IH.
Qed.

Lemma testFrom_includes (m : Matcher) :
  forall (line : str) (prev : option ascii),
    testFrom m prev line = true ->
    includes (folded (ignoreCase m) line) (folded (ignoreCase m) (term m))
    = true.
Proof.
  induction line as [|c line IH]; intros prev; cbn [testFrom].
  - rewrite orb_false_r; intros H; apply matchHere_startsWith in H.
    destruct (ignoreCase m); cbn in *; now rewrite H.
  - rewrite folded_cons; cbn [includes]; rewrite <- folded_cons.
    intros H; apply orb_true_iff in H as [H|H]; apply orb_true_iff.
    + left; now apply matchHere_startsWith in H.
    + right; now apply IH in H.
Qed.

(** X23.  [escapeRegExp] puts a backslash before the syntax characters of a
    pattern and before no other code unit, so the pattern made for a term
    reads as the code units of the term, each standing for itself, between
    two word boundaries when [wholeWord] is set.  Testing it on a line is
    what [test] computes.  For text of code units below 256, a pattern
    without [wholeWord] matches a line exactly when the line contains the
    term, both lower-cased unless the search is case sensitive, and a
    pattern with [wholeWord] matches only lines that contain the term. *)
Theorem escaped_term_is_matched_literally :
  (forall c : ascii, inEscapedClass c = isSyntaxCharacter c) /\
  (forall (t : str) (wholeWord : bool),
      readPattern (patternOf t wholeWord) =
      Some ((if wholeWord then [WordBoundary] else []) ++
            map Character t ++
            (if wholeWord then [WordBoundary] else []))) /\
  (forall (m : Matcher) (line : str),
      regexTest (patternOf (term m) (bounded m)) (ignoreCase m) line =
      Some (test m line)) /\
  (forall (t line : str) (ic : bool),
      regexTest (patternOf t false) ic line =
      Some (includes (folded ic line) (folded ic t))) /\
  (forall (t line : str) (ic : bool),
      regexTest (patternOf t true) ic line = Some true ->
      includes (folded ic line) (folded ic t) = true).
Proof.
  split; [exact inEscapedClass_syntax|].
  split; [exact readPattern_patternOf|].
  split; [exact regexTest_test | split].
  - intros t line ic.
    pose proof (regexTest_test (mkMatcher t ic false) line) as H.
    cbn [term bounded ignoreCase] in H; rewrite H; f_equal.
    now apply (@testFrom_unbounded (mkMatcher t ic false)).
  - intros t line ic.
    pose proof (regexTest_test (mkMatcher t ic true) line) as H.
    cbn [term bounded ignoreCase] in H; rewrite H; intros [= H'].
    exact (@testFrom_includes (mkMatcher t ic true) line None H').
Qed.

Lemma escaped_term_is_matched_literally_witness :
  regexTest (patternOf (lit "a.c") true) true (lit "An A.C!") = Some true /\
  escapeRegExp (lit "a.c") = [ "a"%char; backslash; "."%char; "c"%char ] /\
  regexTest (patternOf (lit "a.c") false) true (lit "An abc!") = Some false /\
  includes (toLowerCase (lit "An A.C!")) (toLowerCase (lit "a.c")) = true.
Proof.
  assert (H : regexTest (patternOf (lit "a.c") true) true (lit "An A.C!")
              = Some true) by reflexivity.
  split; [exact H | split; [reflexivity | split; [reflexivity|]]].
  exact (proj2 (proj2 (proj2 (proj2 escaped_term_is_matched_literally)))
           (lit "a.c") (lit "An A.C!") true H).
Defined.

(** *** The tool search_transcripts *)

Lemma scanTranscript_match_lines (o : Options) (ms : list Matcher)
  (lines : list str) (m : TranscriptMatch) :
  In m (matches (scanTranscript o ms lines)) ->
  exists index line,
    nth_error lines index = Some line /\
    lineMatches ms line = true /\
    m = matchAt o ms lines (index, line).
Proof.
  intros Hm.
  destruct (scanFrom_prefix o ms lines lines 0%nat emptyScan) as [k Hk].
  unfold scanTranscript in Hm; rewrite Hk in Hm.
  apply In_firstn in Hm; unfold allMatches in Hm.
  apply in_map_iff in Hm as [[index line] [<- Hin]].
  apply filter_In in Hin as [Hin Hline]; cbn [snd] in Hline.
  apply numbered_In in Hin as [_ Hnth]; rewrite Nat.sub_0_r in Hnth.
  now exists index, line.
Qed.

Lemma toolOptions_phrase (args : SearchTranscriptsArgs) :
  resolvedMatchMode (arg_query args) (toolOptions args) = lit "phrase" /\
  makeMatchers (arg_query args) (toolOptions args) =
  if hasQuery (arg_query args)
  then [mkMatcher (trim (arg_query args)) true false]
  else [].
Proof.
  assert (Hst : searchTerms (arg_query args) (toolOptions args) =
                if hasQuery (arg_query args)
                then [trim (arg_query args)] else []).
  { unfold searchTerms, explicitTerms, splitQueryTerms.
    destruct (hasQuery (arg_query args)); reflexivity. }
  assert (Hmode : resolvedMatchMode (arg_query args) (toolOptions args) =
                  lit "phrase").
  { unfold resolvedMatchMode; rewrite Hst.
    destruct (hasQuery (arg_query args)); reflexivity. }
  split; [exact Hmode|].
  unfold makeMatchers, effectiveTerms; rewrite Hmode, Hst.
  destruct (hasQuery (arg_query args)) eqn:E; cbn; [|reflexivity].
  unfold hasQuery in E; apply Nat.ltb_lt in E.
  destruct (trim (arg_query args)); [cbn in E; lia | reflexivity].
Qed.

(** X24.  The tool [search_transcripts] of the HTTP server passes only
    [limit] and [contextLines], each replaced by its default, 20 or 3, when
    it is absent or 0; all other options are left to their defaults.  So the
    tool always searches for the whole query as one phrase, trimmed,
    without regard to case and not by whole words, with at most 5 matches an
    episode, and a blank query finds nothing.  For a limit that is a whole
    number at most [limit] episodes are returned.  Every match reported names
    the trimmed query as its only term and is for a line of the transcript
    on which the regular expression made from the escaped query, with the
    flag [i], matches: for text of code units below 256, a line that
    contains the query, both lower-cased. *)
Theorem search_transcripts_tool :
  forall (db : HPRDataLoader) (args : SearchTranscriptsArgs),
    let q := trim (arg_query args) in
    let o := toolOptions args in
    (limit o = match arg_limit args with
               | Some 0 | None => 20
               | Some v => v
               end /\
     contextLines o = match arg_contextLines args with
                      | Some 0 | None => 3
                      | Some v => v
                      end /\
     terms o = [] /\ matchMode o = lit "auto" /\
     hostId o = None /\ hostName o = None /\
     caseSensitive o = false /\ wholeWord o = false /\
     maxMatchesPerEpisode o = 5) /\
    (resolvedMatchMode (arg_query args) o = lit "phrase" /\
     makeMatchers (arg_query args) o =
     match q with [] => [] | _ :: _ => [mkMatcher q true false] end) /\
    (q = [] -> searchTranscriptsTool db args = []) /\
    Z.of_nat (length (searchTranscriptsTool db args)) <= Z.max 0 (limit o) /\
    forall r, In r (searchTranscriptsTool db args) ->
      ms_matchMode (matchSummary r) = lit "phrase" /\
      (1 <= length (r_matches r) <= 5)%nat /\
      exists text,
        In (id (r_episode r), text) (transcripts db) /\
        forall m, In m (r_matches r) ->
          match_terms m = [q] /\
          exists line,
            nth_error (splitLines text) (Z.to_nat (lineNumber m - 1))
              = Some line /\
            regexTest (escapeRegExp q) true line = Some true /\
            includes (toLowerCase line) (toLowerCase q) = true.
Proof.
  intros db args q o.
  destruct (toolOptions_phrase args) as [Hmode Hms].
  assert (Hms' : makeMatchers (arg_query args) o =
                 match q with [] => [] | _ :: _ => [mkMatcher q true false] end).
  { unfold o; rewrite Hms; unfold hasQuery; fold q. now destruct q. }
  assert (Hdef : forall x d,
             orDefault x d = match x with Some 0 | None => d | Some v => v end).
  { intros [[|p|p]|] d; reflexivity. }
  split; [|split; [|split; [|split]]].
  - unfold o, toolOptions; cbn; rewrite !Hdef. now repeat split.
  - split; [exact Hmode | exact Hms'].
  - intros Hq; unfold searchTranscriptsTool, searchTranscripts.
    fold o; rewrite Hms', Hq; cbn.
    now destruct (length (effectiveTerms _ _) =? 0)%nat.
  - unfold searchTranscriptsTool, searchTranscripts; fold o.
    destruct (length (effectiveTerms _ _) =? 0)%nat; [cbn; lia|].
    cbv zeta.
    destruct (length (makeMatchers _ _) =? 0)%nat; [cbn; lia|].
    apply (scanAll_length db o
             (resolvedMatchMode (arg_query args) o)
             (makeMatchers (arg_query args) o)
             (resolvedHostIds db o) (transcripts db) []).
  - intros r Hr; unfold searchTranscriptsTool in Hr; fold o in Hr.
    apply searchTranscripts_In in Hr as [episodeId [text [ep [Hin [Hep Hres]]]]].
    apply episodeResult_some in Hres as [-> [Hne _]].
    cbn [matchSummary ms_matchMode r_matches r_episode].
    apply getEpisode_id in Hep as [Hid _]; subst episodeId.
    split; [exact Hmode | split].
    + pose proof (@positive_cap_respected o
                    (makeMatchers (arg_query args) o)
                    (splitLines text)) as Hcap.
      cbv zeta in Hcap. destruct Hcap as [Hlen _]; [cbn; lia|].
      replace (maxMatchesPerEpisode o) with 5 in Hlen by reflexivity.
      destruct (matches _); [contradiction | cbn [length] in *; lia].
    + exists text; split; [exact Hin|].
      intros m Hm.
      apply scanTranscript_match_lines in Hm as [index [line [Hnth [Hline ->]]]].
      rewrite Hms' in Hline |- *.
      destruct q as [|c q'] eqn:Eq; [discriminate|]; rewrite <- Eq in *.
      unfold lineMatches in Hline; cbn [existsb] in Hline.
      rewrite orb_false_r in Hline.
      cbn [matchAt match_terms lineNumber fst snd].
      split.
      * unfold termsOn; cbn [filter]; rewrite Hline; reflexivity.
      * exists line; split; [|split].
        -- replace (Z.to_nat (Z.of_nat index + 1 - 1)) with index by lia.
           exact Hnth.
        -- pose proof (regexTest_test (mkMatcher q true false) line) as Hre.
           cbn [term bounded ignoreCase] in Hre.
           now rewrite Hline in Hre.
        -- exact (@testFrom_includes (mkMatcher q true false) line None Hline).
Qed.

(** The query " Virtual " with no limit given finds the line of the one
    transcript that has the word, in whatever case. *)
Lemma search_transcripts_tool_witness :
  let ep := mkEpisode 1 (lit "2020-01-01") (lit "VMs") (lit "s") (lit "n")
                      (lit "t") 7 0 in
  let db := mkLoader [ep] [] [(1, lit "intro" ++ [LF] ++ lit "a VIRTUAL host")] in
  let args := mkSearchTranscriptsArgs (lit " Virtual ") (Some 0) None in
  limit (toolOptions args) = 20 /\
  contextLines (toolOptions args) = 3 /\
  map (fun r => (map lineNumber (r_matches r), map match_terms (r_matches r)))
      (searchTranscriptsTool db args) = [([2], [[lit "Virtual"]])] /\
  Z.of_nat (length (searchTranscriptsTool db args)) <= 20.
Proof.
  intros ep db args.
  destruct (search_transcripts_tool db args) as [[Hl [Hc _]] [_ [_ [Hn _]]]].
  split; [exact Hl | split; [exact Hc | split; [vm_compute; reflexivity|]]].
  exact Hn.
Defined.

End ToolFacts.
